(** * endcord rendering helpers: a shallow embedding of [endcord_cython]

    The Cython sources [color.pyx], [search.pyx], [media.pyx],
    [pgcurses.pyx] and [tui.pyx] are embedded as Rocq functions, one
    module per source file, and the properties of the rendering engine
    are proved about these functions.

    Conventions of the embedding.
    - A Python [str] is a list of Unicode code points ([str := list Z]).
    - A C [int] / [int32_t] is a [Z]; arithmetic that the C code performs
      on such a variable is written with [wrap32], the two's complement
      wrap-around.  Indices of type [Py_ssize_t] are bounded by the length
      of the sequence they walk and are left as plain [Z].
    - All sources are compiled with [boundscheck=False, wraparound=False]:
      an index outside a list or tuple is an unchecked memory access.  Such
      a read or store has no defined result and is [None] in the model
      ([idx], [set_idx]).
    - Python ints stored in the arguments (colours, attributes, columns)
      are taken to fit the C type they are converted to.
    - Loops that the source writes as [while] are run with a fuel bounded
      by the width they scan; the totality lemmas show the fuel suffices. *)

From Stdlib Require Import ZArith List Lia Bool.
From stdpp Require Import base option list gmap.
Import ListNotations.

Local Open Scope Z_scope.

(** ** Shared data model *)

Abbreviation str := (list Z) (only parsing).

Definition INT_MAX : Z := 2147483647.

Definition wrap32 (z : Z) : Z := (z + 2147483648) mod 4294967296 - 2147483648.

(** [l[i]] under [boundscheck=False, wraparound=False]. *)
Definition idx {A : Type} (l : list A) (i : Z) : option A :=
  if i <? 0 then None else l !! Z.to_nat i.

(** [l[i] = v] under [boundscheck=False, wraparound=False]. *)
Definition set_idx {A : Type} (l : list A) (i : Z) (v : A) : option (list A) :=
  if (0 <=? i) && (i <? Z.of_nat (length l)) then Some (<[Z.to_nat i := v]> l)
  else None.

Definition len {A : Type} (l : list A) : Z := Z.of_nat (length l).

(** ** color.pyx: the colour quantizer and the width engine *)

Module Color.

Abbreviation rgb := (Z * Z * Z)%type (only parsing).

(** Body of [for i in range(n)] in [closest_color]; the state is
    [(best_dist, best_idx)] and [i] is the index of the head of [cs]. *)
Fixpoint closest_color_loop (r g b : Z) (cs : list rgb) (i best_dist best_idx : Z)
  : Z * Z :=
  match cs with
  | [] => (best_dist, best_idx)
  | (c0, c1, c2) :: cs' =>
      let dr := wrap32 (r - c0) in
      let dg := wrap32 (g - c1) in
      let db := wrap32 (b - c2) in
      let dist := wrap32 (dr * dr + dg * dg + db * db) in
      if dist <? best_dist
      then closest_color_loop r g b cs' (i + 1) dist i
      else closest_color_loop r g b cs' (i + 1) best_dist best_idx
  end.

Definition closest_color (colors : list rgb) (q : rgb) : option (Z * rgb) :=
  let '(r, g, b) := q in
  let best_idx := snd (closest_color_loop r g b colors 0 2147483647 0) in
  c ← idx colors best_idx;
  Some (best_idx, c).

Definition int_to_rgb (int_color : Z) : rgb :=
  (Z.land (Z.shiftr int_color 16) 255,
   Z.land (Z.shiftr int_color 8) 255,
   Z.land int_color 255).

(** Components of an RGB triple are bytes. *)
Definition rgb_ok (c : rgb) : Prop :=
  let '(r, g, b) := c in
  0 <= r <= 255 /\ 0 <= g <= 255 /\ 0 <= b <= 255.

(** Squared Euclidean distance in RGB space. *)
Definition dist2 (p c : rgb) : Z :=
  let '(r, g, b) := p in
  let '(c0, c1, c2) := c in
  (r - c0) * (r - c0) + (g - c1) * (g - c1) + (b - c2) * (b - c2).

(** What the loop of [closest_color] knows after the entries [seen]: the
    invariant used to verify it. *)
Definition best_of (q : rgb) (seen : list rgb) (best_dist best_idx : Z) : Prop :=
  0 <= best_idx /\
  (seen = [] -> best_dist = 2147483647 /\ best_idx = 0) /\
  (seen <> [] -> exists c, seen !! Z.to_nat best_idx = Some c /\ best_dist = dist2 q c) /\
  (forall j cj, seen !! j = Some cj -> best_dist <= dist2 q cj) /\
  (forall j cj, (j < Z.to_nat best_idx)%nat -> seen !! j = Some cj ->
                best_dist < dist2 q cj).

(** *** Width engine *)

(** The [while low <= high] loop of [binary_search]. *)
Fixpoint binary_search_loop (fuel : nat) (codepoint : Z) (ranges : list (Z * Z))
    (low high : Z) : option Z :=
  match fuel with
  | O => None
  | S fuel' =>
      if low <=? high then
        let mid := Z.shiftr (low + high) 1 in
        '(start, end_) ← idx ranges mid;
        if codepoint >? end_ then
          binary_search_loop fuel' codepoint ranges (mid + 1) high
        else if codepoint <? start then
          binary_search_loop fuel' codepoint ranges low (mid - 1)
        else Some 1
      else Some 0
  end.

Definition binary_search (codepoint : Z) (ranges : list (Z * Z)) : option Z :=
  let low := 0 in
  let high := len ranges - 1 in
  first ← idx ranges 0;
  if codepoint <? first.1 then Some 0
  else
    last ← idx ranges high;
    if codepoint >? last.2 then Some 0
    else binary_search_loop (S (length ranges)) codepoint ranges low high.

(** The width the two scanning loops give to one character. *)
Definition char_width (character : Z) (ranges : list (Z * Z)) : option Z :=
  if (32 <=? character) && (character <? 127) then Some 1
  else b ← binary_search character ranges; Some (1 + b).

(** [for i in range(n)] of [limit_width_wch]; [rest] is [text[i:]]. *)
Fixpoint limit_width_wch_loop (text : str) (max_width : Z) (ranges : list (Z * Z))
    (rest : str) (i : nat) (total_width : Z) : option (str * Z) :=
  match rest with
  | [] => Some (text, total_width)
  | character :: rest' =>
      char_width ← char_width character ranges;
      if wrap32 (total_width + char_width) >? max_width
      then Some (take i text, total_width)
      else limit_width_wch_loop text max_width ranges rest' (S i)
             (wrap32 (total_width + char_width))
  end.

Definition limit_width_wch (text : str) (max_width : Z) (ranges : list (Z * Z))
  : option (str * Z) :=
  limit_width_wch_loop text max_width ranges text 0%nat 0.

Fixpoint len_wch_loop (ranges : list (Z * Z)) (rest : str) (total_width : Z)
  : option Z :=
  match rest with
  | [] => Some total_width
  | character :: rest' =>
      char_width ← char_width character ranges;
      len_wch_loop ranges rest' (wrap32 (total_width + char_width))
  end.

Definition len_wch (text : str) (ranges : list (Z * Z)) : option Z :=
  len_wch_loop ranges text 0.

(** *** Properties of the wide-range table and of characters *)

(** The table of wide ranges as the callers build it: inclusive ranges,
    in increasing order and apart from each other. *)
Definition sorted_ranges (ranges : list (Z * Z)) : Prop :=
  (forall i x, ranges !! i = Some x -> x.1 <= x.2) /\
  (forall i j x y, (i < j)%nat -> ranges !! i = Some x -> ranges !! j = Some y ->
                   x.2 < y.1).

Definition in_ranges (codepoint : Z) (ranges : list (Z * Z)) : Prop :=
  exists x, x ∈ ranges /\ x.1 <= codepoint <= x.2.

(** [32 <= character < 0x7f] *)
Definition printable (character : Z) : bool :=
  (32 <=? character) && (character <? 127).

(** *** The width contract of the design (section 4.1)

    These follow the words of the design, not the code: the printable
    ASCII range 0x20-0x7E is always width 1; any other code point is
    width 2 when it lies in one of the inclusive ranges of the table and
    width 1 otherwise; the display width of a text is the sum over its
    characters. *)
Definition in_table (codepoint : Z) (ranges : list (Z * Z)) : bool :=
  existsb (fun x => (x.1 <=? codepoint) && (codepoint <=? x.2)) ranges.

Definition spec_char_width (character : Z) (ranges : list (Z * Z)) : Z :=
  if (0x20 <=? character) && (character <=? 0x7E) then 1
  else if in_table character ranges then 2 else 1.

Definition display_width (text : str) (ranges : list (Z * Z)) : Z :=
  foldr (fun character width => spec_char_width character ranges + width) 0 text.

(** *** Role colours

    [all_roles] is a list of guild dicts, each with the keys ["guild_id"]
    and ["roles"]; a role is a dict with the keys ["id"] and ["color"].
    The records hold the keys [convert_role_colors] reads; the dicts are
    distinct objects.  Ids are strings; the [guild_id] and [role_id]
    arguments are a string or [None]. *)
Record role : Type := Role { r_id : list Z; r_color : Z }.
Record guild : Type := Guild { g_guild_id : list Z; g_roles : list role }.

(** Truth value of an id argument: [None] and the empty string are false. *)
Definition truthy (o : option (list Z)) : bool :=
  match o with
  | Some (_ :: _) => true
  | _ => false
  end.

(** [v != o] *)
Definition differs (v : list Z) (o : option (list Z)) : bool :=
  negb (bool_decide (Some v = o)).

(** Lines 52-57: the conversion of one role. *)
Definition convert_role (colors : list rgb) (default : Z) (r : role) : option role :=
  let color := r_color r in
  let color := if color =? 0 then default else color in
  '(ansi, _) ← closest_color colors (int_to_rgb color);
  Some (Role (r_id r) ansi).

(** [for role in guild["roles"]] *)
Fixpoint convert_roles (colors : list rgb) (role_id : option (list Z)) (default : Z)
    (roles : list role) : option (list role) :=
  match roles with
  | [] => Some []
  | r :: roles' =>
      if truthy role_id && differs (r_id r) role_id then
        roles'' ← convert_roles colors role_id default roles';
        Some (r :: roles'')
      else
        r' ← convert_role colors default r;
        if truthy role_id then Some (r' :: roles')
        else
          roles'' ← convert_roles colors role_id default roles';
          Some (r' :: roles'')
  end.

(** [for guild in all_roles] *)
Fixpoint convert_guilds (colors : list rgb) (guild_id role_id : option (list Z))
    (default : Z) (guilds : list guild) : option (list guild) :=
  match guilds with
  | [] => Some []
  | g :: guilds' =>
      if truthy guild_id && differs (g_guild_id g) guild_id then
        guilds'' ← convert_guilds colors guild_id role_id default guilds';
        Some (g :: guilds'')
      else
        roles ← convert_roles colors role_id default (g_roles g);
        let g' := Guild (g_guild_id g) roles in
        if truthy guild_id then Some (g' :: guilds')
        else
          guilds'' ← convert_guilds colors guild_id role_id default guilds';
          Some (g' :: guilds'')
  end.

Definition convert_role_colors (all_roles : list guild) (colors : list rgb)
    (guild_id role_id : option (list Z)) (default : Z) : option (list guild) :=
  convert_guilds colors guild_id role_id default all_roles.

End Color.

(** ** search.pyx: the match scorer *)

Module Search.

(** The code points on which Python's [str.split()] separates words
    ([str.isspace]). *)
Definition isspace (c : Z) : bool :=
  ((9 <=? c) && (c <=? 13)) || ((28 <=? c) && (c <=? 32))
  || (c =? 133) || (c =? 160) || (c =? 5760)
  || ((8192 <=? c) && (c <=? 8202))
  || (c =? 8232) || (c =? 8233) || (c =? 8239) || (c =? 8287) || (c =? 12288).

(** [s.split()]: maximal runs of non-space characters; [cur] is the word
    being read, most recent character first. *)
Fixpoint split_from (cur : str) (s : str) : list str :=
  match s with
  | [] => match cur with [] => [] | _ => [rev cur] end
  | c :: s' =>
      if isspace c then
        match cur with
        | [] => split_from [] s'
        | _ => rev cur :: split_from [] s'
        end
      else split_from (c :: cur) s'
  end.

Definition split (s : str) : list str := split_from [] s.

(** [str.lower] on strings of ASCII characters. *)
Definition ascii_lower (s : str) : str :=
  map (fun c => if (65 <=? c) && (c <=? 90) then c + 32 else c) s.

(** [str.lower] on strings of ASCII characters and U+0130, the capital I
    with dot above, whose lower case is the two characters "i" and
    U+0307. *)
Definition dotted_lower (s : str) : str :=
  concat (map (fun c => if c =? 304 then [105; 775]
                        else if (65 <=? c) && (c <=? 90) then [c + 32] else [c]) s).

(** The local variables of [fuzzy_match_score_single] that its loop
    updates. *)
Record scan : Type := Scan {
  qpos : Z;
  cpos : Z;
  score : Z;
  last_match_pos : Z
}.

Section Scorer.

(** [str.lower] of the Python runtime. *)
Variable lower : str -> str.

(** The characters of [s.lower()] the loop of [fuzzy_match_score_single]
    can compare: its bounds [qlen] and [clen] are the lengths of the
    strings before lower-casing, so of a lower-cased string only the
    first [len(s)] characters are read. *)
Definition compared (s : str) : str := take (length s) (lower s).

(** One iteration of [while qpos < qlen and cpos < clen]. *)
Definition scan_step (query_lower candidate_lower : str) (st : scan) : option scan :=
  q ← idx query_lower (qpos st);
  c ← idx candidate_lower (cpos st);
  if q =? c then
    let score' :=
      if cpos st =? last_match_pos st + 1
      then wrap32 (score st + 10)
      else wrap32 (score st + 1) in
    Some (Scan (qpos st + 1) (cpos st + 1) score' (cpos st))
  else
    Some (Scan (qpos st) (cpos st + 1) (score st) (last_match_pos st)).

Fixpoint scan_loop (fuel : nat) (query_lower candidate_lower : str)
    (qlen clen : Z) (st : scan) : option scan :=
  if (qpos st <? qlen) && (cpos st <? clen) then
    match fuel with
    | O => None
    | S fuel' =>
        st' ← scan_step query_lower candidate_lower st;
        scan_loop fuel' query_lower candidate_lower qlen clen st'
    end
  else Some st.

Definition scan_init : scan := Scan 0 0 0 (-1).

Definition fuzzy_match_score_single (query candidate : str) : option Z :=
  let qlen := len query in
  let clen := len candidate in
  let query_lower := lower query in
  let candidate_lower := lower candidate in
  st ← scan_loop (length candidate) query_lower candidate_lower qlen clen scan_init;
  if qpos st =? qlen
  then Some (wrap32 (score st + Z.max 0 (10 - last_match_pos st)))
  else Some 0.

(** [for word in words] of [fuzzy_match_score]. *)
Fixpoint fuzzy_match_score_words (words : list str) (candidate : str)
    (total_score : Z) : option Z :=
  match words with
  | [] => Some total_score
  | word :: words' =>
      score ← fuzzy_match_score_single word candidate;
      if score =? 0 then Some 0
      else fuzzy_match_score_words words' candidate (wrap32 (total_score + score))
  end.

Definition fuzzy_match_score (query candidate : str) : option Z :=
  let words := split query in
  fuzzy_match_score_words words candidate 0.

End Scorer.

End Search.

(** ** The curses window interface used by [media.pyx] and [tui.pyx]

    Both files drive a window object through [insstr], [insch] and
    [noutrefresh]; the model records the calls they issue, in order. *)

Module Curses.

Inductive call : Type :=
| insstr (y x : Z) (text : str) (attr : Z)
| insch (y x : Z) (ch : Z) (attr : Z)
| noutrefresh.

(** [COLOR_PAIR(n)] of ncurses, the value of [curses.color_pair] on a
    terminal. *)
Definition ncurses_color_pair (n : Z) : Z := Z.land (Z.shiftl n 8) 65280.

(** [" " * n] *)
Definition spaces (n : Z) : str := replicate (Z.to_nat n) 32.

(** [range(n)] *)
Definition range (n : Z) : list Z := map Z.of_nat (seq 0 (Z.to_nat n)).

(** The row and the column a call addresses. *)
Definition call_at (c : call) : option (Z * Z) :=
  match c with
  | insstr y x _ _ => Some (y, x)
  | insch y x _ _ => Some (y, x)
  | noutrefresh => None
  end.

(** A write of a whole row: an [insstr] at column 0 of row [y] whose text
    ends with the row separator. *)
Definition rewrites_row (y : Z) (c : call) : Prop :=
  exists text attr, c = insstr y 0 (text ++ [10]) attr.

(** Whether a call addresses row [y]. *)
Definition on_row (y : Z) (c : call) : bool :=
  match call_at c with
  | Some (y', _) => y' =? y
  | None => false
  end.

(** Whether a call is an [insch]. *)
Definition is_insch (c : call) : bool :=
  match c with
  | insch _ _ _ _ => true
  | _ => false
  end.

End Curses.

(** ** media.pyx: the image-to-glyph renderer *)

Module Media.
Import Curses.

(** [(gray_val * ascii_palette_len) // 255] *)
Definition glyph_index (gray_val ascii_palette_len : Z) : Z :=
  wrap32 (gray_val * ascii_palette_len) / 255.

(** [pixels[x, y]] of a loaded image, stored row by row. *)
Definition pixel (pixels : list (list Z)) (x y : Z) : option Z :=
  row ← idx pixels y; idx row x.

(** The pixels of a [width] by [height] image in the order the two loops
    of [img_to_curses] visit them: row by row, each row from left to
    right; a pixel is the pair of its column [x] and its row [y]. *)
Definition pixel_coords (width height : Z) : list (Z * Z) :=
  concat (map (fun y => map (fun x => (x, y)) (range width)) (range height)).

Section Renderer.

(** [curses.color_pair] *)
Variable color_pair : Z -> Z.

Variables (pixels pixels_gray : list (list Z)).
Variables (start_color_id : Z) (ascii_palette : list Z) (ascii_palette_len : Z).
Variables (screen_width screen_height width height : Z).

(** Body of [for x in range(width)]. *)
Definition img_cell (row_y padding_w y x : Z) : option call :=
  gray_val ← pixel pixels_gray x y;
  character ← idx ascii_palette (glyph_index gray_val ascii_palette_len);
  p ← pixel pixels x y;
  let color := start_color_id + p + 16 in
  Some (insch row_y (x + padding_w) character (color_pair color)).

(** Body of [for y in range(height)].  After the inner loop [x] holds
    [width - 1]; it is never assigned when [width <= 0]. *)
Definition img_row (padding_h padding_w bg_color y : Z) : option (list call) :=
  let row_y := y + padding_h in
  let left :=
    if padding_w >? 0 then [insstr row_y 0 (spaces padding_w) bg_color] else [] in
  cells ← mapM (img_cell row_y padding_w y) (range width);
  x ← (if 0 <? width then Some (width - 1) else None);
  let right :=
    if x + padding_w + 1 <? screen_width
    then [insstr row_y (x + padding_w + 1)
            (spaces (screen_width - (x + padding_w + 1))) bg_color]
    else [] in
  Some (left ++ cells ++ right).

Definition img_to_curses : option (list call) :=
  let padding_h := (screen_height - height) / 2 in
  let padding_w := (screen_width - width) / 2 in
  let bg_color := color_pair (start_color_id + 1) in
  let top :=
    map (fun y_fill => insstr y_fill 0 (spaces screen_width) bg_color)
        (range padding_h) in
  rows ← mapM (img_row padding_h padding_w bg_color) (range height);
  let bottom :=
    if screen_height =? height then []
    else map (fun y_fill =>
                insstr (screen_height - 1 - y_fill) 0 (spaces screen_width) bg_color)
             (range (padding_h + 1)) in
  Some (top ++ concat rows ++ bottom ++ [noutrefresh]).

End Renderer.

End Media.

(** ** pgcurses.pyx: the cell buffer and the pixel-surface painter *)

Module Pgcurses.

Definition A_STANDOUT : Z := 0x00010000.
Definition A_UNDERLINE : Z := 0x00020000.
Definition A_BOLD : Z := 0x00200000.
Definition A_ITALIC : Z := 0x80000000.

Definition is_emoji (ch : Z) : bool :=
  ((0x1F300 <=? ch) && (ch <=? 0x1F9FF))
  || ((0x2600 <=? ch) && (ch <=? 0x27BF))
  || ((0x2300 <=? ch) && (ch <=? 0x23FF))
  || ((0x2B00 <=? ch) && (ch <=? 0x2BFF)).

(** A cell is the tuple [(glyph, attr)]; a row is a Python list of cells
    and the buffer a list of rows.  Rows are distinct list objects, so a
    store into one row leaves the others as they are. *)
Abbreviation cell := (Z * Z)%type (only parsing).

(** [text.split("\n")] *)
Fixpoint split_lines (text : str) : list str :=
  match text with
  | [] => [[]]
  | c :: text' =>
      if c =? 10 then [] :: split_lines text'
      else match split_lines text' with
           | line :: lines => (c :: line) :: lines
           | [] => [[c]]
           end
  end.

(** [for j in range(j0, j0 + len(glyphs)): row_buffer[x + j] = (glyphs[j - j0], attr)] *)
Fixpoint write_cells (row_buffer : list cell) (x j : Z) (glyphs : str) (attr : Z)
  : option (list cell) :=
  match glyphs with
  | [] => Some row_buffer
  | ch :: glyphs' =>
      row_buffer' ← set_idx row_buffer (x + j) (ch, attr);
      write_cells row_buffer' x (j + 1) glyphs' attr
  end.

(** [for i in range(len_lines)] of [insstr]; [lines] is [lines[i:]]. *)
Fixpoint insstr_lines (buf : list (list cell)) (nlines ncols : Z) (dirty_lines : gset Z)
    (y x : Z) (attr : Z) (len_lines i : Z) (lines : list str)
  : option (list (list cell) * gset Z) :=
  match lines with
  | [] => Some (buf, dirty_lines)
  | line :: lines' =>
      let row := y + i in
      if row >=? nlines then Some (buf, dirty_lines)
      else
        row_buffer ← idx buf row;
        let line_len := ncols - x in
        if line_len <=? 0 then
          insstr_lines buf nlines ncols dirty_lines y x attr len_lines (i + 1) lines'
        else
          let min_len := if line_len <? len line then line_len else len line in
          row_buffer ← write_cells row_buffer x 0 (take (Z.to_nat min_len) line) attr;
          row_buffer ←
            (if (i <? len_lines - 1) && (min_len <? line_len)
             then write_cells row_buffer x min_len
                    (replicate (Z.to_nat (line_len - min_len)) 32) attr
             else Some row_buffer);
          buf' ← set_idx buf row row_buffer;
          insstr_lines buf' nlines ncols ({[row]} ∪ dirty_lines) y x attr
            len_lines (i + 1) lines'
  end.

Definition insstr (buf : list (list cell)) (nlines ncols : Z) (dirty_lines : gset Z)
    (y x : Z) (text : str) (attr : Z) : option (list (list cell) * gset Z) :=
  let lines := split_lines text in
  let len_lines := len lines in
  insstr_lines buf nlines ncols dirty_lines y x attr len_lines 0 lines.

(** *** The painter *)

Abbreviation color := (Z * Z * Z)%type (only parsing).

(** The four font objects handed to [render]. *)
Inductive font : Type :=
| font_regular
| font_bold
| font_italic
| font_bold_italic.

(** The calls [render] makes on the surface.  [blit_emoji] stands for the
    guarded [emoji_font.render], [smoothscale] to [size] and [screen.blit]
    of one emoji; [render_to] carries the [underline] property set on the
    font just before the call. *)
Inductive draw_op : Type :=
| fill (c : color) (rect : Z * Z * Z * Z)
| blit_emoji (ch : Z) (size : Z) (dest : Z * Z)
| render_to (f : font) (underline : bool) (dest : Z * Z) (text : str) (fg : color).

Definition flag_set (flags mask : Z) : bool := negb (Z.land flags mask =? 0).

(** The font chosen for a text run, lines 152-163 of [render]. *)
Definition select_font (flags : Z) : font :=
  if flag_set flags A_BOLD then
    if flag_set flags A_ITALIC then font_bold_italic else font_bold
  else if flag_set flags A_ITALIC then
    if flag_set flags A_ITALIC then font_bold_italic else font_italic
  else font_regular.

Section Painter.

Variables (ncols char_width char_height pxx pxy : Z).
Variable color_map : list (color * color).

(** The inner [while i < ncols] that collects a run of equal attributes. *)
Fixpoint collect (fuel : nat) (r : list cell) (attr : Z) (i draw_x : Z)
    (text_buffer : str) : option (Z * Z * str) :=
  match fuel with
  | O => None
  | S fuel' =>
      if i <? ncols then
        '(ch, attr2) ← idx r i;
        if negb (attr2 =? attr) || is_emoji ch then Some (i, draw_x, text_buffer)
        else collect fuel' r attr (i + 1) (wrap32 (draw_x + 1)) (text_buffer ++ [ch])
      else Some (i, draw_x, text_buffer)
  end.

(** The outer [while i < ncols] over one dirty row [y]. *)
Fixpoint render_row (fuel : nat) (y : Z) (r : list cell) (i draw_x : Z)
  : option (list draw_op) :=
  match fuel with
  | O => None
  | S fuel' =>
      if i <? ncols then
        '(ch, attr) ← idx r i;
        let flags := Z.land attr 0xFFFF0000 in
        if is_emoji ch then
          let px_x := wrap32 (draw_x * char_width) in
          let px_y := wrap32 (y * char_height) in
          '(fg, bg) ← idx color_map (Z.land attr 0xFFFF);
          let '(fg, bg) := if flag_set flags A_STANDOUT then (bg, fg) else (fg, bg) in
          let offset := wrap32 (px_x + Z.quot (wrap32 (2 * char_width - char_height)) 2) in
          rest ← render_row fuel' y r (i + 2) (wrap32 (draw_x + 2));
          Some (fill bg (wrap32 (px_x + pxx), wrap32 (px_y + pxy),
                         wrap32 (2 * char_width), char_height)
                :: blit_emoji ch char_height (offset + pxx, wrap32 (px_y + pxy))
                :: rest)
        else
          let span_draw_x := draw_x in
          '(i', draw_x', text_buffer) ←
            collect (S (Z.to_nat ncols)) r attr i draw_x [];
          match text_buffer with
          | [] => render_row fuel' y r (i' + 1) (wrap32 (draw_x' + 1))
          | _ =>
              let text := text_buffer in
              '(fg, bg) ← idx color_map (Z.land attr 0xFFFF);
              let '(fg, bg) := if flag_set flags A_STANDOUT then (bg, fg) else (fg, bg) in
              let px_x := wrap32 (span_draw_x * char_width) in
              let px_y := wrap32 (y * char_height) in
              let f := select_font flags in
              rest ← render_row fuel' y r i' draw_x';
              Some (fill bg (wrap32 (px_x + pxx), wrap32 (px_y + pxy),
                             len text * char_width, char_height)
                    :: render_to f (flag_set flags A_UNDERLINE)
                         (wrap32 (px_x + pxx), wrap32 (px_y + pxy)) text fg
                    :: rest)
          end
      else Some []
  end.

(** Body of [for y in dirty_lines]. *)
Definition render_line (buf : list (list cell)) (y : Z) : option (list draw_op) :=
  r ← idx buf y;
  render_row (S (Z.to_nat ncols)) y r 0 0.

(** [render]: the draw calls of one pass and the dirty set it leaves.
    Python walks the set in its internal order; [elements] fixes one
    enumeration of the same indices. *)
Definition render (buf : list (list cell)) (dirty_lines : gset Z)
  : option (list draw_op * gset Z) :=
  ops ← mapM (render_line buf) (elements dirty_lines);
  Some (concat ops, ∅).

End Painter.

(** *** The buffer between paint passes

    [painted] is a ghost copy of the buffer as it was when the last
    [render] pass completed. *)
Record screen : Type := Screen {
  cells : list (list cell);
  dirty : gset Z;
  painted : list (list cell)
}.

Section Reachable.

Variables (nlines ncols char_width char_height pxx pxy : Z).
Variable color_map : list (color * color).

Definition well_formed (buf : list (list cell)) : Prop :=
  len buf = nlines /\ Forall (fun r : list cell => len r = ncols) buf.

Inductive reachable : screen -> Prop :=
| reach_init buf :
    well_formed buf -> reachable (Screen buf ∅ buf)
| reach_insstr s y x text attr buf' dirty' :
    reachable s ->
    insstr (cells s) nlines ncols (dirty s) y x text attr = Some (buf', dirty') ->
    reachable (Screen buf' dirty' (painted s))
| reach_render s ops dirty' :
    reachable s ->
    render ncols char_width char_height pxx pxy color_map (cells s) (dirty s)
      = Some (ops, dirty') ->
    reachable (Screen (cells s) dirty' (cells s)).

End Reachable.

(** The columns at which the outer loop of [render_row] tests a cell when
    it starts at column [i]: it steps one column over a text cell and two
    columns over an emoji cell. *)
Inductive scan_reaches (r : list cell) : Z -> Z -> Prop :=
| scan_here k : scan_reaches r k k
| scan_text i k ch attr :
    idx r i = Some (ch, attr) -> is_emoji ch = false ->
    scan_reaches r (i + 1) k -> scan_reaches r i k
| scan_emoji i k ch attr :
    idx r i = Some (ch, attr) -> is_emoji ch = true ->
    scan_reaches r (i + 2) k -> scan_reaches r i k.

(** The cell at row [k], column [j] of a buffer. *)
Definition cell_at (buf : list (list cell)) (k j : Z) : option cell :=
  r ← idx buf k; idx r j.

End Pgcurses.

(** ** tui.pyx: the chat line compositor *)

Module Tui.
Import Curses.

(** Conversion of a C [int] to [unsigned int]. *)
Definition to_uint (z : Z) : Z := z mod 4294967296.

Definition safe_insch (y x ch attr : Z) : call :=
  if ch >? 127 then insstr y x [ch] attr else insch y x ch attr.

(** [l[k:]] of a Python list. *)
Definition slice_from {A : Type} (l : list A) (k : Z) : list A :=
  if k <? 0 then drop (Z.to_nat (len l + k)) l else drop (Z.to_nat k) l.

(** A style span [[color, start, end]] as the list the caller supplies. *)
Definition format_part_of (span : Z * Z * Z) : list Z :=
  let '(color, start, end_) := span in [color; start; end_].

Definition covers (span : Z * Z * Z) (pos : Z) : Prop :=
  let '(_, start, end_) := span in start <= pos < end_.

Section Compositor.

(** [curses.color_pair] *)
Variable color_pair : Z -> Z.

Variables (attrib_map : list Z) (color_default : Z).

(** The attribute a span of colour [color] gives to a character
    (lines 69-75 of [draw_chat]). *)
Definition color_ready (default_color_id color : Z) : option Z :=
  if color >=? 0x00010000 then
    Some (Z.lor (color_pair default_color_id) color)
  else
    let color := if color >? 255 then to_uint color_default else color in
    a ← idx attrib_map color;
    Some (Z.lor (color_pair color) a).

(** [for format_part in line_format[1:]: ... break / else: ...] for the
    character at [pos]: the attribute handed to [safe_insch]. *)
Fixpoint char_attr (default_color_id default_color pos : Z)
    (parts : list (list Z)) : option Z :=
  match parts with
  | [] => Some default_color
  | format_part :: parts' =>
      color ← idx format_part 0;
      start ← idx format_part 1;
      end_ ← idx format_part 2;
      if (start <=? pos) && (pos <? end_)
      then color_ready default_color_id color
      else char_attr default_color_id default_color pos parts'
  end.

(** Body of [for pos in range(min(len(line), w))]. *)
Definition draw_char (y default_color_id default_color : Z) (line : str)
    (line_format : list (list Z)) (pos : Z) : option call :=
  character ← idx line pos;
  attr ← char_attr default_color_id default_color pos (tail line_format);
  Some (safe_insch y pos character attr).

(** The [else] branch of the selected-line test: one formatted line. *)
Definition draw_line (y w : Z) (line : str) (line_format : list (list Z))
  : option (list call) :=
  first ← idx line_format 0;
  default_color_id ← idx first 0;
  a ← idx attrib_map default_color_id;
  let default_color := Z.lor (color_pair default_color_id) a in
  chars ← mapM (draw_char y default_color_id default_color line line_format)
             (range (Z.min (len line) w));
  Some (insstr y 0 (spaces w ++ [10]) (color_pair default_color_id) :: chars).

Variables (h w : Z) (chat_buffer : list str) (chat_format : list (list (list Z))).
Variables (chat_index chat_selected : Z).

(** [for num in range(len(chat_buffer) - chat_index)]; the result carries
    the value of [y] when the loop ends. *)
Fixpoint draw_lines (nums : list Z) (y : Z) : option (list call * Z) :=
  match nums with
  | [] => Some ([], y)
  | num :: nums' =>
      let line_idx := chat_index + num in
      if line_idx >=? len chat_buffer then Some ([], y)
      else
        let y := h - (num + 1) in
        if (y <? 0) || (y >=? h) then Some ([], y)
        else
          line ← idx chat_buffer line_idx;
          ops ←
            (if num =? chat_selected - chat_index then
               let fill_len := w - len line in
               Some [insstr y 0 (line ++ spaces fill_len ++ [10]) (color_pair 16)]
             else
               line_format ← idx (slice_from chat_format chat_index) num;
               draw_line y w line line_format);
          '(rest, y') ← draw_lines nums' y;
          Some (ops ++ rest, y')
  end.

Definition draw_chat : option (list call) :=
  '(ops, y) ← draw_lines (range (len chat_buffer - chat_index)) h;
  let fill := map (fun y => insstr y 0 [10] (color_pair 0)) (rev (range y)) in
  Some (ops ++ fill).

(** Lines 50-79: the calls the loop issues for the line numbered [num],
    on row [h - (num + 1)]. *)
Definition line_calls (num : Z) : option (list call) :=
  let y := h - (num + 1) in
  line ← idx chat_buffer (chat_index + num);
  if num =? chat_selected - chat_index then
    let fill_len := w - len line in
    Some [insstr y 0 (line ++ spaces fill_len ++ [10]) (color_pair 16)]
  else
    line_format ← idx (slice_from chat_format chat_index) num;
    draw_line y w line line_format.

End Compositor.

End Tui.

(** * Properties *)

(** ** Shared lemmas *)

Lemma wrap32_small z : -2147483648 <= z <= 2147483647 -> wrap32 z = z.
Proof.
  intros Hz. unfold wrap32.
  rewrite Z.mod_small by lia. lia.
Qed.

Lemma idx_nat {A : Type} (l : list A) (n : nat) : idx l (Z.of_nat n) = l !! n.
Proof.
  unfold idx. destruct (Z.ltb_spec (Z.of_nat n) 0) as [Hn | Hn]; [lia |].
  by rewrite Nat2Z.id.
Qed.

Lemma idx_Some_range {A : Type} (l : list A) i x :
  idx l i = Some x -> 0 <= i < len l.
Proof.
  unfold idx, len. destruct (Z.ltb_spec i 0) as [Hi | Hi]; [done |].
  intros Hl. apply lookup_lt_Some in Hl. lia.
Qed.

Lemma idx_is_Some {A : Type} (l : list A) i :
  0 <= i < len l -> is_Some (idx l i).
Proof.
  unfold idx, len. intros Hi.
  destruct (Z.ltb_spec i 0) as [Hn | Hn]; [lia |].
  apply lookup_lt_is_Some. lia.
Qed.

Lemma idx_app_middle {A : Type} (l1 l2 : list A) (x : A) :
  idx (l1 ++ x :: l2) (len l1) = Some x.
Proof.
  unfold len. rewrite idx_nat.
  by rewrite lookup_app_r, Nat.sub_diag.
Qed.

Lemma set_idx_is_Some {A : Type} (l : list A) i v :
  0 <= i < len l -> set_idx l i v = Some (<[Z.to_nat i := v]> l).
Proof.
  unfold set_idx, len. intros Hi.
  destruct (Z.leb_spec 0 i); [| lia].
  by destruct (Z.ltb_spec i (Z.of_nat (length l))); [| lia].
Qed.

Lemma set_idx_Some {A : Type} (l l' : list A) i v :
  set_idx l i v = Some l' -> 0 <= i < len l /\ l' = <[Z.to_nat i := v]> l.
Proof.
  unfold set_idx, len.
  destruct (Z.leb_spec 0 i); [| done].
  destruct (Z.ltb_spec i (Z.of_nat (length l))); [| done].
  simpl. intros [= <-]. split; [lia | done].
Qed.

Lemma len_set_idx {A : Type} (l l' : list A) i v :
  set_idx l i v = Some l' -> len l' = len l.
Proof.
  intros [_ ->]%set_idx_Some. unfold len. by rewrite length_insert.
Qed.

Lemma idx_set_idx {A : Type} (l l' : list A) i v k :
  set_idx l i v = Some l' ->
  idx l' k = if k =? i then Some v else idx l k.
Proof.
  intros [Hi ->]%set_idx_Some. unfold idx, len in *.
  destruct (Z.eqb_spec k i) as [-> | Hne].
  - destruct (Z.ltb_spec i 0); [lia |].
    apply list_lookup_insert_eq. lia.
  - destruct (Z.ltb_spec k 0); [done |].
    apply list_lookup_insert_ne. lia.
Qed.

(** ** The colour quantizer *)

Module ColorFacts.
Import Color.

(** The triples that [convert_role_colors] hands to [closest_color] are
    byte triples. *)
Lemma int_to_rgb_ok int_color : rgb_ok (int_to_rgb int_color).
Proof.
  unfold int_to_rgb, rgb_ok.
  assert (Hbyte : forall a, 0 <= Z.land a 255 <= 255).
  { intros a. change 255 with (Z.ones 8). rewrite Z.land_ones by lia.
    pose proof (Z.mod_pos_bound a (2 ^ 8) ltac:(lia)). change (Z.ones 8) with 255.
    change (2 ^ 8) with 256 in *. lia. }
  auto.
Qed.

Lemma dist2_nonneg p c : 0 <= dist2 p c.
Proof.
  destruct p as [[r g] b], c as [[c0 c1] c2]. simpl.
  pose proof (Z.square_nonneg (r - c0)). pose proof (Z.square_nonneg (g - c1)).
  pose proof (Z.square_nonneg (b - c2)). lia.
Qed.

Lemma dist2_zero p c : dist2 p c = 0 -> c = p.
Proof.
  destruct p as [[r g] b], c as [[c0 c1] c2]. simpl. intros Hd.
  pose proof (Z.square_nonneg (r - c0)) as Hr.
  pose proof (Z.square_nonneg (g - c1)) as Hg.
  pose proof (Z.square_nonneg (b - c2)) as Hb.
  assert (Hr0 : (r - c0) * (r - c0) = 0) by lia.
  assert (Hg0 : (g - c1) * (g - c1) = 0) by lia.
  assert (Hb0 : (b - c2) * (b - c2) = 0) by lia.
  apply Z.eq_mul_0 in Hr0, Hg0, Hb0.
  f_equal; [f_equal |]; lia.
Qed.

Lemma dist2_self p : dist2 p p = 0.
Proof. destruct p as [[r g] b]. simpl. lia. Qed.

(** On byte components the 32-bit arithmetic of the loop body does not
    wrap and computes [dist2]. *)
Lemma loop_dist_exact r g b c0 c1 c2 :
  rgb_ok (r, g, b) -> rgb_ok (c0, c1, c2) ->
  wrap32 (wrap32 (r - c0) * wrap32 (r - c0) + wrap32 (g - c1) * wrap32 (g - c1)
          + wrap32 (b - c2) * wrap32 (b - c2))
  = dist2 (r, g, b) (c0, c1, c2)
  /\ dist2 (r, g, b) (c0, c1, c2) < 2147483647.
Proof.
  simpl. intros (Hr & Hg & Hb) (H0 & H1 & H2).
  rewrite !(wrap32_small (_ - _)) by lia.
  split; [apply wrap32_small |]; nia.
Qed.

Lemma best_of_step q seen c best_dist best_idx :
  rgb_ok q -> rgb_ok c -> best_of q seen best_dist best_idx ->
  best_of q (seen ++ [c])
    (if dist2 q c <? best_dist then dist2 q c else best_dist)
    (if dist2 q c <? best_dist then len seen else best_idx).
Proof.
  intros Hq Hc (Hpos & Hnil & Hcons & Hmin & Hlow).
  assert (Hlt : dist2 q c < 2147483647).
  { destruct q as [[r g] b], c as [[c0 c1] c2].
    by apply loop_dist_exact. }
  assert (Hidx : seen <> [] -> (Z.to_nat best_idx < length seen)%nat).
  { intros Hne. destruct (Hcons Hne) as (c' & Hc' & _).
    by apply lookup_lt_Some in Hc'. }
  unfold len.
  destruct (Z.ltb_spec (dist2 q c) best_dist) as [Hd | Hd].
  - split; [| split; [| split; [| split]]].
    + lia.
    + intros Happ. by destruct seen.
    + intros _. exists c. rewrite Nat2Z.id. split; [| done].
      by rewrite lookup_app_r, Nat.sub_diag.
    + intros j cj Hj. apply lookup_app_Some in Hj as [Hj | [Hge Hj]].
      * specialize (Hmin j cj Hj). lia.
      * apply list_lookup_singleton_Some in Hj as [_ <-]. lia.
    + intros j cj Hjlt Hj. rewrite Nat2Z.id in Hjlt.
      rewrite lookup_app_l in Hj by done.
      specialize (Hmin j cj Hj). lia.
  - assert (Hne : seen <> []).
    { intros ->. destruct Hnil as [-> _]; [done | lia]. }
    specialize (Hidx Hne). split; [| split; [| split; [| split]]].
    + done.
    + intros Happ. by destruct seen.
    + intros _. destruct (Hcons Hne) as (c' & Hc' & Hbd).
      exists c'. split; [| done]. by rewrite lookup_app_l.
    + intros j cj Hj. apply lookup_app_Some in Hj as [Hj | [Hge Hj]].
      * by apply (Hmin j).
      * apply list_lookup_singleton_Some in Hj as [_ <-]. lia.
    + intros j cj Hjlt Hj.
      rewrite lookup_app_l in Hj by lia. by apply (Hlow j).
Qed.

Lemma closest_color_loop_best r g b cs :
  forall seen best_dist best_idx,
    rgb_ok (r, g, b) -> Forall rgb_ok cs ->
    best_of (r, g, b) seen best_dist best_idx ->
    best_of (r, g, b) (seen ++ cs)
      (closest_color_loop r g b cs (len seen) best_dist best_idx).1
      (closest_color_loop r g b cs (len seen) best_dist best_idx).2.
Proof.
  induction cs as [| [[c0 c1] c2] cs IH]; intros seen bd bi Hq Hcs Hbest.
  - simpl. by rewrite app_nil_r.
  - apply Forall_cons in Hcs as [Hc Hcs].
    pose proof (best_of_step _ _ _ _ _ Hq Hc Hbest) as Hstep.
    cbn [closest_color_loop].
    destruct (loop_dist_exact r g b c0 c1 c2 Hq Hc) as [-> _].
    rewrite (cons_middle (c0, c1, c2) seen cs), app_assoc.
    replace (len seen + 1) with (len (seen ++ [(c0, c1, c2)]))
      by (unfold len; rewrite length_app; simpl; lia).
    destruct (dist2 (r, g, b) (c0, c1, c2) <? bd); by apply IH.
Qed.

(** C8: on a non-empty palette of byte triples [closest_color] returns the
    lowest index among the entries at minimal squared distance, paired
    with the entry stored there; every earlier entry is strictly farther.
    When the queried triple occurs in the palette the result is the
    lowest index at which it occurs, with the triple itself (distance 0). *)
Theorem closest_color_lowest_index (colors : list rgb) (q : rgb) :
  colors <> [] -> Forall rgb_ok colors -> rgb_ok q ->
  exists (i : nat) (c : rgb),
    closest_color colors q = Some (Z.of_nat i, c) /\
    colors !! i = Some c /\
    (forall j cj, colors !! j = Some cj -> dist2 q c <= dist2 q cj) /\
    (forall j cj, (j < i)%nat -> colors !! j = Some cj -> dist2 q c < dist2 q cj) /\
    (q ∈ colors ->
     c = q /\ dist2 q c = 0 /\ forall j, (j < i)%nat -> colors !! j <> Some q).
Proof.
  intros Hne Hok Hq. destruct q as [[r g] b].
  assert (Hinit : best_of (r, g, b) [] 2147483647 0).
  { split; [done | split; [done | split; [done | split]]].
    - intros j cj Hj. by rewrite lookup_nil in Hj.
    - intros j cj _ Hj. by rewrite lookup_nil in Hj. }
  pose proof (closest_color_loop_best r g b colors [] _ _ Hq Hok Hinit) as Hbest.
  unfold len in Hbest. cbn [length app] in Hbest.
  change (Z.of_nat 0) with 0 in Hbest.
  destruct Hbest as (Hpos & _ & Hcons & Hmin & Hlow).
  destruct (Hcons Hne) as (c & Hc & Hbd).
  exists (Z.to_nat (closest_color_loop r g b colors 0 2147483647 0).2), c.
  rewrite Hbd in Hmin, Hlow.
  split; [| split; [done | split; [done | split; [done |]]]].
  - unfold closest_color. rewrite Z2Nat.id by done.
    unfold idx. destruct (Z.ltb_spec (closest_color_loop r g b colors 0 2147483647 0).2 0);
      [lia |].
    simpl. by rewrite Hc.
  - intros Hin. apply list_elem_of_lookup in Hin as [k Hk].
    pose proof (Hmin k _ Hk) as Hle. rewrite dist2_self in Hle.
    pose proof (dist2_nonneg (r, g, b) c) as Hge.
    assert (Hz : dist2 (r, g, b) c = 0) by lia.
    split; [by apply dist2_zero | split; [done |]].
    intros j Hj Hjq. specialize (Hlow j _ Hj Hjq).
    rewrite dist2_self in Hlow. lia.
Qed.

Lemma closest_color_lowest_index_witness :
  exists (i : nat) (c : rgb),
    closest_color [(255, 0, 0); (0, 0, 0); (0, 0, 0)] (0, 0, 0) = Some (Z.of_nat i, c) /\
    [(255, 0, 0); (0, 0, 0); (0, 0, 0)] !! i = Some c /\
    (forall j cj, [(255, 0, 0); (0, 0, 0); (0, 0, 0)] !! j = Some cj ->
                  dist2 (0, 0, 0) c <= dist2 (0, 0, 0) cj) /\
    (forall j cj, (j < i)%nat -> [(255, 0, 0); (0, 0, 0); (0, 0, 0)] !! j = Some cj ->
                  dist2 (0, 0, 0) c < dist2 (0, 0, 0) cj) /\
    ((0, 0, 0) ∈ [(255, 0, 0); (0, 0, 0); (0, 0, 0)] ->
     c = (0, 0, 0) /\ dist2 (0, 0, 0) c = 0 /\
     forall j, (j < i)%nat -> [(255, 0, 0); (0, 0, 0); (0, 0, 0)] !! j <> Some (0, 0, 0)).
Proof.
  apply (closest_color_lowest_index [(255, 0, 0); (0, 0, 0); (0, 0, 0)] (0, 0, 0)).
  - discriminate.
  - repeat constructor; simpl; lia.
  - simpl. lia.
Defined.

(** *** The width engine *)

Lemma binary_search_loop_total codepoint ranges :
  forall fuel low high,
    0 <= low -> low <= high + 1 -> high < len ranges ->
    high - low + 1 < Z.of_nat fuel ->
    exists b, binary_search_loop fuel codepoint ranges low high = Some b /\ 0 <= b <= 1.
Proof.
  induction fuel as [| fuel IH]; intros low high Hlow Hle Hhigh Hfuel; [lia |].
  cbn [binary_search_loop].
  destruct (Z.leb_spec low high) as [Hlh | Hlh]; [| exists 0; split; [done | lia]].
  rewrite Z.shiftr_div_pow2 by lia. change (2 ^ 1) with 2.
  assert (Hmid : low <= (low + high) / 2 <= high).
  { split; [apply Z.div_le_lower_bound | apply Z.div_le_upper_bound]; lia. }
  destruct (idx_is_Some ranges ((low + high) / 2)) as [[start end_] Hr]; [lia |].
  rewrite Hr. cbn [mbind option_bind].
  destruct (codepoint >? end_); [apply IH; lia |].
  destruct (codepoint <? start); [apply IH; lia |].
  exists 1. split; [done | lia].
Qed.

Lemma binary_search_total codepoint ranges :
  ranges <> [] ->
  exists b, binary_search codepoint ranges = Some b /\ 0 <= b <= 1.
Proof.
  intros Hne. unfold binary_search.
  assert (Hlen : 0 < len ranges) by (unfold len; destruct ranges; [done | simpl; lia]).
  destruct (idx_is_Some ranges 0) as [first Hfirst]; [lia |].
  destruct (idx_is_Some ranges (len ranges - 1)) as [last Hlast]; [lia |].
  rewrite Hfirst. cbn [mbind option_bind].
  destruct (codepoint <? first.1); [exists 0; split; [done | lia] |].
  rewrite Hlast. cbn [mbind option_bind].
  destruct (codepoint >? last.2); [exists 0; split; [done | lia] |].
  apply binary_search_loop_total; unfold len in *; lia.
Qed.

Lemma char_width_total character ranges :
  ranges <> [] ->
  exists cw, char_width character ranges = Some cw /\ 1 <= cw <= 2.
Proof.
  intros Hne. unfold char_width.
  destruct ((32 <=? character) && (character <? 127)); [exists 1; split; [done | lia] |].
  destruct (binary_search_total character ranges Hne) as (b & -> & Hb).
  exists (1 + b). split; [done | lia].
Qed.

Lemma len_wch_loop_app ranges s1 s2 :
  forall total,
    len_wch_loop ranges (s1 ++ s2) total
    = len_wch_loop ranges s1 total ≫= len_wch_loop ranges s2.
Proof.
  induction s1 as [| c s1 IH]; intros total; [done |].
  cbn [app len_wch_loop].
  destruct (char_width c ranges) as [cw |]; [| done].
  cbn [mbind option_bind]. apply IH.
Qed.

(** Within the range of a C [int] the accumulated width is between one
    and two columns per character. *)
Lemma len_wch_loop_bounds ranges s :
  ranges <> [] ->
  forall total,
    0 <= total -> total + 2 * len s <= INT_MAX ->
    exists w, len_wch_loop ranges s total = Some w
              /\ total + len s <= w <= total + 2 * len s.
Proof.
  intros Hne. unfold len, INT_MAX.
  induction s as [| c s IH]; intros total Hpos Hmax.
  - exists total. split; [done | simpl; lia].
  - cbn [len_wch_loop].
    destruct (char_width_total c ranges Hne) as (cw & -> & Hcw).
    cbn [mbind option_bind]. cbn [length] in *.
    rewrite wrap32_small by lia.
    destruct (IH (total + cw)) as (w & -> & Hw); [lia | lia |].
    exists w. split; [done | lia].
Qed.

Lemma limit_width_wch_loop_spec text max_width ranges :
  ranges <> [] -> 2 * len text <= INT_MAX ->
  forall rest done total,
    text = done ++ rest ->
    len_wch done ranges = Some total ->
    (done <> [] -> total <= max_width) ->
    exists prefix width,
      limit_width_wch_loop text max_width ranges rest (length done) total
        = Some (prefix, width) /\
      prefix `prefix_of` text /\
      len_wch prefix ranges = Some width /\
      (prefix <> [] -> width <= max_width) /\
      (prefix = text \/
       exists c cw, (prefix ++ [c]) `prefix_of` text /\
                    char_width c ranges = Some cw /\ max_width < width + cw).
Proof.
  intros Hne Hlen.
  induction rest as [| c rest IH]; intros done total Htext Hdone Hfit.
  - rewrite app_nil_r in Htext. subst done.
    exists text, total. cbn [limit_width_wch_loop]. by eauto 10.
  - cbn [limit_width_wch_loop].
    destruct (char_width_total c ranges Hne) as (cw & Hcw & Hcwr).
    rewrite Hcw. cbn [mbind option_bind].
    assert (Hdl : 2 * len done + 2 <= INT_MAX).
    { subst text. unfold len in *. rewrite length_app in Hlen. simpl in Hlen. lia. }
    destruct (len_wch_loop_bounds ranges done Hne 0) as (w & Hw & Hwr); [lia | lia |].
    unfold len_wch in Hdone. rewrite Hdone in Hw. injection Hw as <-.
    unfold INT_MAX in *.
    rewrite wrap32_small by lia. rewrite Z.gtb_ltb.
    destruct (Z.ltb_spec max_width (total + cw)) as [Hover | Hunder].
    + exists done, total. subst text. rewrite take_app_length.
      split; [done |]. split; [by apply prefix_app_r |].
      split; [done |]. split; [done |]. right. exists c, cw.
      split; [| done]. rewrite (cons_middle c done rest), app_assoc.
      by apply prefix_app_r.
    + specialize (IH (done ++ [c]) (total + cw)).
      rewrite length_app, Nat.add_1_r in IH. apply IH.
      * by rewrite <- app_assoc.
      * unfold len_wch. rewrite len_wch_loop_app, Hdone. cbn [mbind option_bind].
        cbn [len_wch_loop]. rewrite Hcw. cbn [mbind option_bind].
        by rewrite wrap32_small by lia.
      * intros _. lia.
Qed.

Lemma binary_search_loop_correct codepoint ranges :
  sorted_ranges ranges ->
  forall fuel low high,
    0 <= low -> low <= high + 1 -> high < len ranges ->
    high - low + 1 < Z.of_nat fuel ->
    exists b, binary_search_loop fuel codepoint ranges low high = Some b /\
      ((b = 1 /\ exists j x, low <= Z.of_nat j <= high /\ ranges !! j = Some x
                             /\ x.1 <= codepoint <= x.2)
       \/ (b = 0 /\ forall j x, low <= Z.of_nat j <= high -> ranges !! j = Some x ->
                               ~ (x.1 <= codepoint <= x.2))).
Proof.
  intros [Hwf Hsorted].
  induction fuel as [| fuel IH]; intros low high Hlow Hle Hhigh Hfuel; [lia |].
  cbn [binary_search_loop].
  destruct (Z.leb_spec low high) as [Hlh | Hlh].
  2: { exists 0. split; [done |]. right. split; [done |]. intros j x Hj. lia. }
  rewrite Z.shiftr_div_pow2 by lia. change (2 ^ 1) with 2.
  assert (Hmid : low <= (low + high) / 2 <= high).
  { split; [apply Z.div_le_lower_bound | apply Z.div_le_upper_bound]; lia. }
  set (mid := (low + high) / 2) in *.
  destruct (idx_is_Some ranges mid) as [[start end_] Hr]; [lia |].
  rewrite Hr. cbn [mbind option_bind].
  assert (Hmidn : ranges !! Z.to_nat mid = Some (start, end_)).
  { unfold idx in Hr. by destruct (Z.ltb_spec mid 0); [lia |]. }
  pose proof (Hwf _ _ Hmidn) as Hse. cbn [fst snd] in Hse.
  rewrite Z.gtb_ltb.
  destruct (Z.ltb_spec end_ codepoint) as [Hgt | Hngt].
  - destruct (IH (mid + 1) high) as (b & -> & Hb); [lia | lia | lia | lia |].
    exists b. split; [done |].
    destruct Hb as [[-> (j & x & Hj & Hx & Hin)] | [-> Hnone]].
    + left. split; [done |]. exists j, x. split; [lia | done].
    + right. split; [done |]. intros j x Hj Hx.
      destruct (Z.le_gt_cases (mid + 1) (Z.of_nat j)) as [Hup | Hdown].
      * apply (Hnone j x); [lia | done].
      * destruct (Z.eq_dec (Z.of_nat j) mid) as [Heq | Hne].
        { replace (Z.to_nat mid) with j in Hmidn by lia.
          rewrite Hx in Hmidn. injection Hmidn as ->. cbn [fst snd]. lia. }
        pose proof (Hsorted j (Z.to_nat mid) x (start, end_) ltac:(lia) Hx Hmidn) as Hlt.
        cbn [fst snd] in Hlt. lia.
  - destruct (Z.ltb_spec codepoint start) as [Hlt | Hnlt].
    + destruct (IH low (mid - 1)) as (b & -> & Hb); [lia | lia | lia | lia |].
      exists b. split; [done |].
      destruct Hb as [[-> (j & x & Hj & Hx & Hin)] | [-> Hnone]].
      * left. split; [done |]. exists j, x. split; [lia | done].
      * right. split; [done |]. intros j x Hj Hx.
        destruct (Z.le_gt_cases (Z.of_nat j) (mid - 1)) as [Hdown | Hup].
        { apply (Hnone j x); [lia | done]. }
        destruct (Z.eq_dec (Z.of_nat j) mid) as [Heq | Hne].
        { replace (Z.to_nat mid) with j in Hmidn by lia.
          rewrite Hx in Hmidn. injection Hmidn as ->. cbn [fst snd]. lia. }
        pose proof (Hsorted (Z.to_nat mid) j (start, end_) x ltac:(lia) Hmidn Hx) as Hlt'.
        pose proof (Hwf _ _ Hx). cbn [fst snd] in Hlt'. lia.
    + exists 1. split; [done |]. left. split; [done |].
      exists (Z.to_nat mid), (start, end_). split; [lia |]. split; [done |].
      cbn [fst snd]. lia.
Qed.

(** [binary_search] on a table in increasing order. *)
Lemma binary_search_spec (codepoint : Z) (ranges : list (Z * Z)) :
  sorted_ranges ranges -> ranges <> [] ->
  exists b, binary_search codepoint ranges = Some b /\
            (b = 0 \/ b = 1) /\ (b = 1 <-> in_ranges codepoint ranges).
Proof.
  intros Hs Hne. pose proof Hs as [Hwf Hsorted]. unfold binary_search.
  assert (Hlen : 0 < len ranges) by (unfold len; destruct ranges; [done | simpl; lia]).
  destruct (idx_is_Some ranges 0) as [first Hfirst]; [lia |].
  destruct (idx_is_Some ranges (len ranges - 1)) as [last Hlast]; [lia |].
  rewrite Hfirst. cbn [mbind option_bind].
  assert (Hf : ranges !! 0%nat = Some first) by done.
  assert (Hl : ranges !! Z.to_nat (len ranges - 1) = Some last).
  { unfold idx in Hlast. by destruct (Z.ltb_spec (len ranges - 1) 0); [lia |]. }
  assert (Hout : (forall j x, ranges !! j = Some x -> ~ (x.1 <= codepoint <= x.2)) ->
                 (0 = 0 \/ 0 = 1) /\ (0 = 1 <-> in_ranges codepoint ranges)).
  { intros Hnone. split; [by left |]. split; [done |].
    intros (x & [j Hj]%list_elem_of_lookup & Hin). by destruct (Hnone j x Hj). }
  destruct (Z.ltb_spec codepoint first.1) as [Hlow | Hnlow].
  { exists 0. split; [done |]. apply Hout. intros j x Hj Hin.
    destruct j as [| j].
    - rewrite Hf in Hj. injection Hj as ->. lia.
    - pose proof (Hsorted 0%nat (S j) first x ltac:(lia) Hf Hj).
      pose proof (Hwf _ _ Hf). lia. }
  rewrite Hlast. cbn [mbind option_bind]. rewrite Z.gtb_ltb.
  destruct (Z.ltb_spec last.2 codepoint) as [Hhigh | Hnhigh].
  { exists 0. split; [done |]. apply Hout. intros j x Hj Hin.
    pose proof (lookup_lt_Some _ _ _ Hj) as Hjl.
    destruct (decide (j = Z.to_nat (len ranges - 1))) as [-> | Hne'].
    - rewrite Hl in Hj. injection Hj as ->. lia.
    - pose proof (Hsorted j (Z.to_nat (len ranges - 1)) x last
                    ltac:(unfold len in *; lia) Hj Hl).
      pose proof (Hwf _ _ Hl). lia. }
  destruct (binary_search_loop_correct codepoint ranges Hs (S (length ranges))
              0 (len ranges - 1)) as (b & -> & Hb);
    [lia | lia | lia | unfold len; lia |].
  exists b. split; [done |].
  destruct Hb as [[-> (j & x & Hj & Hx & Hin)] | [-> Hnone]].
  - split; [by right |]. split; [| done]. intros _. exists x.
    split; [| done]. apply list_elem_of_lookup. by exists j.
  - apply Hout. intros j x Hj. apply (Hnone j x); [| done].
    pose proof (lookup_lt_Some _ _ _ Hj). unfold len. lia.
Qed.

Lemma in_table_in_ranges codepoint ranges :
  in_table codepoint ranges = true <-> in_ranges codepoint ranges.
Proof.
  unfold in_table, in_ranges. rewrite existsb_exists. split.
  - intros (x & Hx%list_elem_of_In & Hin). exists x. split; [done | lia].
  - intros (x & Hx%list_elem_of_In & Hin). exists x. split; [done | lia].
Qed.

(** On a table in increasing order the width the code gives a character
    is the width of the contract. *)
Lemma char_width_spec character ranges :
  sorted_ranges ranges -> ranges <> [] ->
  char_width character ranges = Some (spec_char_width character ranges).
Proof.
  intros Hs Hne. unfold char_width, spec_char_width.
  replace (character <=? 126) with (character <? 127) by lia.
  destruct ((32 <=? character) && (character <? 127)); [done |].
  destruct (binary_search_spec character ranges Hs Hne) as (b & -> & Hb & Hiff).
  cbn [mbind option_bind]. rewrite <- in_table_in_ranges in Hiff.
  destruct (in_table character ranges).
  - assert (b = 1) as -> by by apply Hiff. done.
  - destruct Hb as [-> | ->]; [done |]. by destruct Hiff as [Hiff _]; specialize (Hiff eq_refl).
Qed.

Lemma spec_char_width_range character ranges :
  1 <= spec_char_width character ranges <= 2.
Proof. unfold spec_char_width. repeat case_match; lia. Qed.

Lemma len_wch_loop_display_width ranges :
  sorted_ranges ranges -> ranges <> [] ->
  forall rest total,
    0 <= total -> total + 2 * len rest <= INT_MAX ->
    len_wch_loop ranges rest total = Some (total + display_width rest ranges).
Proof.
  intros Hs Hne. unfold len, INT_MAX.
  induction rest as [| c rest IH]; intros total Hpos Hmax.
  - simpl. f_equal. lia.
  - cbn [len_wch_loop display_width foldr length] in *.
    rewrite (char_width_spec c ranges Hs Hne). cbn [mbind option_bind].
    pose proof (spec_char_width_range c ranges).
    rewrite wrap32_small by lia. rewrite IH by lia.
    f_equal. unfold display_width. lia.
Qed.

(** On a table in increasing order [len_wch] computes the display width
    of the contract. *)
Lemma len_wch_display_width text ranges :
  sorted_ranges ranges -> ranges <> [] -> 2 * len text <= INT_MAX ->
  len_wch text ranges = Some (display_width text ranges).
Proof.
  intros Hs Hne Hlen. unfold len_wch.
  rewrite (len_wch_loop_display_width ranges Hs Hne) by lia. done.
Qed.

(** The result of [limit_width_wch] in the code's own widths: a prefix
    with its [len_wch], within the limit, which no longer prefix is, and
    whose next character does not fit. *)
Lemma limit_width_wch_code_widths (text : str) (max_width : Z)
    (ranges : list (Z * Z)) :
  ranges <> [] -> 2 * len text <= INT_MAX ->
  exists prefix width,
    limit_width_wch text max_width ranges = Some (prefix, width) /\
    prefix `prefix_of` text /\
    len_wch prefix ranges = Some width /\
    (0 <= max_width -> width <= max_width) /\
    (forall q wq, q `prefix_of` text -> len_wch q ranges = Some wq ->
                  wq <= max_width -> (length q <= length prefix)%nat) /\
    (forall c, (prefix ++ [c]) `prefix_of` text ->
               exists cw, char_width c ranges = Some cw /\ max_width < width + cw) /\
    (max_width <= 0 -> prefix = [] /\ width = 0).
Proof.
  intros Hne Hlen.
  destruct (limit_width_wch_loop_spec text max_width ranges Hne Hlen text [] 0)
    as (prefix & width & Hrun & Hpre & Hwidth & Hfit & Hstop); [done | done | done |].
  exists prefix, width. split; [done |]. split; [done |]. split; [done |].
  assert (Hnext : forall c, (prefix ++ [c]) `prefix_of` text ->
            exists cw, char_width c ranges = Some cw /\ max_width < width + cw).
  { intros c [rest Hc]. destruct Hstop as [-> | (c' & cw & [rest' Hc'] & Hcw & Hover)].
    - apply (f_equal length) in Hc. rewrite !length_app in Hc. simpl in Hc. lia.
    - rewrite Hc in Hc'. rewrite <- !app_assoc in Hc'.
      apply app_inv_head in Hc'. injection Hc' as -> _. by exists cw. }
  assert (Hbounds : forall q, q `prefix_of` text ->
            exists w, len_wch q ranges = Some w /\ len q <= w <= 2 * len q).
  { intros q [rest ->]. unfold len in Hlen. rewrite length_app in Hlen.
    destruct (len_wch_loop_bounds ranges q Hne 0) as (w & Hw & Hwr);
      [lia | unfold len; lia |].
    exists w. split; [done | lia]. }
  split; [| split; [| split; [done |]]].
  - intros Hmax. destruct prefix as [| c prefix]; [| by apply Hfit].
    unfold len_wch in Hwidth. simpl in Hwidth. injection Hwidth as <-. done.
  - intros q wq Hq Hwq Hle.
    destruct (Nat.le_gt_cases (length q) (length prefix)) as [| Hlonger]; [done |].
    exfalso.
    destruct Hpre as [rest Hrest]. destruct rest as [| c rest].
    { rewrite app_nil_r in Hrest. subst prefix.
      apply prefix_length in Hq. lia. }
    destruct (Hnext c) as (cw & Hcw & Hover).
    { exists rest. by rewrite <- app_assoc. }
    assert (Hpq : (prefix ++ [c]) `prefix_of` q).
    { destruct Hq as [rest' Hq].
      assert (Hq' : (prefix ++ [c]) ++ rest = q ++ rest').
      { rewrite <- app_assoc. simpl. by rewrite <- Hrest. }
      apply app_eq_inv in Hq' as [(k & Hk & _) | (k & Hk & _)].
      - pose proof (f_equal length Hk) as Hl. rewrite !length_app in Hl. simpl in Hl.
        assert (k = []) as -> by (destruct k; [done | simpl in Hl; lia]).
        rewrite app_nil_r in Hk. exists []. by rewrite app_nil_r.
      - by exists k. }
    destruct Hpq as [tl ->].
    unfold len_wch in Hwq, Hwidth.
    rewrite !len_wch_loop_app, Hwidth in Hwq. cbn [mbind option_bind] in Hwq.
    cbn [len_wch_loop] in Hwq. rewrite Hcw in Hwq. cbn [mbind option_bind] in Hwq.
    destruct (Hbounds prefix) as (w & Hw & Hwr); [by exists (c :: rest) |].
    unfold len_wch in Hw. rewrite Hwidth in Hw. injection Hw as <-.
    assert (Hcwr : 1 <= cw <= 2).
    { destruct (char_width_total c ranges Hne) as (cw' & Hcw' & Hr). congruence. }
    assert (Hqlen : 2 * len ((prefix ++ [c]) ++ tl) <= INT_MAX).
    { apply prefix_length in Hq. unfold len in *. lia. }
    unfold len, INT_MAX in *. rewrite !length_app in Hqlen. simpl in Hqlen.
    rewrite wrap32_small in Hwq by lia.
    destruct (len_wch_loop_bounds ranges tl Hne (width + cw)) as (w' & Hw' & Hwr');
      [lia | unfold len, INT_MAX; lia |].
    rewrite Hwq in Hw'. injection Hw' as <-. lia.
  - intros Hmax. destruct prefix as [| c prefix].
    + unfold len_wch in Hwidth. simpl in Hwidth. by injection Hwidth as <-.
    + exfalso. specialize (Hfit ltac:(done)).
      destruct (Hbounds (c :: prefix) Hpre) as (w & Hw & Hwr).
      rewrite Hwidth in Hw. injection Hw as <-.
      unfold len in Hwr. simpl in Hwr. lia.
Qed.

Example limit_width_wch_wide_char :
  limit_width_wch [97; 20013; 98] 2 [(4352, 4447); (19968, 40959)] = Some ([97], 1).
Proof. reflexivity. Qed.

(** C7: on a non-empty table of wide ranges in increasing order, and for
    a text whose width fits a C [int], [limit_width_wch] returns the
    longest prefix of the text whose display width, as the design defines
    it (printable ASCII 1, a code point of the table 2, any other 1),
    does not exceed [max_width], paired with that width.  The character
    after the prefix is left out whole because its width would exceed the
    limit: when it is a wide character the returned width is [max_width]
    or [max_width - 1], the last column staying unused rather than
    holding half a character.  For [max_width <= 0] the result is the
    empty prefix with width 0. *)
Theorem limit_width_wch_longest_prefix (text : str) (max_width : Z)
    (ranges : list (Z * Z)) :
  sorted_ranges ranges -> ranges <> [] -> 2 * len text <= INT_MAX ->
  exists prefix width,
    limit_width_wch text max_width ranges = Some (prefix, width) /\
    prefix `prefix_of` text /\
    width = display_width prefix ranges /\
    (0 <= max_width -> width <= max_width) /\
    (forall q, q `prefix_of` text -> display_width q ranges <= max_width ->
               (length q <= length prefix)%nat) /\
    (forall c, (prefix ++ [c]) `prefix_of` text ->
               max_width < width + spec_char_width c ranges) /\
    (forall c, (prefix ++ [c]) `prefix_of` text -> spec_char_width c ranges = 2 ->
               0 <= max_width -> max_width - 1 <= width <= max_width) /\
    (max_width <= 0 -> prefix = [] /\ width = 0).
Proof.
  intros Hs Hne Hlen.
  destruct (limit_width_wch_code_widths text max_width ranges Hne Hlen)
    as (prefix & width & Hrun & Hpre & Hwidth & Hfit & Hlong & Hnext & Hzero).
  assert (Hdw : forall q, q `prefix_of` text ->
            len_wch q ranges = Some (display_width q ranges)).
  { intros q Hq. apply len_wch_display_width; [done | done |].
    apply prefix_length in Hq. unfold len in *. lia. }
  assert (Hnext' : forall c, (prefix ++ [c]) `prefix_of` text ->
            max_width < width + spec_char_width c ranges).
  { intros c Hc. destruct (Hnext c Hc) as (cw & Hcw & Hover).
    rewrite (char_width_spec c ranges Hs Hne) in Hcw. by injection Hcw as <-. }
  exists prefix, width.
  split; [done |]. split; [done |].
  split. { rewrite (Hdw prefix Hpre) in Hwidth. by injection Hwidth. }
  split; [done |].
  split. { intros q Hq Hle. by apply (Hlong q (display_width q ranges) Hq (Hdw q Hq)). }
  split; [done |].
  split; [| done].
  intros c Hc Hwide Hmax. specialize (Hnext' c Hc). specialize (Hfit Hmax). lia.
Qed.

Lemma limit_width_wch_longest_prefix_witness :
  exists prefix width,
    limit_width_wch [97; 20013; 98] 2 [(4352, 4447); (19968, 40959)]
      = Some (prefix, width) /\
    prefix `prefix_of` [97; 20013; 98] /\
    width = display_width prefix [(4352, 4447); (19968, 40959)] /\
    (0 <= 2 -> width <= 2) /\
    (forall q, q `prefix_of` [97; 20013; 98] ->
               display_width q [(4352, 4447); (19968, 40959)] <= 2 ->
               (length q <= length prefix)%nat) /\
    (forall c, (prefix ++ [c]) `prefix_of` [97; 20013; 98] ->
               2 < width + spec_char_width c [(4352, 4447); (19968, 40959)]) /\
    (forall c, (prefix ++ [c]) `prefix_of` [97; 20013; 98] ->
               spec_char_width c [(4352, 4447); (19968, 40959)] = 2 ->
               0 <= 2 -> 2 - 1 <= width <= 2) /\
    (2 <= 0 -> prefix = [] /\ width = 0).
Proof.
  apply (limit_width_wch_longest_prefix [97; 20013; 98] 2
           [(4352, 4447); (19968, 40959)]).
  - split.
    + intros [| [| i]] x Hx; simpl in Hx; try done; injection Hx as <-; simpl; lia.
    + intros [| [| i]] [| [| j]] x y Hij Hx Hy; simpl in Hx, Hy; try done; try lia.
      injection Hx as <-. injection Hy as <-. simpl. lia.
  - easy.
  - unfold len, INT_MAX. simpl. lia.
Defined.

End ColorFacts.

(** ** The match scorer *)

Module SearchFacts.
Import Search.

Lemma split_from_spaces s :
  forallb isspace s = true -> split_from [] s = [].
Proof.
  induction s as [| c s IH]; [done |].
  cbn [forallb split_from]. intros [Hc Hs]%andb_prop.
  rewrite Hc. by apply IH.
Qed.

(** C9: a query made of whitespace only (the empty query included) splits
    into no word, and [fuzzy_match_score] then returns 0 for every
    candidate. *)
Theorem fuzzy_match_score_blank_query (lower : str -> str) (query candidate : str) :
  forallb isspace query = true ->
  split query = [] /\ fuzzy_match_score lower query candidate = Some 0.
Proof.
  intros Hblank. unfold fuzzy_match_score, split.
  by rewrite (split_from_spaces query Hblank).
Qed.

Lemma fuzzy_match_score_blank_query_witness :
  split [32; 9; 32] = [] /\ fuzzy_match_score ascii_lower [32; 9; 32] [97; 98] = Some 0.
Proof.
  apply (fuzzy_match_score_blank_query ascii_lower [32; 9; 32] [97; 98]).
  reflexivity.
Defined.

(** The fuel [len(candidate)] suffices for the scan, and the characters
    it reads exist, when [str.lower] does not shorten a string. *)
Lemma scan_loop_total ql cl qlen clen :
  qlen <= len ql -> clen <= len cl ->
  forall fuel st,
    0 <= qpos st -> 0 <= cpos st ->
    (Z.to_nat (clen - cpos st) <= fuel)%nat ->
    is_Some (scan_loop fuel ql cl qlen clen st).
Proof.
  intros Hq Hc. induction fuel as [| fuel IH]; intros [qp cp sc lm] Hqp Hcp Hfuel;
    cbn [qpos cpos] in *.
  - cbn [scan_loop qpos cpos].
    destruct (Z.ltb_spec qp qlen), (Z.ltb_spec cp clen); cbn [andb]; try done. lia.
  - cbn [scan_loop qpos cpos].
    destruct (Z.ltb_spec qp qlen), (Z.ltb_spec cp clen); cbn [andb]; try done.
    unfold scan_step. cbn [qpos cpos score last_match_pos].
    destruct (idx_is_Some ql qp) as [q ->]; [lia |].
    destruct (idx_is_Some cl cp) as [c ->]; [lia |].
    cbn [mbind option_bind].
    destruct (q =? c); cbn [mbind option_bind]; apply IH; cbn [qpos cpos]; lia.
Qed.

Lemma fuzzy_match_score_single_total (lower : str -> str) query candidate :
  len query <= len (lower query) -> len candidate <= len (lower candidate) ->
  is_Some (fuzzy_match_score_single lower query candidate).
Proof.
  intros Hq Hc. unfold fuzzy_match_score_single.
  destruct (scan_loop_total (lower query) (lower candidate) (len query) (len candidate)
              Hq Hc (length candidate) scan_init) as [st ->].
  - done.
  - done.
  - unfold len. simpl. lia.
  - cbn [mbind option_bind]. by destruct (qpos st =? len query).
Qed.

(** The loop passes over the candidate characters that differ from the
    first character of the word without changing the score. *)
Lemma scan_loop_skip ql cl qlen clen q0 qs pre rest :
  ql = q0 :: qs -> cl = pre ++ q0 :: rest -> q0 ∉ pre ->
  0 < qlen -> len pre < clen ->
  forall todo done fuel,
    pre = done ++ todo ->
    scan_loop (length todo + fuel) ql cl qlen clen (Scan 0 (len done) 0 (-1))
    = scan_loop fuel ql cl qlen clen (Scan 0 (len pre) 0 (-1)).
Proof.
  intros -> -> Hnotin Hq Hc.
  induction todo as [| c todo IH]; intros done fuel Hpre.
  - rewrite app_nil_r in Hpre. by subst done.
  - cbn [length Nat.add scan_loop qpos cpos].
    assert (Hlt : len done < len pre).
    { subst pre. unfold len. rewrite length_app. simpl. lia. }
    destruct (Z.ltb_spec 0 qlen); [| lia].
    destruct (Z.ltb_spec (len done) clen); [| lia].
    cbn [andb]. unfold scan_step. cbn [qpos cpos score last_match_pos].
    change (idx (q0 :: qs) 0) with (Some q0). cbn [mbind option_bind].
    assert (Hread : idx (pre ++ q0 :: rest) (len done) = Some c).
    { rewrite Hpre, <- app_assoc. apply idx_app_middle. }
    rewrite Hread. cbn [mbind option_bind].
    destruct (Z.eqb_spec q0 c) as [-> | Hne].
    { exfalso. apply Hnotin. rewrite Hpre. set_solver. }
    specialize (IH (done ++ [c]) fuel).
    replace (len (done ++ [c])) with (len done + 1) in IH
      by (unfold len; rewrite length_app; simpl; lia).
    apply IH. by rewrite <- app_assoc.
Qed.

(** C2 (as the code has it): the run over a candidate whose lowered form
    is [pre ++ q0 :: rest], with [q0] the first character of the lowered
    word and absent from [pre], reaches the state in which that first
    match has been scored: 10 points (consecutive) when the match is at
    candidate index 0, 1 point (gap) otherwise.  In particular
    [fuzzy_match_score "ab" "ab" = 29]. *)
Theorem first_match_scoring (lower : str -> str) (query candidate : str)
    (q0 : Z) (qs pre rest : str) (fuel : nat) :
  query <> [] ->
  lower query = q0 :: qs ->
  lower candidate = pre ++ q0 :: rest ->
  q0 ∉ pre ->
  (length pre < length candidate)%nat ->
  scan_loop (S (length pre) + fuel) (lower query) (lower candidate)
    (len query) (len candidate) scan_init
  = scan_loop fuel (lower query) (lower candidate) (len query) (len candidate)
      (Scan 1 (len pre + 1) (if decide (pre = []) then 10 else 1) (len pre))
  /\ fuzzy_match_score ascii_lower [97; 98] [97; 98] = Some 29.
Proof.
  intros Hq Hql Hcl Hnotin Hlen. split; [| reflexivity].
  assert (Hqlen : 0 < len query) by (unfold len; destruct query; [done | simpl; lia]).
  assert (Hclen : len pre < len candidate) by (unfold len; lia).
  replace (S (length pre) + fuel)%nat with (length pre + S fuel)%nat by lia.
  unfold scan_init.
  pose proof (scan_loop_skip _ _ _ _ q0 qs pre rest Hql Hcl Hnotin Hqlen Hclen
                pre [] (S fuel) eq_refl) as Hskip.
  change (len (@nil Z)) with 0 in Hskip. rewrite Hskip.
  cbn [scan_loop qpos cpos].
  destruct (Z.ltb_spec 0 (len query)); [| lia].
  destruct (Z.ltb_spec (len pre) (len candidate)); [| lia].
  cbn [andb]. unfold scan_step. cbn [qpos cpos score last_match_pos].
  rewrite Hql at 1. change (idx (q0 :: qs) 0) with (Some q0).
  cbn [mbind option_bind].
  assert (Hread : idx (lower candidate) (len pre) = Some q0).
  { rewrite Hcl. apply idx_app_middle. }
  rewrite Hread. cbn [mbind option_bind].
  rewrite Z.eqb_refl. do 2 f_equal.
  destruct pre as [| c pre]; [done |].
  rewrite decide_False by done.
  destruct (Z.eqb_spec (len (c :: pre)) (-1 + 1)) as [Hz | _]; [| done].
  unfold len in Hz. simpl in Hz. lia.
Qed.

Lemma first_match_scoring_witness :
  scan_loop (S (length [120]) + 2) (ascii_lower [65; 98]) (ascii_lower [120; 97; 98])
    (len [65; 98]) (len [120; 97; 98]) scan_init
  = scan_loop 2 (ascii_lower [65; 98]) (ascii_lower [120; 97; 98])
      (len [65; 98]) (len [120; 97; 98])
      (Scan 1 (len [120] + 1) (if decide ([120] = []) then 10 else 1) (len [120]))
  /\ fuzzy_match_score ascii_lower [97; 98] [97; 98] = Some 29.
Proof.
  apply (first_match_scoring ascii_lower [65; 98] [120; 97; 98] 97 [98] [120] [98] 2).
  - easy.
  - reflexivity.
  - reflexivity.
  - rewrite list_elem_of_In. simpl. lia.
  - simpl. lia.
Defined.

(** Counterexample to C2 as stated: the first matched character does not
    always count as a gap match.  At candidate index 0 the first step on "ab" against "ab"
    scores 10, and the total is 29, not 20. *)
Lemma fuzzy_ab_ab_not_20 :
  scan_step [97; 98] [97; 98] scan_init = Some (Scan 1 1 10 0)
  /\ fuzzy_match_score ascii_lower [97; 98] [97; 98] <> Some 20.
Proof. split; [reflexivity | discriminate]. Qed.

End SearchFacts.

(** ** The image-to-glyph renderer *)

Module MediaFacts.
Import Curses Media.

(** C3 (as the code has it): for a luminance [g] in 0..255 and the
    supplied [ascii_palette_len = n] the glyph index is [g * n // 255]; it
    lies in [0..n] and reaches [n] at [g = 255].  The lookup is therefore
    in bounds for every luminance when [n] is less than the length of the
    ramp, and the cell drawn for the pixel carries the glyph stored at that
    index; with [n] at least the length of the ramp the lookup at
    [g = 255] is out of bounds. *)
Theorem glyph_index_range (color_pair : Z -> Z) (pixels pixels_gray : list (list Z))
    (start_color_id : Z) (ascii_palette : list Z) (n row_y padding_w x y g p : Z) :
  0 <= g <= 255 -> 0 <= n -> n * 255 <= INT_MAX ->
  pixel pixels_gray x y = Some g -> pixel pixels x y = Some p ->
  glyph_index g n = g * n / 255 /\
  0 <= glyph_index g n <= n /\
  glyph_index 255 n = n /\
  (n < len ascii_palette ->
   exists ch, idx ascii_palette (g * n / 255) = Some ch /\
     img_cell color_pair pixels pixels_gray start_color_id ascii_palette n
       row_y padding_w y x
     = Some (insch row_y (x + padding_w) ch (color_pair (start_color_id + p + 16)))) /\
  (len ascii_palette <= n -> idx ascii_palette (glyph_index 255 n) = None).
Proof.
  unfold INT_MAX. intros Hg Hn Hmax Hgray Hpix.
  assert (Hidx : glyph_index g n = g * n / 255).
  { unfold glyph_index. rewrite wrap32_small; [done | nia]. }
  assert (Htop : glyph_index 255 n = n).
  { unfold glyph_index. rewrite wrap32_small by lia.
    rewrite Z.mul_comm. by apply Z.div_mul. }
  assert (Hrange : 0 <= g * n / 255 <= n).
  { split; [apply Z.div_le_lower_bound | apply Z.div_le_upper_bound]; nia. }
  split; [done |]. split; [lia |]. split; [done |]. split.
  - intros Hlen. destruct (idx_is_Some ascii_palette (g * n / 255)) as [ch Hch]; [lia |].
    exists ch. split; [done |]. unfold img_cell.
    rewrite Hgray. cbn [mbind option_bind]. rewrite Hidx, Hch.
    cbn [mbind option_bind]. by rewrite Hpix.
  - intros Hlen. rewrite Htop. unfold idx.
    destruct (Z.ltb_spec n 0); [done |].
    apply lookup_ge_None. unfold len in Hlen. lia.
Qed.

Lemma glyph_index_range_witness :
  glyph_index 128 2 = 128 * 2 / 255 /\
  0 <= glyph_index 128 2 <= 2 /\
  glyph_index 255 2 = 2 /\
  (2 < len [32; 46; 35] ->
   exists ch, idx [32; 46; 35] (128 * 2 / 255) = Some ch /\
     img_cell ncurses_color_pair [[7]] [[128]] 0 [32; 46; 35] 2 0 0 0 0
     = Some (insch 0 (0 + 0) ch (ncurses_color_pair (0 + 7 + 16)))) /\
  (len [32; 46; 35] <= 2 -> idx [32; 46; 35] (glyph_index 255 2) = None).
Proof.
  apply (glyph_index_range ncurses_color_pair [[7]] [[128]] 0 [32; 46; 35]
           2 0 0 0 0 128 7).
  - lia.
  - lia.
  - unfold INT_MAX. lia.
  - reflexivity.
  - reflexivity.
Defined.

(** A 2x1 image centred on a 4x3 screen, with a ramp of three glyphs:
    with [ascii_palette_len = 2] the white pixel takes the last glyph,
    with [ascii_palette_len = 3] its lookup leaves the ramp. *)
Example img_to_curses_small :
  img_to_curses ncurses_color_pair [[3; 4]] [[0; 255]] 100 [32; 46; 35] 2 4 3 2 1
  = Some [insstr 0 0 [32; 32; 32; 32] 25856; insstr 1 0 [32] 25856;
          insch 1 1 32 30464; insch 1 2 35 30720;
          insstr 1 3 [32] 25856; insstr 2 0 [32; 32; 32; 32] 25856;
          insstr 1 0 [32; 32; 32; 32] 25856; noutrefresh]
  /\ img_to_curses ncurses_color_pair [[3; 4]] [[0; 255]] 100 [32; 46; 35] 3 4 3 2 1
     = None.
Proof. split; reflexivity. Qed.

(** Counterexample to C3 as stated: with the ramp length itself as
    [ascii_palette_len], the index is not
    [g * L // 256] and is not below [L]: at [g = 255] on the ramp of 21
    glyphs it is 21, one past the last glyph. *)
Lemma glyph_index_not_div_256 :
  ~ (forall g L, 0 <= g <= 255 -> 0 < L ->
       glyph_index g L = g * L / 256 /\ glyph_index g L < L).
Proof.
  intros Hclaim. destruct (Hclaim 255 21) as [Heq _]; [lia | lia |].
  vm_compute in Heq. discriminate Heq.
Qed.

End MediaFacts.

(** ** The cell buffer and the pixel-surface painter *)

Module PgcursesFacts.
Import Pgcurses.

(** C4 at the italic-only style: the [elif] branch tests [A_ITALIC] a
    second time, so [font_italic] is never chosen and an italic, non-bold
    run is drawn with the bold-italic font.  The other three combinations
    select the font of their name. *)
Theorem select_font_italic_only :
  select_font A_ITALIC = font_bold_italic /\
  (forall flags, flag_set flags A_BOLD = false -> flag_set flags A_ITALIC = true ->
                 select_font flags = font_bold_italic) /\
  (forall flags, select_font flags <> font_italic) /\
  select_font (Z.lor A_BOLD A_ITALIC) = font_bold_italic /\
  select_font A_BOLD = font_bold /\
  select_font 0 = font_regular.
Proof.
  split; [reflexivity |]. split; [| split; [| by repeat split]].
  - intros flags Hb Hi. unfold select_font. by rewrite Hb, Hi.
  - intros flags. unfold select_font.
    by destruct (flag_set flags A_BOLD), (flag_set flags A_ITALIC).
Qed.

(** *** Writing into the buffer *)

Lemma split_lines_no_newline text :
  10 ∉ text -> split_lines text = [text].
Proof.
  induction text as [| c text IH]; [done |].
  intros Hnl. cbn [split_lines].
  destruct (Z.eqb_spec c 10) as [-> | _]; [exfalso; apply Hnl; by left |].
  rewrite IH; [done |]. intros Hin. apply Hnl. by right.
Qed.

Lemma split_lines_one_line text :
  10 ∉ text -> split_lines (text ++ [10]) = [text; []].
Proof.
  induction text as [| c text IH]; [done |].
  intros Hnl. cbn [app split_lines].
  destruct (Z.eqb_spec c 10) as [-> | _]; [exfalso; apply Hnl; by left |].
  rewrite IH; [done |]. intros Hin. apply Hnl. by right.
Qed.

(** [write_cells] stores the glyphs at the columns [x + j ...] and leaves
    the other cells of the row as they are. *)
Lemma write_cells_spec attr glyphs :
  forall (r : list cell) x j,
    0 <= x + j -> x + j + len glyphs <= len r ->
    exists r', write_cells r x j glyphs attr = Some r' /\
      len r' = len r /\
      forall k, idx r' k =
        if (x + j <=? k) && (k <? x + j + len glyphs)
        then g ← idx glyphs (k - (x + j)); Some (g, attr)
        else idx r k.
Proof.
  induction glyphs as [| ch glyphs IH]; intros r x j Hlo Hhi.
  - exists r. split; [done |]. split; [done |]. intros k.
    unfold len. cbn [length]. change (Z.of_nat 0) with 0.
    destruct (Z.leb_spec (x + j) k), (Z.ltb_spec k (x + j + 0)); simpl; try done; lia.
  - unfold len in Hhi. cbn [length] in Hhi.
    cbn [write_cells].
    rewrite (set_idx_is_Some r (x + j) (ch, attr)) by (unfold len; lia).
    cbn [mbind option_bind].
    pose proof (set_idx_is_Some r (x + j) (ch, attr) ltac:(unfold len; lia)) as Hset.
    destruct (IH (<[Z.to_nat (x + j) := (ch, attr)]> r) x (j + 1)) as (r' & Hw & Hlen & Hcells).
    { lia. }
    { rewrite (len_set_idx _ _ _ _ Hset). unfold len. lia. }
    exists r'. split; [done |]. split; [by rewrite Hlen, (len_set_idx _ _ _ _ Hset) |].
    intros k. rewrite Hcells, (idx_set_idx _ _ _ _ k Hset).
    unfold len. cbn [length].
    destruct (Z.leb_spec (x + (j + 1)) k), (Z.ltb_spec k (x + (j + 1) + Z.of_nat (length glyphs)));
      destruct (Z.leb_spec (x + j) k), (Z.ltb_spec k (x + j + Z.of_nat (S (length glyphs))));
      destruct (Z.eqb_spec k (x + j)); cbn [andb]; try lia; try done.
    + unfold idx. destruct (Z.ltb_spec (k - (x + (j + 1))) 0), (Z.ltb_spec (k - (x + j)) 0);
        try lia.
      replace (Z.to_nat (k - (x + j))) with (S (Z.to_nat (k - (x + (j + 1))))) by lia.
      done.
    + subst k. by rewrite Z.sub_diag.
Qed.

(** C6: writing one line of text shorter than the row, at column 0 with a
    given attribute and followed by a row separator, leaves every cell to
    the right of the text holding a space with that attribute (and the
    cells under the text holding its characters with that attribute); the
    row is marked dirty. *)
Theorem insstr_line_fills_row (buf : list (list cell)) (nlines ncols : Z)
    (dirty_lines : gset Z) (y : Z) (text : str) (attr : Z) :
  well_formed nlines ncols buf ->
  0 <= y < nlines ->
  10 ∉ text ->
  len text < ncols ->
  exists buf' dirty' r',
    insstr buf nlines ncols dirty_lines y 0 (text ++ [10]) attr = Some (buf', dirty') /\
    idx buf' y = Some r' /\
    len r' = ncols /\
    (forall j, len text <= j < ncols -> idx r' j = Some (32, attr)) /\
    (forall j ch, idx text j = Some ch -> idx r' j = Some (ch, attr)) /\
    y ∈ dirty'.
Proof.
  intros [Hlen Hrows] Hy Hnl Hshort.
  assert (Htl : 0 <= len text) by (unfold len; lia).
  assert (Hrow : forall (b : list (list cell)) k r,
             Forall (fun r : list cell => len r = ncols) b ->
             idx b k = Some r -> len r = ncols).
  { intros b k r Hb Hk. unfold idx in Hk. destruct (k <? 0); [done |].
    by apply (Forall_lookup_1 _ _ _ _ Hb Hk). }
  destruct (idx_is_Some buf y) as [r Hr]; [lia |].
  pose proof (Hrow _ _ _ Hrows Hr) as Hrlen.
  destruct (write_cells_spec attr text r 0 0) as (r1 & Hw1 & Hlen1 & Hcells1); [lia | lia |].
  destruct (write_cells_spec attr (replicate (Z.to_nat (ncols - len text)) 32) r1 0 (len text))
    as (r2 & Hw2 & Hlen2 & Hcells2).
  { lia. }
  { unfold len in *. rewrite length_replicate. lia. }
  pose proof (set_idx_is_Some buf y r2 ltac:(lia)) as Hset.
  set (buf1 := <[Z.to_nat y := r2]> buf) in *.
  assert (Hy1 : idx buf1 y = Some r2).
  { rewrite (idx_set_idx _ _ _ _ y Hset). by rewrite Z.eqb_refl. }
  assert (Hlen' : len buf1 = nlines) by by rewrite (len_set_idx _ _ _ _ Hset).
  assert (Hfirst : forall lines',
    insstr_lines buf nlines ncols dirty_lines y 0 attr 2 0 (text :: lines')
    = insstr_lines buf1 nlines ncols ({[y + 0]} ∪ dirty_lines) y 0 attr 2 (0 + 1) lines').
  { intros lines'. cbn [insstr_lines].
    destruct (Z.geb_spec (y + 0) nlines); [lia |].
    rewrite Z.add_0_r, Hr. cbn [mbind option_bind]. rewrite Z.sub_0_r.
    destruct (Z.leb_spec ncols 0); [lia |].
    destruct (Z.ltb_spec ncols (len text)); [lia |].
    replace (take (Z.to_nat (len text)) text) with text
      by (unfold len; by rewrite Nat2Z.id, firstn_all).
    rewrite Hw1. cbn [mbind option_bind].
    destruct (Z.ltb_spec 0 (2 - 1)); [| lia].
    destruct (Z.ltb_spec (len text) ncols); [| lia].
    cbn [andb]. rewrite Hw2. cbn [mbind option_bind].
    rewrite Hset. done. }
  assert (Hresult : forall j,
    idx r2 j = if (0 <=? j) && (j <? ncols)
               then if j <? len text then g ← idx text j; Some (g, attr)
                    else Some (32, attr)
               else None).
  { intros j. rewrite Hcells2, Hcells1.
    replace (len (replicate (Z.to_nat (ncols - len text)) 32)) with (ncols - len text)
      by (unfold len in *; rewrite length_replicate; lia).
    rewrite !Z.add_0_l, Z.sub_0_r.
    destruct (Z.leb_spec (len text) j), (Z.ltb_spec j (len text + (ncols - len text)));
      destruct (Z.leb_spec 0 j), (Z.ltb_spec j ncols), (Z.ltb_spec j (len text));
      cbn [andb]; try lia; try done.
    - unfold idx. destruct (Z.ltb_spec (j - len text) 0); [lia |].
      by rewrite lookup_replicate_2 by lia.
    - unfold idx. destruct (Z.ltb_spec j 0); [lia |].
      apply lookup_ge_None. unfold len in *. lia.
    - unfold idx. by destruct (Z.ltb_spec j 0); [| lia]. }
  assert (Hfinal : exists buf' dirty',
    insstr buf nlines ncols dirty_lines y 0 (text ++ [10]) attr = Some (buf', dirty')
    /\ idx buf' y = Some r2 /\ y ∈ dirty').
  { unfold insstr. rewrite (split_lines_one_line text Hnl).
    change (len [text; []]) with 2. rewrite Hfirst.
    cbn [insstr_lines]. rewrite Z.add_0_r.
    destruct (Z.geb_spec (y + (0 + 1)) nlines) as [Hlast | Hmore].
    { exists buf1, ({[y]} ∪ dirty_lines). split; [done |]. split; [done |].
      by apply elem_of_union_l, elem_of_singleton_2. }
    destruct (idx_is_Some buf1 (y + (0 + 1))) as [r3 Hr3]; [lia |].
    rewrite Hr3. cbn [mbind option_bind]. rewrite Z.sub_0_r.
    destruct (Z.leb_spec ncols 0); [lia |].
    change (len (@nil Z)) with 0.
    destruct (Z.ltb_spec ncols 0); [lia |].
    cbn [Z.to_nat take write_cells mbind option_bind].
    destruct (Z.ltb_spec (0 + 1) (2 - 1)); [lia |].
    change (take (Z.to_nat 0) (@nil Z)) with (@nil Z).
    cbn [andb write_cells mbind option_bind].
    pose proof (set_idx_is_Some buf1 (y + (0 + 1)) r3 ltac:(lia)) as Hset3.
    rewrite Hset3. cbn [mbind option_bind].
    eexists _, _. split; [done |].
    split; [| by apply elem_of_union_r, elem_of_union_l, elem_of_singleton_2].
    rewrite (idx_set_idx _ _ _ _ y Hset3).
    destruct (Z.eqb_spec y (y + (0 + 1))); [lia | done]. }
  destruct Hfinal as (buf' & dirty' & Hins & Hy' & Hdirty).
  exists buf', dirty', r2. split; [done |]. split; [done |].
  split; [lia |]. split; [| split; [| done]].
  - intros j Hj. rewrite Hresult.
    destruct (Z.leb_spec 0 j), (Z.ltb_spec j ncols), (Z.ltb_spec j (len text));
      cbn [andb]; try lia; done.
  - intros j ch Hch. pose proof (idx_Some_range _ _ _ Hch) as Hj.
    rewrite Hresult.
    destruct (Z.leb_spec 0 j), (Z.ltb_spec j ncols), (Z.ltb_spec j (len text));
      cbn [andb]; try lia. by rewrite Hch.
Qed.

Lemma insstr_line_fills_row_witness :
  exists buf' dirty' r',
    insstr [[(120, 0); (120, 0); (120, 0)]] 1 3 ∅ 0 0 ([97] ++ [10]) 5 = Some (buf', dirty') /\
    idx buf' 0 = Some r' /\
    len r' = 3 /\
    (forall j, len [97] <= j < 3 -> idx r' j = Some (32, 5)) /\
    (forall j ch, idx [97] j = Some ch -> idx r' j = Some (ch, 5)) /\
    0 ∈ dirty'.
Proof.
  apply (insstr_line_fills_row [[(120, 0); (120, 0); (120, 0)]] 1 3 ∅ 0 [97] 5).
  - split; [reflexivity | by repeat constructor].
  - lia.
  - rewrite list_elem_of_In. simpl. lia.
  - unfold len. simpl. lia.
Defined.

(** *** The dirty set *)

Lemma write_cells_len attr glyphs :
  forall (r r' : list cell) x j,
    write_cells r x j glyphs attr = Some r' -> len r' = len r.
Proof.
  induction glyphs as [| ch glyphs IH]; intros r r' x j Hw.
  - by injection Hw as <-.
  - cbn [write_cells] in Hw.
    destruct (set_idx r (x + j) (ch, attr)) as [r1 |] eqn:Hset; [| done].
    cbn [mbind option_bind] in Hw.
    rewrite (IH _ _ _ _ Hw). by apply len_set_idx in Hset.
Qed.

(** One call of the line loop of [insstr]: the dirty set only grows, the
    shape of the buffer is kept, rows outside the new dirty set keep their
    cells, and every row the loop reaches is in the new dirty set. *)
Lemma insstr_lines_frame nlines ncols y x attr len_lines lines :
  forall (buf : list (list cell)) dirty_lines i buf' dirty',
    insstr_lines buf nlines ncols dirty_lines y x attr len_lines i lines
      = Some (buf', dirty') ->
    dirty_lines ⊆ dirty' /\
    len buf' = len buf /\
    (Forall (fun r : list cell => len r = ncols) buf ->
     Forall (fun r : list cell => len r = ncols) buf') /\
    (forall k, k ∉ dirty' -> idx buf' k = idx buf k) /\
    (forall k, 0 <= k < len lines -> y + i + k < nlines -> x < ncols ->
               y + i + k ∈ dirty').
Proof.
  induction lines as [| line lines IH]; intros buf dirty_lines i buf' dirty' Hrun.
  - injection Hrun as <- <-. split; [done |]. split; [done |]. split; [done |].
    split; [done |]. unfold len. simpl. lia.
  - cbn [insstr_lines] in Hrun.
    assert (Hlen : len (line :: lines) = len lines + 1)
      by (unfold len; cbn [length]; lia).
    destruct (Z.geb_spec (y + i) nlines) as [Hout | Hin].
    { injection Hrun as <- <-. split; [done |]. split; [done |]. split; [done |].
      split; [done |]. lia. }
    destruct (idx buf (y + i)) as [row_buffer |] eqn:Hrow; [| done].
    cbn [mbind option_bind] in Hrun.
    destruct (Z.leb_spec (ncols - x) 0) as [Hnarrow | Hwide].
    { destruct (IH _ _ _ _ _ Hrun) as (Hsub & Hl & Hshape & Hkeep & Htouch).
      split; [done |]. split; [done |]. split; [done |]. split; [done |]. lia. }
    set (min_len := if ncols - x <? len line then ncols - x else len line) in *.
    destruct (write_cells row_buffer x 0 (take (Z.to_nat min_len) line) attr)
      as [r1 |] eqn:Hw1; [| done].
    cbn [mbind option_bind] in Hrun.
    destruct (if (i <? len_lines - 1) && (min_len <? ncols - x)
              then write_cells r1 x min_len
                     (replicate (Z.to_nat (ncols - x - min_len)) 32) attr
              else Some r1) as [r2 |] eqn:Hw2; [| done].
    cbn [mbind option_bind] in Hrun.
    destruct (set_idx buf (y + i) r2) as [buf1 |] eqn:Hset; [| done].
    cbn [mbind option_bind] in Hrun.
    destruct (IH _ _ _ _ _ Hrun) as (Hsub & Hl & Hshape & Hkeep & Htouch).
    assert (Hr2 : len r2 = len row_buffer).
    { apply write_cells_len in Hw1.
      destruct ((i <? len_lines - 1) && (min_len <? ncols - x)).
      - apply write_cells_len in Hw2. lia.
      - injection Hw2 as <-. done. }
    assert (Hrowin : y + i ∈ dirty').
    { apply Hsub. by apply elem_of_union_l, elem_of_singleton_2. }
    split; [| split; [| split; [| split]]].
    + intros k Hk. apply Hsub. by apply elem_of_union_r.
    + rewrite Hl. by apply len_set_idx in Hset.
    + intros Hb. apply Hshape.
      apply set_idx_Some in Hset as [_ ->]. apply Forall_insert; [done |].
      rewrite Hr2. unfold idx in Hrow. destruct (y + i <? 0); [done |].
      by apply (Forall_lookup_1 _ _ _ _ Hb Hrow).
    + intros k Hk. rewrite (Hkeep k Hk), (idx_set_idx _ _ _ _ k Hset).
      destruct (Z.eqb_spec k (y + i)) as [-> | _]; [done | done].
    + intros k Hk Hrowk Hx.
      destruct (Z.eq_dec k 0) as [-> | Hne]; [by rewrite Z.add_0_r |].
      replace (y + i + k) with (y + (i + 1) + (k - 1)) by lia.
      apply Htouch; lia.
Qed.

(** C5 (as the code has it): in every reachable state a row whose cells
    differ from what the last completed [render] pass saw is in the dirty
    set; and after any [insstr] every row the write reached, and so every
    row it changed, is in the dirty set.  (The converse inclusion does not
    hold: a write marks its rows dirty whether or not it changes a cell.) *)
Theorem dirty_covers_changes (nlines ncols char_width char_height pxx pxy : Z)
    (color_map : list (color * color)) (s : screen) :
  reachable nlines ncols char_width char_height pxx pxy color_map s ->
  (forall k, idx (cells s) k <> idx (painted s) k -> k ∈ dirty s) /\
  (forall y x text attr buf' dirty',
     insstr (cells s) nlines ncols (dirty s) y x text attr = Some (buf', dirty') ->
     (forall k, 0 <= k < len (split_lines text) -> y + k < nlines -> x < ncols ->
                y + k ∈ dirty') /\
     (forall k, idx buf' k <> idx (cells s) k -> k ∈ dirty')).
Proof.
  intros Hreach. split.
  - induction Hreach as [buf Hwf | s y x text attr buf' dirty' Hreach IH Hins
                         | s ops dirty' Hreach IH Hrender]; cbn [cells painted dirty].
    + intros k Hk. by destruct Hk.
    + intros k Hk. unfold insstr in Hins.
      apply insstr_lines_frame in Hins as (Hsub & _ & _ & Hkeep & _).
      destruct (decide (k ∈ dirty')) as [| Hout]; [done |].
      exfalso. apply Hk. rewrite (Hkeep k Hout).
      destruct (option_eq_dec (idx (cells s) k) (idx (painted s) k)) as [| Hne]; [done |].
      destruct Hout. apply Hsub. by apply IH.
    + intros k Hk. by destruct Hk.
  - intros y x text attr buf' dirty' Hins. unfold insstr in Hins.
    apply insstr_lines_frame in Hins as (_ & _ & _ & Hkeep & Htouch).
    split.
    + intros k Hk Hrow Hx. specialize (Htouch k Hk).
      rewrite Z.add_0_r in Htouch. by apply Htouch.
    + intros k Hk. destruct (decide (k ∈ dirty')) as [| Hout]; [done |].
      destruct Hk. by apply Hkeep.
Qed.

(** A one-cell screen that is written, painted, and then written again
    with the same glyph and attribute. *)
Lemma rewritten_screen_reachable :
  reachable 1 1 8 16 0 0 [((255, 255, 255), (0, 0, 0))]
    (Screen [[(97, 0)]] ({[0]} ∪ ∅) [[(97, 0)]]).
Proof.
  pose (cm := [((255, 255, 255), (0, 0, 0))] : list (color * color)).
  assert (H0 : reachable 1 1 8 16 0 0 cm (Screen [[(32, 0)]] ∅ [[(32, 0)]])).
  { apply reach_init. split; [reflexivity | by repeat constructor]. }
  assert (H1 : reachable 1 1 8 16 0 0 cm (Screen [[(97, 0)]] ({[0]} ∪ ∅) [[(32, 0)]])).
  { apply (reach_insstr _ _ _ _ _ _ _ _ 0 0 [97] 0 _ _ H0). reflexivity. }
  assert (H2 : reachable 1 1 8 16 0 0 cm (Screen [[(97, 0)]] ∅ [[(97, 0)]])).
  { apply (reach_render _ _ _ _ _ _ _ _
             [fill (0, 0, 0) (0, 0, 8, 16);
              render_to font_regular false (0, 0) [97] (255, 255, 255)] ∅ H1).
    vm_compute. reflexivity. }
  apply (reach_insstr _ _ _ _ _ _ _ _ 0 0 [97] 0 _ _ H2). reflexivity.
Qed.

Lemma dirty_covers_changes_witness :
  (forall k, idx (cells (Screen [[(97, 0)]] ({[0]} ∪ ∅) [[(97, 0)]])) k
             <> idx (painted (Screen [[(97, 0)]] ({[0]} ∪ ∅) [[(97, 0)]])) k ->
             k ∈ dirty (Screen [[(97, 0)]] ({[0]} ∪ ∅) [[(97, 0)]])) /\
  (forall y x text attr buf' dirty',
     insstr (cells (Screen [[(97, 0)]] ({[0]} ∪ ∅) [[(97, 0)]])) 1 1
       (dirty (Screen [[(97, 0)]] ({[0]} ∪ ∅) [[(97, 0)]])) y x text attr
       = Some (buf', dirty') ->
     (forall k, 0 <= k < len (split_lines text) -> y + k < 1 -> x < 1 ->
                y + k ∈ dirty') /\
     (forall k, idx buf' k <> idx (cells (Screen [[(97, 0)]] ({[0]} ∪ ∅) [[(97, 0)]])) k ->
                k ∈ dirty')).
Proof.
  apply (dirty_covers_changes 1 1 8 16 0 0 [((255, 255, 255), (0, 0, 0))]
           (Screen [[(97, 0)]] ({[0]} ∪ ∅) [[(97, 0)]])).
  apply rewritten_screen_reachable.
Defined.

(** Counterexample to C5 as stated: the dirty set is not exactly the set
    of changed rows.  After a paint
    pass, writing the glyph and attribute a cell already holds marks the
    row dirty although it equals what was painted. *)
Lemma dirty_iff_changed_fails :
  ~ (forall s,
       reachable 1 1 8 16 0 0 [((255, 255, 255), (0, 0, 0))] s ->
       forall k, k ∈ dirty s <-> idx (cells s) k <> idx (painted s) k).
Proof.
  intros Hclaim.
  destruct (Hclaim _ rewritten_screen_reachable 0) as [Hdirty _].
  apply Hdirty; [| reflexivity].
  by apply elem_of_union_l, elem_of_singleton_2.
Qed.

(** *** The scan of a dirty row *)

Lemma scan_reaches_le (r : list cell) i k : scan_reaches r i k -> i <= k.
Proof. induction 1; lia. Qed.

(** The scan started at a column at or before [m] reaches [m] whenever
    [m] is the first column or follows a text cell. *)
Lemma scan_reaches_after_text (r : list cell) m :
  m <= len r ->
  (m = 0 \/ exists ch attr, idx r (m - 1) = Some (ch, attr) /\ is_emoji ch = false) ->
  forall n i, 0 <= i <= m -> m - i <= Z.of_nat n -> scan_reaches r i m.
Proof.
  intros Hlen Hprev. induction n as [n IH] using lt_wf_ind. intros i Hi Hn.
  destruct (Z.eq_dec i m) as [-> | Hne]; [apply scan_here |].
  destruct (idx_is_Some r i) as [[ch attr] Hcell]; [lia |].
  destruct (is_emoji ch) eqn:Hem.
  - assert (i <> m - 1).
    { intros ->. destruct Hprev as [-> | (ch' & attr' & Hc & Hne')]; [lia |].
      rewrite Hcell in Hc. injection Hc as <- <-. congruence. }
    apply (scan_emoji r i m ch attr Hcell Hem).
    apply (IH (n - 2)%nat); lia.
  - apply (scan_text r i m ch attr Hcell Hem).
    apply (IH (n - 1)%nat); lia.
Qed.

Lemma mapM_pointwise {A B : Type} (f g : A -> option B) (l : list A) :
  (forall x, f x = g x) -> mapM f l = mapM g l.
Proof.
  intros Hfg. induction l as [| x l IH]; [done |].
  cbn [mapM]. by rewrite Hfg, IH.
Qed.

Section Scan.

Variables (ncols char_width char_height pxx pxy : Z).
Variable color_map : list (color * color).

(** Two rows [r] and [r'] that agree everywhere but at column [k + 1],
    where column [k] holds an emoji. *)
Variables (r r' : list cell) (k ch_k attr_k : Z).
Hypothesis agree : forall j, j <> k + 1 -> idx r' j = idx r j.
Hypothesis emoji_at_k : idx r k = Some (ch_k, attr_k).
Hypothesis is_emoji_k : is_emoji ch_k = true.

Lemma collect_ge fuel :
  forall (row : list cell) attr i draw_x text_buffer i' draw_x' text_buffer',
    collect ncols fuel row attr i draw_x text_buffer = Some (i', draw_x', text_buffer') ->
    i <= i' /\ exists more, text_buffer' = text_buffer ++ more.
Proof.
  induction fuel as [| fuel IH]; intros row attr i dx tb i' dx' tb' Hrun; [done |].
  cbn [collect] in Hrun.
  destruct (i <? ncols).
  - destruct (idx row i) as [[ch attr2] |]; [| done].
    cbn [mbind option_bind] in Hrun.
    destruct (negb (attr2 =? attr) || is_emoji ch).
    + injection Hrun as <- <- <-. split; [lia |]. exists []. by rewrite app_nil_r.
    + apply IH in Hrun as [Hle [more ->]]. split; [lia |].
      exists (ch :: more). by rewrite <- app_assoc.
  - injection Hrun as <- <- <-. split; [lia |]. exists []. by rewrite app_nil_r.
Qed.

Lemma collect_after fuel :
  forall attr i draw_x text_buffer,
    k + 1 < i ->
    collect ncols fuel r' attr i draw_x text_buffer
    = collect ncols fuel r attr i draw_x text_buffer.
Proof.
  induction fuel as [| fuel IH]; intros attr i dx tb Hi; [done |].
  cbn [collect]. rewrite agree by lia.
  destruct (i <? ncols); [| done].
  destruct (idx r i) as [[ch attr2] |]; [| done].
  cbn [mbind option_bind].
  destruct (negb (attr2 =? attr) || is_emoji ch); [done |].
  apply IH. lia.
Qed.

Lemma render_row_after fuel :
  forall y i draw_x,
    k + 1 < i ->
    render_row ncols char_width char_height pxx pxy color_map fuel y r' i draw_x
    = render_row ncols char_width char_height pxx pxy color_map fuel y r i draw_x.
Proof.
  induction fuel as [| fuel IH]; intros y i dx Hi; [done |].
  cbn [render_row]. rewrite agree by lia.
  destruct (i <? ncols); [| done].
  destruct (idx r i) as [[ch attr] |]; [| done].
  cbn [mbind option_bind].
  destruct (is_emoji ch).
  - destruct (idx color_map (Z.land attr 65535)) as [[fg bg] |]; [| done].
    cbn [mbind option_bind]. by rewrite IH by lia.
  - rewrite collect_after by done.
    destruct (collect ncols (S (Z.to_nat ncols)) r attr i dx [])
      as [[[i' dx'] tb] |] eqn:Hcollect; [| done].
    cbn [mbind option_bind].
    apply collect_ge in Hcollect as [Hle _].
    destruct tb as [| c tb]; [apply IH; lia |].
    destruct (idx color_map (Z.land attr 65535)) as [[fg bg] |]; [| done].
    cbn [mbind option_bind]. by rewrite IH by lia.
Qed.

(** While the scan is on its way to column [k] it reads the same cells in
    both rows, and the inner loop stops on a column from which the scan
    still reaches [k]. *)
Lemma collect_before fuel :
  forall attr i draw_x text_buffer,
    scan_reaches r i k ->
    collect ncols fuel r' attr i draw_x text_buffer
    = collect ncols fuel r attr i draw_x text_buffer
    /\ forall i' draw_x' text_buffer',
         collect ncols fuel r attr i draw_x text_buffer
           = Some (i', draw_x', text_buffer') ->
         scan_reaches r i' k.
Proof.
  induction fuel as [| fuel IH]; intros attr i dx tb Hreach; [done |].
  pose proof (scan_reaches_le _ _ _ Hreach) as Hle.
  cbn [collect]. rewrite agree by lia.
  destruct (i <? ncols); [| split; [done | by intros ? ? ? [= <- <- <-]]].
  destruct (idx r i) as [[ch attr2] |] eqn:Hcell; [| done].
  cbn [mbind option_bind].
  destruct (negb (attr2 =? attr) || is_emoji ch) eqn:Hbreak;
    [split; [done | by intros ? ? ? [= <- <- <-]] |].
  apply orb_false_elim in Hbreak as [_ Htext].
  apply IH. inversion Hreach as [| ? ? ch' attr' Hc' He' Hnext | ? ? ch' attr' Hc' He' Hnext]; subst.
  - rewrite emoji_at_k in Hcell. injection Hcell as <- <-. congruence.
  - done.
  - rewrite Hcell in Hc'. injection Hc' as <- <-. congruence.
Qed.

Lemma render_row_before fuel :
  forall y i draw_x,
    scan_reaches r i k ->
    render_row ncols char_width char_height pxx pxy color_map fuel y r' i draw_x
    = render_row ncols char_width char_height pxx pxy color_map fuel y r i draw_x.
Proof.
  induction fuel as [| fuel IH]; intros y i dx Hreach; [done |].
  pose proof (scan_reaches_le _ _ _ Hreach) as Hle.
  cbn [render_row]. rewrite agree by lia.
  destruct (Z.ltb_spec i ncols) as [Hin | Hout]; [| done].
  destruct (idx r i) as [[ch attr] |] eqn:Hcell; [| done].
  cbn [mbind option_bind].
  destruct (is_emoji ch) eqn:Hem.
  - destruct (idx color_map (Z.land attr 65535)) as [[fg bg] |]; [| done].
    cbn [mbind option_bind].
    assert (Hnext : render_row ncols char_width char_height pxx pxy color_map fuel y r'
                      (i + 2) (wrap32 (dx + 2))
                    = render_row ncols char_width char_height pxx pxy color_map fuel y r
                      (i + 2) (wrap32 (dx + 2))).
    { inversion Hreach as [| ? ? ch' attr' Hc' He' Hn | ? ? ch' attr' Hc' He' Hn]; subst.
      - apply render_row_after. lia.
      - rewrite Hcell in Hc'. injection Hc' as <- <-. congruence.
      - by apply IH. }
    by rewrite Hnext.
  - destruct (collect_before (S (Z.to_nat ncols)) attr i dx [] Hreach) as [-> Hstop].
    destruct (collect ncols (S (Z.to_nat ncols)) r attr i dx [])
      as [[[i' dx'] tb] |] eqn:Hcollect; [| done].
    cbn [mbind option_bind].
    specialize (Hstop _ _ _ eq_refl).
    destruct tb as [| c tb].
    + exfalso. cbn [collect] in Hcollect.
      destruct (Z.ltb_spec i ncols); [| lia].
      rewrite Hcell in Hcollect. cbn [mbind option_bind] in Hcollect.
      rewrite Z.eqb_refl, Hem in Hcollect. cbn [negb orb] in Hcollect.
      apply collect_ge in Hcollect as [_ [more Hmore]]. done.
    + destruct (idx color_map (Z.land attr 65535)) as [[fg bg] |]; [| done].
      cbn [mbind option_bind]. by rewrite IH.
Qed.

End Scan.

(** The fuel given to the two loops suffices: on a row that has its
    [ncols] cells, each with a colour pair in [color_map], the scan of the
    row completes. *)
Section ScanTotal.

Variables (ncols char_width char_height pxx pxy : Z).
Variable color_map : list (color * color).
Variable r : list cell.
Hypothesis cells_ok :
  forall j, 0 <= j < ncols ->
    exists ch attr, idx r j = Some (ch, attr)
                    /\ is_Some (idx color_map (Z.land attr 65535)).

Lemma collect_total fuel :
  forall attr i draw_x text_buffer,
    0 <= i -> (Z.to_nat (ncols - i) < fuel)%nat ->
    is_Some (collect ncols fuel r attr i draw_x text_buffer).
Proof.
  induction fuel as [| fuel IH]; intros attr i dx tb Hi Hfuel; [lia |].
  cbn [collect].
  destruct (Z.ltb_spec i ncols) as [Hin | Hout]; [| done].
  destruct (cells_ok i) as (ch & attr2 & -> & _); [lia |].
  cbn [mbind option_bind].
  destruct (negb (attr2 =? attr) || is_emoji ch); [done |].
  apply IH; lia.
Qed.

Lemma render_row_total fuel :
  forall y i draw_x,
    0 <= i -> (Z.to_nat (ncols - i) < fuel)%nat ->
    is_Some (render_row ncols char_width char_height pxx pxy color_map fuel y r i draw_x).
Proof.
  induction fuel as [| fuel IH]; intros y i dx Hi Hfuel; [lia |].
  cbn [render_row].
  destruct (Z.ltb_spec i ncols) as [Hin | Hout]; [| done].
  destruct (cells_ok i) as (ch & attr & Hcell & [[fg bg] Hpair]); [lia |].
  rewrite Hcell. cbn [mbind option_bind].
  destruct (is_emoji ch) eqn:Hem.
  - rewrite Hpair. cbn [mbind option_bind].
    destruct (IH y (i + 2) (wrap32 (dx + 2))) as [rest ->]; [lia | lia |].
    by destruct (flag_set (Z.land attr 4294901760) A_STANDOUT).
  - destruct (collect_total (S (Z.to_nat ncols)) attr i dx []) as [[[i' dx'] tb] Hc];
      [lia | lia |].
    rewrite Hc. cbn [mbind option_bind].
    assert (Hadv : i < i').
    { cbn [collect] in Hc. destruct (Z.ltb_spec i ncols); [| lia].
      rewrite Hcell in Hc. cbn [mbind option_bind] in Hc.
      rewrite Z.eqb_refl, Hem in Hc. cbn [negb orb] in Hc.
      apply collect_ge in Hc as [Hle _]. lia. }
    destruct tb as [| c tb]; [apply IH; lia |].
    rewrite Hpair. cbn [mbind option_bind].
    destruct (IH y i' dx') as [rest ->]; [lia | lia |].
    by destruct (flag_set (Z.land attr 4294901760) A_STANDOUT).
Qed.

End ScanTotal.

Lemma render_total (ncols char_width char_height pxx pxy : Z)
    (color_map : list (color * color)) (buf : list (list cell)) (dirty_lines : gset Z) :
  (forall y, y ∈ dirty_lines ->
     exists r, idx buf y = Some r /\
       forall j, 0 <= j < ncols ->
         exists ch attr, idx r j = Some (ch, attr)
                         /\ is_Some (idx color_map (Z.land attr 65535))) ->
  exists ops,
    render ncols char_width char_height pxx pxy color_map buf dirty_lines = Some (ops, ∅).
Proof.
  intros Hrows. unfold render.
  destruct (mapM (render_line ncols char_width char_height pxx pxy color_map buf)
              (elements dirty_lines)) as [ops |] eqn:Hops.
  { by exists (concat ops). }
  exfalso. apply eq_None_not_Some in Hops. apply Hops.
  apply mapM_is_Some, Forall_forall.
  intros y Hy%elem_of_elements. destruct (Hrows y Hy) as (r & Hr & Hcells).
  unfold compose, render_line. rewrite Hr. cbn [mbind option_bind].
  apply render_row_total; [done | lia | lia].
Qed.

(** C10 (as the code has it): when the scan of row [y] reaches column [k]
    and finds an emoji there, the draw operations of [render] do not
    depend on the cell at column [k + 1]: two buffers that differ only in
    that cell give the same operations.  The pass completes, and so does
    issue operations, when every dirty row has its [ncols] cells and each
    of them a colour pair in [color_map]. *)
Theorem render_skips_cell_after_emoji (ncols char_width char_height pxx pxy : Z)
    (color_map : list (color * color)) (buf buf' : list (list cell))
    (dirty_lines : gset Z) (y k ch attr : Z) (r r' : list cell) (c' : cell) :
  idx buf y = Some r ->
  idx r k = Some (ch, attr) ->
  is_emoji ch = true ->
  scan_reaches r 0 k ->
  set_idx r (k + 1) c' = Some r' ->
  set_idx buf y r' = Some buf' ->
  render ncols char_width char_height pxx pxy color_map buf' dirty_lines
  = render ncols char_width char_height pxx pxy color_map buf dirty_lines
  /\ ((forall y0, y0 ∈ dirty_lines ->
         exists r0, idx buf y0 = Some r0 /\
           forall j, 0 <= j < ncols ->
             exists ch0 attr0, idx r0 j = Some (ch0, attr0)
                               /\ is_Some (idx color_map (Z.land attr0 65535))) ->
      exists ops,
        render ncols char_width char_height pxx pxy color_map buf dirty_lines
        = Some (ops, ∅)).
Proof.
  intros Hrow Hcell Hem Hreach Hr' Hbuf'.
  split; [| apply render_total].
  assert (Hagree : forall j, j <> k + 1 -> idx r' j = idx r j).
  { intros j Hj. rewrite (idx_set_idx _ _ _ _ j Hr').
    by destruct (Z.eqb_spec j (k + 1)). }
  unfold render. f_equal. apply mapM_pointwise. intros y'.
  unfold render_line. rewrite (idx_set_idx _ _ _ _ y' Hbuf').
  destruct (Z.eqb_spec y' y) as [-> | _]; [| done].
  rewrite Hrow. cbn [mbind option_bind].
  by apply (render_row_before _ _ _ _ _ _ r r' k ch attr).
Qed.

Lemma render_skips_cell_after_emoji_witness :
  render 3 8 16 0 0 [((255, 255, 255), (0, 0, 0))]
    [[(97, 0); (128512, 0); (98, 0)]] {[0]}
  = render 3 8 16 0 0 [((255, 255, 255), (0, 0, 0))]
      [[(97, 0); (128512, 0); (120, 0)]] {[0]}
  /\ ((forall y0, y0 ∈ ({[0]} : gset Z) ->
         exists r0, idx [[(97, 0); (128512, 0); (120, 0)]] y0 = Some r0 /\
           forall j, 0 <= j < 3 ->
             exists ch0 attr0, idx r0 j = Some (ch0, attr0)
               /\ is_Some (idx [((255, 255, 255), (0, 0, 0))] (Z.land attr0 65535))) ->
      exists ops,
        render 3 8 16 0 0 [((255, 255, 255), (0, 0, 0))]
          [[(97, 0); (128512, 0); (120, 0)]] {[0]}
        = Some (ops, ∅)).
Proof.
  apply (render_skips_cell_after_emoji 3 8 16 0 0 [((255, 255, 255), (0, 0, 0))]
           [[(97, 0); (128512, 0); (120, 0)]] [[(97, 0); (128512, 0); (98, 0)]]
           {[0]} 0 1 128512 0
           [(97, 0); (128512, 0); (120, 0)] [(97, 0); (128512, 0); (98, 0)] (98, 0)).
  - reflexivity.
  - reflexivity.
  - reflexivity.
  - apply (scan_text _ 0 1 97 0); [reflexivity | reflexivity | apply scan_here].
  - reflexivity.
  - reflexivity.
Defined.

(** Counterexample to C10 as stated: an emoji cell that the scan skips
    protects nothing.  In the row
    [emoji emoji a] the scan steps from column 0 to column 2, so the cell
    after the emoji of column 1 is painted and the operations change with
    it. *)
Lemma render_reads_cell_after_skipped_emoji :
  ~ (forall (buf buf' : list (list cell)) (dirty_lines : gset Z) (y k ch attr : Z)
            (r r' : list cell) (c' : cell),
       idx buf y = Some r ->
       idx r k = Some (ch, attr) ->
       is_emoji ch = true ->
       set_idx r (k + 1) c' = Some r' ->
       set_idx buf y r' = Some buf' ->
       render 3 8 16 0 0 [((255, 255, 255), (0, 0, 0))] buf' dirty_lines
       = render 3 8 16 0 0 [((255, 255, 255), (0, 0, 0))] buf dirty_lines).
Proof.
  intros Hclaim.
  specialize (Hclaim [[(128512, 0); (128512, 0); (97, 0)]]
                [[(128512, 0); (128512, 0); (98, 0)]] {[0]} 0 1 128512 0
                [(128512, 0); (128512, 0); (97, 0)]
                [(128512, 0); (128512, 0); (98, 0)] (98, 0)
                eq_refl eq_refl eq_refl eq_refl eq_refl).
  vm_compute in Hclaim. discriminate Hclaim.
Qed.

End PgcursesFacts.

(** ** The chat line compositor *)

Module TuiFacts.
Import Curses Tui.

Lemma char_attr_skip color_pair attrib_map color_default default_color_id
    default_color pos (before : list (Z * Z * Z)) (parts : list (list Z)) :
  Forall (fun span => ~ covers span pos) before ->
  char_attr color_pair attrib_map color_default default_color_id default_color pos
    (map format_part_of before ++ parts)
  = char_attr color_pair attrib_map color_default default_color_id default_color pos
      parts.
Proof.
  induction 1 as [| [[c s] e] before Hspan _ IH]; [done |].
  cbn [map app char_attr format_part_of].
  change (idx [c; s; e] 0) with (Some c). change (idx [c; s; e] 1) with (Some s).
  change (idx [c; s; e] 2) with (Some e). cbn [mbind option_bind].
  simpl in Hspan.
  destruct (Z.leb_spec s pos), (Z.ltb_spec pos e); cbn [andb]; try done; lia.
Qed.

(** The attribute [draw_char] hands to [safe_insch]: that of the first
    span covering [pos], or the default attribute of the line. *)
Lemma draw_char_spans (color_pair : Z -> Z) (attrib_map : list Z)
    (color_default y default_color_id default_color pos character : Z)
    (line : str) (first : list Z) :
  idx line pos = Some character ->
  (forall before c s e after,
     Forall (fun span => ~ covers span pos) before ->
     s <= pos < e ->
     draw_char color_pair attrib_map color_default y default_color_id default_color
       line (first :: map format_part_of (before ++ (c, s, e) :: after)) pos
     = attr ← color_ready color_pair attrib_map color_default default_color_id c;
       Some (safe_insch y pos character attr)) /\
  (forall spans,
     Forall (fun span => ~ covers span pos) spans ->
     draw_char color_pair attrib_map color_default y default_color_id default_color
       line (first :: map format_part_of spans) pos
     = Some (safe_insch y pos character default_color)).
Proof.
  intros Hchar. split.
  - intros before c s e after Hbefore Hpos.
    unfold draw_char. rewrite Hchar. cbn [mbind option_bind tail].
    rewrite map_app, char_attr_skip by done.
    cbn [map char_attr format_part_of].
    change (idx [c; s; e] 0) with (Some c). change (idx [c; s; e] 1) with (Some s).
    change (idx [c; s; e] 2) with (Some e). cbn [mbind option_bind].
    destruct (Z.leb_spec s pos), (Z.ltb_spec pos e); cbn [andb]; try lia. done.
  - intros spans Hnone.
    unfold draw_char. rewrite Hchar. cbn [mbind option_bind tail].
    rewrite <- (app_nil_r (map format_part_of spans)), char_attr_skip by done.
    done.
Qed.

Lemma range_lookup n (i : nat) :
  (i < Z.to_nat n)%nat -> range n !! i = Some (Z.of_nat i).
Proof.
  intros Hi. unfold range. rewrite list_lookup_fmap, lookup_seq_lt by done.
  done.
Qed.

(** The calls of [draw_line]: the background fill of the row, then one
    call per column, each the result of [draw_char]. *)
Lemma draw_line_calls color_pair attrib_map color_default y w line line_format ops :
  draw_line color_pair attrib_map color_default y w line line_format = Some ops ->
  exists first default_color_id a,
    idx line_format 0 = Some first /\
    idx first 0 = Some default_color_id /\
    idx attrib_map default_color_id = Some a /\
    idx ops 0 = Some (insstr y 0 (spaces w ++ [10]) (color_pair default_color_id)) /\
    forall pos, 0 <= pos < Z.min (len line) w ->
      exists op, idx ops (1 + pos) = Some op /\
        draw_char color_pair attrib_map color_default y default_color_id
          (Z.lor (color_pair default_color_id) a) line line_format pos = Some op.
Proof.
  unfold draw_line. intros Hrun.
  destruct (idx line_format 0) as [first |] eqn:Hfirst; [| done].
  cbn [mbind option_bind] in Hrun.
  destruct (idx first 0) as [default_color_id |] eqn:Hid; [| done].
  cbn [mbind option_bind] in Hrun.
  destruct (idx attrib_map default_color_id) as [a |] eqn:Ha; [| done].
  cbn [mbind option_bind] in Hrun.
  destruct (mapM _ _) as [chars |] eqn:Hchars; [| done].
  injection Hrun as <-.
  exists first, default_color_id, a. do 4 (split; [done |]).
  intros pos Hpos. apply mapM_Some in Hchars.
  destruct (Forall2_lookup_l _ _ _ (Z.to_nat pos) pos Hchars) as (op & Hop & Hdraw).
  { rewrite range_lookup by lia. f_equal. lia. }
  exists op. split; [| done].
  unfold idx. destruct (Z.ltb_spec (1 + pos) 0); [lia |].
  replace (Z.to_nat (1 + pos)) with (S (Z.to_nat pos)) by lia. done.
Qed.

Lemma range_elem n x : x ∈ range n -> 0 <= x < n.
Proof.
  unfold range. intros (i & -> & Hi%elem_of_seq)%list_elem_of_fmap. lia.
Qed.

Lemma char_attr_total color_pair attrib_map color_default default_color_id
    default_color pos (spans : list (Z * Z * Z)) :
  Forall (fun span =>
            is_Some (color_ready color_pair attrib_map color_default
                       default_color_id span.1.1)) spans ->
  is_Some (char_attr color_pair attrib_map color_default default_color_id
             default_color pos (map format_part_of spans)).
Proof.
  induction 1 as [| [[c s] e] spans Hc _ IH]; [done |].
  cbn [map char_attr format_part_of].
  change (idx [c; s; e] 0) with (Some c). change (idx [c; s; e] 1) with (Some s).
  change (idx [c; s; e] 2) with (Some e). cbn [mbind option_bind].
  by destruct ((s <=? pos) && (pos <? e)).
Qed.

(** [draw_line] completes on a line whose format starts with a default
    colour known to [attrib_map] and whose spans have colours that
    [color_ready] can resolve. *)
Lemma draw_line_total color_pair attrib_map color_default y w line first
    default_color_id a (spans : list (Z * Z * Z)) :
  idx first 0 = Some default_color_id ->
  idx attrib_map default_color_id = Some a ->
  Forall (fun span =>
            is_Some (color_ready color_pair attrib_map color_default
                       default_color_id span.1.1)) spans ->
  is_Some (draw_line color_pair attrib_map color_default y w line
             (first :: map format_part_of spans)).
Proof.
  intros Hid Ha Hspans. unfold draw_line.
  change (idx (first :: map format_part_of spans) 0) with (Some first).
  cbn [mbind option_bind]. rewrite Hid. cbn [mbind option_bind].
  rewrite Ha. cbn [mbind option_bind].
  destruct (mapM _ _) as [chars |] eqn:Hchars; [done |].
  exfalso. apply eq_None_not_Some in Hchars. apply Hchars.
  apply mapM_is_Some, Forall_forall. intros pos Hpos%range_elem.
  unfold compose, draw_char.
  destruct (idx_is_Some line pos) as [character ->]; [lia |].
  cbn [mbind option_bind tail].
  destruct (char_attr_total color_pair attrib_map color_default default_color_id
              (Z.lor (color_pair default_color_id) a) pos spans Hspans) as [attr ->].
  done.
Qed.

(** C1 (as the code has it): in the calls [draw_chat] issues for one
    formatted line, the character at column [pos] is drawn with the
    attribute of the first span of the list, in list order, whose
    half-open interval contains [pos]; spans later in the list never
    override it.  When no span contains [pos] it is drawn with the default
    attribute of the line. *)
Theorem draw_line_first_span_wins (color_pair : Z -> Z) (attrib_map : list Z)
    (color_default y w pos : Z) (line : str) (first : list Z)
    (spans : list (Z * Z * Z)) (ops : list call) :
  draw_line color_pair attrib_map color_default y w line
    (first :: map format_part_of spans) = Some ops ->
  0 <= pos < Z.min (len line) w ->
  exists default_color_id a character,
    idx first 0 = Some default_color_id /\
    idx attrib_map default_color_id = Some a /\
    idx line pos = Some character /\
    (forall before c s e after,
       spans = before ++ (c, s, e) :: after ->
       Forall (fun span => ~ covers span pos) before ->
       s <= pos < e ->
       exists attr,
         color_ready color_pair attrib_map color_default default_color_id c = Some attr /\
         idx ops (1 + pos) = Some (safe_insch y pos character attr)) /\
    (Forall (fun span => ~ covers span pos) spans ->
     idx ops (1 + pos)
     = Some (safe_insch y pos character (Z.lor (color_pair default_color_id) a))).
Proof.
  intros Hrun Hpos.
  destruct (draw_line_calls _ _ _ _ _ _ _ _ Hrun)
    as (first' & default_color_id & a & Hfirst & Hid & Ha & _ & Hcalls).
  change (idx (first :: map format_part_of spans) 0) with (Some first) in Hfirst.
  injection Hfirst as <-.
  destruct (Hcalls pos Hpos) as (op & Hop & Hdraw).
  destruct (idx_is_Some line pos) as [character Hchar]; [lia |].
  exists default_color_id, a, character. do 3 (split; [done |]).
  destruct (draw_char_spans color_pair attrib_map color_default y default_color_id
              (Z.lor (color_pair default_color_id) a) pos character line first Hchar)
    as [Hcover Hnone].
  split.
  - intros before c s e after -> Hbefore Hin.
    rewrite (Hcover before c s e after Hbefore Hin) in Hdraw.
    destruct (color_ready color_pair attrib_map color_default default_color_id c)
      as [attr |]; [| done].
    exists attr. split; [done |]. cbn [mbind option_bind] in Hdraw. congruence.
  - intros Hspans. rewrite (Hnone spans Hspans) in Hdraw. congruence.
Qed.

Lemma draw_line_first_span_wins_witness :
  exists default_color_id a character,
    idx [0] 0 = Some default_color_id /\
    idx [0; 0; 0] default_color_id = Some a /\
    idx [104; 105] 0 = Some character /\
    (forall before c s e after,
       [(1, 0, 5); (2, 0, 5)] = before ++ (c, s, e) :: after ->
       Forall (fun span => ~ covers span 0) before ->
       s <= 0 < e ->
       exists attr,
         color_ready ncurses_color_pair [0; 0; 0] 0 default_color_id c = Some attr /\
         idx [insstr 4 0 [32; 32; 10] 0; insch 4 0 104 256; insch 4 1 105 256] (1 + 0)
         = Some (safe_insch 4 0 character attr)) /\
    (Forall (fun span => ~ covers span 0) [(1, 0, 5); (2, 0, 5)] ->
     idx [insstr 4 0 [32; 32; 10] 0; insch 4 0 104 256; insch 4 1 105 256] (1 + 0)
     = Some (safe_insch 4 0 character (Z.lor (ncurses_color_pair default_color_id) a))).
Proof.
  apply (draw_line_first_span_wins ncurses_color_pair [0; 0; 0] 0 4 2 0 [104; 105] [0]
           [(1, 0, 5); (2, 0, 5)]
           [insstr 4 0 [32; 32; 10] 0; insch 4 0 104 256; insch 4 1 105 256]).
  - reflexivity.
  - unfold len. simpl. lia.
Defined.

(** Two lines on a 3x4 window, the second one selected: the first line
    is drawn through its spans, the selected line with the fixed pair 16,
    and the row left above is blanked. *)
Example draw_chat_small :
  draw_chat ncurses_color_pair [0; 0; 0; 0] 0 3 4 [[104; 105]; [111; 107; 33]]
    [[[1]; [2; 0; 1]; [65536; 0; 2]]; [[0]]] 0 1
  = Some [insstr 2 0 [32; 32; 32; 32; 10] 256; insch 2 0 104 512;
          insch 2 1 105 65792; insstr 1 0 [111; 107; 33; 32; 10] 4096;
          insstr 0 0 [10] 0].
Proof. reflexivity. Qed.

(** Counterexample to C1 as stated: later entries do not take
    precedence.  With the spans [(1, 0, 5)] and [(2, 0, 5)], in this
    order, the character at column 0 is drawn with the attribute of
    colour 1, not with that of the last covering span. *)
Lemma last_span_does_not_win :
  ~ (forall spans ops pos before c s e after character,
       draw_line ncurses_color_pair [0; 0; 0] 0 4 2 [104; 105]
         ([0] :: map format_part_of spans) = Some ops ->
       idx [104; 105] pos = Some character ->
       spans = before ++ (c, s, e) :: after ->
       s <= pos < e ->
       Forall (fun span => ~ covers span pos) after ->
       exists attr,
         color_ready ncurses_color_pair [0; 0; 0] 0 0 c = Some attr /\
         idx ops (1 + pos) = Some (safe_insch 4 pos character attr)).
Proof.
  intros Hclaim.
  destruct (Hclaim [(1, 0, 5); (2, 0, 5)]
              [insstr 4 0 [32; 32; 10] 0; insch 4 0 104 256; insch 4 1 105 256]
              0 [(1, 0, 5)] 2 0 5 [] 104 eq_refl eq_refl eq_refl
              ltac:(lia) ltac:(constructor))
    as (attr & Hattr & Hop).
  vm_compute in Hattr. injection Hattr as <-.
  vm_compute in Hop. discriminate Hop.
Qed.

End TuiFacts.

(** * Further properties of the code *)

Lemma len_nonneg {A : Type} (l : list A) : 0 <= len l.
Proof. unfold len. lia. Qed.

Lemma len_app {A : Type} (l k : list A) : len (l ++ k) = len l + len k.
Proof. unfold len. rewrite length_app. lia. Qed.

Lemma len_cons {A : Type} (x : A) (l : list A) : len (x :: l) = len l + 1.
Proof. unfold len. cbn [length]. lia. Qed.

(** ** color.pyx *)

Lemma idx_take {A : Type} (l : list A) (n : nat) i :
  i < Z.of_nat n -> idx (take n l) i = idx l i.
Proof.
  intros Hi. unfold idx. destruct (Z.ltb_spec i 0); [done |].
  apply lookup_take_lt. lia.
Qed.

Module ColorMore.
Import Color ColorFacts.

(** The index the loop leaves is the initial one or the index of an entry
    it has walked over. *)
Lemma closest_color_loop_index r g b cs :
  forall i best_dist best_idx,
    (closest_color_loop r g b cs i best_dist best_idx).2 = best_idx
    \/ i <= (closest_color_loop r g b cs i best_dist best_idx).2 < i + len cs.
Proof.
  induction cs as [| [[c0 c1] c2] cs IH]; intros i bd bi; [by left |].
  cbn [closest_color_loop]. unfold len. cbn [length].
  destruct (_ <? bd).
  - destruct (IH (i + 1) (wrap32
        (wrap32 (r - c0) * wrap32 (r - c0) + wrap32 (g - c1) * wrap32 (g - c1)
         + wrap32 (b - c2) * wrap32 (b - c2))) i) as [-> | Hin];
      unfold len in *; right; lia.
  - destruct (IH (i + 1) bd bi) as [-> | Hin]; [by left |].
    unfold len in *. right. lia.
Qed.

Lemma closest_color_in_bounds (colors : list rgb) (q : rgb) :
  colors <> [] ->
  exists i c, closest_color colors q = Some (i, c)
              /\ 0 <= i < len colors /\ idx colors i = Some c.
Proof.
  destruct q as [[r g] b]. intros Hne.
  assert (Hlen : 0 < len colors) by (unfold len; destruct colors; [done | simpl; lia]).
  unfold closest_color.
  assert (Hin : 0 <= (closest_color_loop r g b colors 0 2147483647 0).2 < len colors).
  { destruct (closest_color_loop_index r g b colors 0 2147483647 0) as [-> | Hin]; lia. }
  destruct (idx_is_Some colors _ Hin) as [c Hc].
  exists (closest_color_loop r g b colors 0 2147483647 0).2, c.
  change (snd ?x) with (x.2). rewrite Hc. done.
Qed.

(** X1: [closest_color] never reads outside the palette when the palette
    is not empty, whatever the components are (wrapped distances
    included): it returns an index of the palette with the entry stored
    there.  On the empty palette the final [colors[best_idx]] is an
    unchecked read of [colors[0]] and there is no result. *)
Theorem closest_color_index_in_palette (colors : list rgb) (q : rgb) :
  closest_color [] q = None /\
  (colors <> [] ->
   exists i c, closest_color colors q = Some (i, c)
               /\ 0 <= i < len colors /\ idx colors i = Some c).
Proof.
  split; [by destruct q as [[r g] b] | apply closest_color_in_bounds].
Qed.

Lemma closest_color_index_in_palette_witness :
  exists i c,
    closest_color [(0, 0, 0); (255, 255, 255); (255, 0, 0)] (250, 10, 10) = Some (i, c)
    /\ 0 <= i < len [(0, 0, 0); (255, 255, 255); (255, 0, 0)]
    /\ idx [(0, 0, 0); (255, 255, 255); (255, 0, 0)] i = Some c.
Proof.
  apply (proj2 (closest_color_index_in_palette
                  [(0, 0, 0); (255, 255, 255); (255, 0, 0)] (250, 10, 10))).
  easy.
Defined.

(** X2: [int_to_rgb] unpacks a 24-bit colour into its three bytes, red in
    the high byte: packing the result gives the colour back, unpacking a
    packed byte triple gives the triple back, and bits above the 24th are
    ignored. *)
Theorem int_to_rgb_round_trip (int_color r g b : Z) :
  (0 <= int_color < 16777216 ->
   (int_to_rgb int_color).1.1 * 65536 + (int_to_rgb int_color).1.2 * 256
   + (int_to_rgb int_color).2 = int_color) /\
  (0 <= r <= 255 -> 0 <= g <= 255 -> 0 <= b <= 255 ->
   int_to_rgb (r * 65536 + g * 256 + b) = (r, g, b)) /\
  int_to_rgb int_color = int_to_rgb (int_color mod 16777216).
Proof.
  assert (Hland : forall a, Z.land a 255 = a mod 256).
  { intros a. change 255 with (Z.ones 8). by rewrite Z.land_ones by lia. }
  assert (Hs16 : forall a, Z.shiftr a 16 = a / 65536).
  { intros a. by rewrite Z.shiftr_div_pow2 by lia. }
  assert (Hs8 : forall a, Z.shiftr a 8 = a / 256).
  { intros a. by rewrite Z.shiftr_div_pow2 by lia. }
  unfold int_to_rgb. rewrite !Hland, !Hs16, !Hs8. cbn [fst snd].
  split; [| split].
  - intros Hc. Z.div_mod_to_equations. lia.
  - intros Hr Hg Hb. f_equal; [f_equal |]; Z.div_mod_to_equations; lia.
  - f_equal; [f_equal |]; Z.div_mod_to_equations; lia.
Qed.

Lemma int_to_rgb_round_trip_witness :
  (0 <= 16744448 < 16777216 ->
   (int_to_rgb 16744448).1.1 * 65536 + (int_to_rgb 16744448).1.2 * 256
   + (int_to_rgb 16744448).2 = 16744448) /\
  (0 <= 255 <= 255 -> 0 <= 128 <= 255 -> 0 <= 0 <= 255 ->
   int_to_rgb (255 * 65536 + 128 * 256 + 0) = (255, 128, 0)) /\
  int_to_rgb 16744448 = int_to_rgb (16744448 mod 16777216).
Proof. apply (int_to_rgb_round_trip 16744448 255 128 0). Defined.

(** *** The width engine *)

(** X3: on a non-empty table of inclusive ranges in increasing order,
    [binary_search] returns 1 exactly when the code point lies in one of
    the ranges, and 0 otherwise. *)
Theorem binary_search_finds_range (codepoint : Z) (ranges : list (Z * Z)) :
  sorted_ranges ranges -> ranges <> [] ->
  exists b, binary_search codepoint ranges = Some b /\
            (b = 0 \/ b = 1) /\ (b = 1 <-> in_ranges codepoint ranges).
Proof. apply binary_search_spec. Qed.

Lemma binary_search_finds_range_witness :
  exists b, binary_search 20013 [(4352, 4447); (19968, 40959)] = Some b /\
            (b = 0 \/ b = 1) /\
            (b = 1 <-> in_ranges 20013 [(4352, 4447); (19968, 40959)]).
Proof.
  apply (binary_search_finds_range 20013 [(4352, 4447); (19968, 40959)]).
  - split.
    + intros [| [| i]] x Hx; simpl in Hx; try done; injection Hx as <-; simpl; lia.
    + intros [| [| i]] [| [| j]] x y Hij Hx Hy; simpl in Hx, Hy; try done; try lia.
      injection Hx as <-. injection Hy as <-. simpl. lia.
  - easy.
Defined.

Lemma len_wch_loop_printable ranges s :
  Forall (fun c => printable c = true) s ->
  forall total, 0 <= total -> total + len s <= INT_MAX ->
    len_wch_loop ranges s total = Some (total + len s).
Proof.
  unfold len, INT_MAX. induction 1 as [| c s Hc _ IH]; intros total Hpos Hmax.
  - simpl. f_equal. lia.
  - cbn [len_wch_loop length] in *. unfold char_width.
    unfold printable in Hc. rewrite Hc. cbn [mbind option_bind].
    rewrite wrap32_small by lia. rewrite IH by lia. f_equal. lia.
Qed.

Lemma limit_width_wch_loop_printable text max_width ranges rest :
  Forall (fun c => printable c = true) rest ->
  forall i total,
    0 <= total -> total + len rest <= max_width -> total + len rest <= INT_MAX ->
    limit_width_wch_loop text max_width ranges rest i total
    = Some (text, total + len rest).
Proof.
  unfold len, INT_MAX. induction 1 as [| c rest Hc _ IH]; intros i total Hpos Hfit Hmax.
  - simpl. do 2 f_equal. lia.
  - cbn [limit_width_wch_loop length] in *. unfold char_width.
    unfold printable in Hc. rewrite Hc. cbn [mbind option_bind].
    rewrite wrap32_small by lia. rewrite Z.gtb_ltb.
    destruct (Z.ltb_spec max_width (total + 1)); [lia |].
    rewrite IH by lia. do 2 f_equal. lia.
Qed.

(** X4: a string of printable ASCII characters (0x20..0x7E) has display
    width equal to its length, whatever the table of wide ranges is (even
    empty: the table is not consulted), and truncating it to a width not
    below its length returns the string itself with that width. *)
Theorem printable_text_width (text : str) (ranges : list (Z * Z)) :
  Forall (fun c => printable c = true) text ->
  len text <= INT_MAX ->
  len_wch text ranges = Some (len text) /\
  (forall max_width, len text <= max_width ->
     limit_width_wch text max_width ranges = Some (text, len text)).
Proof.
  intros Hp Hmax. split.
  - unfold len_wch. by rewrite (len_wch_loop_printable ranges text Hp 0) by lia.
  - intros w Hw. unfold limit_width_wch.
    by rewrite (limit_width_wch_loop_printable text w ranges text Hp 0%nat 0) by lia.
Qed.

Lemma printable_text_width_witness :
  len_wch [104; 105; 33] [] = Some (len [104; 105; 33]) /\
  (forall max_width, len [104; 105; 33] <= max_width ->
     limit_width_wch [104; 105; 33] max_width [] = Some ([104; 105; 33], len [104; 105; 33])).
Proof.
  apply (printable_text_width [104; 105; 33] []).
  - by repeat constructor.
  - unfold len, INT_MAX. simpl. lia.
Defined.

Lemma len_wch_loop_wide ranges s :
  Forall (fun c => char_width c ranges = Some 2) s ->
  forall total, 0 <= total -> total + 2 * len s <= INT_MAX ->
    len_wch_loop ranges s total = Some (total + 2 * len s).
Proof.
  unfold len, INT_MAX. induction 1 as [| c s Hc _ IH]; intros total Hpos Hmax.
  - simpl. f_equal. lia.
  - cbn [len_wch_loop length] in *. rewrite Hc. cbn [mbind option_bind].
    rewrite wrap32_small by lia. rewrite IH by lia. f_equal. lia.
Qed.

Lemma limit_width_wch_loop_wide text max_width ranges :
  0 <= max_width -> 2 * len text <= INT_MAX ->
  forall rest done,
    text = done ++ rest ->
    Forall (fun c => char_width c ranges = Some 2) rest ->
    2 * len done <= max_width ->
    limit_width_wch_loop text max_width ranges rest (length done) (2 * len done)
    = Some (take (Z.to_nat (max_width / 2)) text,
            2 * Z.min (len text) (max_width / 2)).
Proof.
  intros Hw Hmax. induction rest as [| c rest IH]; intros done Htext Hwide Hfit.
  - rewrite app_nil_r in Htext. subst done. cbn [limit_width_wch_loop].
    assert (len text <= max_width / 2) by (apply Z.div_le_lower_bound; lia).
    rewrite take_ge by (unfold len in *; lia).
    do 2 f_equal. lia.
  - apply Forall_cons in Hwide as [Hc Hwide].
    cbn [limit_width_wch_loop]. rewrite Hc. cbn [mbind option_bind].
    assert (Hlen : len text = len done + 1 + len rest).
    { subst text. unfold len. rewrite length_app. cbn [length]. lia. }
    assert (Hnn : 0 <= len done /\ 0 <= len rest) by (unfold len; lia).
    unfold INT_MAX in *. rewrite wrap32_small by lia. rewrite Z.gtb_ltb.
    destruct (Z.ltb_spec max_width (2 * len done + 2)) as [Hover | Hunder].
    + assert (Hhalf : max_width / 2 = len done).
      { symmetry. apply Z.div_unique with (max_width - 2 * len done); lia. }
      rewrite Hhalf. unfold len at 2. rewrite Nat2Z.id.
      do 2 f_equal. lia.
    + specialize (IH (done ++ [c])).
      rewrite length_app, Nat.add_1_r in IH.
      replace (2 * len (done ++ [c])) with (2 * len done + 2) in IH
        by (unfold len; rewrite length_app; simpl; lia).
      apply IH; [by rewrite <- app_assoc | done | lia].
Qed.

(** X5: a string made of characters the engine classifies as wide has
    display width twice its length, and truncating it to a width
    [max_width >= 0] returns its first [max_width // 2] characters (all of
    it when it is shorter) with twice their number as width: a wide
    character is never cut in half and an odd column is left unused. *)
Theorem wide_text_width (text : str) (ranges : list (Z * Z)) :
  Forall (fun c => char_width c ranges = Some 2) text ->
  2 * len text <= INT_MAX ->
  len_wch text ranges = Some (2 * len text) /\
  (forall max_width, 0 <= max_width ->
     limit_width_wch text max_width ranges
     = Some (take (Z.to_nat (max_width / 2)) text,
             2 * Z.min (len text) (max_width / 2))).
Proof.
  intros Hwide Hmax. split.
  - unfold len_wch. by rewrite (len_wch_loop_wide ranges text Hwide 0) by lia.
  - intros w Hw. unfold limit_width_wch.
    by apply (limit_width_wch_loop_wide text w ranges Hw Hmax text []).
Qed.

Lemma wide_text_width_witness :
  len_wch [20013; 25991; 23383] [(4352, 4447); (19968, 40959)]
    = Some (2 * len [20013; 25991; 23383]) /\
  (forall max_width, 0 <= max_width ->
     limit_width_wch [20013; 25991; 23383] max_width [(4352, 4447); (19968, 40959)]
     = Some (take (Z.to_nat (max_width / 2)) [20013; 25991; 23383],
             2 * Z.min (len [20013; 25991; 23383]) (max_width / 2))).
Proof.
  apply (wide_text_width [20013; 25991; 23383] [(4352, 4447); (19968, 40959)]).
  - by repeat constructor.
  - unfold len, INT_MAX. simpl. lia.
Defined.

(** Adding to the starting width adds to the result, while the sums stay
    in the range of a C [int]. *)
Lemma len_wch_loop_shift ranges s :
  ranges <> [] ->
  forall total d w,
    0 <= total -> 0 <= d -> total + d + 2 * len s <= INT_MAX ->
    len_wch_loop ranges s total = Some w ->
    len_wch_loop ranges s (total + d) = Some (w + d).
Proof.
  intros Hne. unfold len, INT_MAX.
  induction s as [| c s IH]; intros total d w Hpos Hd Hmax Hrun.
  - simpl in *. injection Hrun as <-. done.
  - cbn [len_wch_loop length] in *.
    destruct (char_width_total c ranges Hne) as (cw & Hcw & Hcwr).
    rewrite Hcw in *. cbn [mbind option_bind] in *.
    rewrite wrap32_small in Hrun by lia. rewrite wrap32_small by lia.
    replace (total + d + cw) with (total + cw + d) by lia.
    apply IH; [lia | lia | lia | done].
Qed.

(** A text whose width fits is returned whole. *)
Lemma limit_width_wch_fits text max_width ranges width :
  ranges <> [] -> 2 * len text <= INT_MAX ->
  len_wch text ranges = Some width -> width <= max_width ->
  limit_width_wch text max_width ranges = Some (text, width).
Proof.
  intros Hne Hmax Hwidth Hfit.
  destruct (limit_width_wch_loop_spec text max_width ranges Hne Hmax text [] 0)
    as (prefix & w & Hrun & Hpre & Hw & _ & Hstop); [done | done | done |].
  change (length (@nil Z)) with 0%nat in Hrun.
  unfold limit_width_wch. rewrite Hrun.
  destruct Hstop as [-> | (c & cw & [tl Htl] & Hcw & Hover)]; [congruence |].
  exfalso. unfold len_wch in Hwidth, Hw.
  rewrite Htl, !len_wch_loop_app, Hw in Hwidth. cbn [mbind option_bind] in Hwidth.
  cbn [len_wch_loop] in Hwidth. rewrite Hcw in Hwidth. cbn [mbind option_bind] in Hwidth.
  assert (Hcwr : 1 <= cw <= 2).
  { destruct (char_width_total c ranges Hne) as (cw' & Hcw' & Hr). congruence. }
  assert (Hlen : len text = len prefix + 1 + len tl).
  { rewrite Htl. unfold len. rewrite !length_app. simpl. lia. }
  pose proof (len_nonneg prefix). pose proof (len_nonneg tl).
  destruct (len_wch_loop_bounds ranges prefix Hne 0) as (w0 & Hw0 & Hw0r);
    [lia | unfold INT_MAX in *; lia |].
  rewrite Hw in Hw0. injection Hw0 as <-.
  unfold INT_MAX in *. rewrite wrap32_small in Hwidth by lia.
  destruct (len_wch_loop_bounds ranges tl Hne (w + cw)) as (w1 & Hw1 & Hw1r);
    [lia | unfold INT_MAX; lia |].
  rewrite Hwidth in Hw1. injection Hw1 as <-. lia.
Qed.

(** X6: truncation leaves a non-empty text whole exactly when its display
    width fits: [limit_width_wch] returns the text itself, with a width
    [W], if and only if [len_wch] of the text is [W] and [W <= max_width]. *)
Theorem limit_width_wch_whole_iff_fits (text : str) (max_width width : Z)
    (ranges : list (Z * Z)) :
  ranges <> [] -> 2 * len text <= INT_MAX -> text <> [] ->
  (limit_width_wch text max_width ranges = Some (text, width)
   <-> len_wch text ranges = Some width /\ width <= max_width).
Proof.
  intros Hne Hmax Htext. split.
  - intros Hrun.
    destruct (limit_width_wch_loop_spec text max_width ranges Hne Hmax text [] 0)
      as (prefix & w & Hrun' & _ & Hw & Hfit & _); [done | done | done |].
    change (length (@nil Z)) with 0%nat in Hrun'.
    unfold limit_width_wch in Hrun. rewrite Hrun in Hrun'.
    injection Hrun' as <- <-. split; [done | by apply Hfit].
  - intros [Hwidth Hfit]. by apply limit_width_wch_fits.
Qed.

Lemma limit_width_wch_whole_iff_fits_witness :
  limit_width_wch [97; 20013] 3 [(4352, 4447); (19968, 40959)] = Some ([97; 20013], 3)
  <-> len_wch [97; 20013] [(4352, 4447); (19968, 40959)] = Some 3 /\ 3 <= 3.
Proof.
  apply (limit_width_wch_whole_iff_fits [97; 20013] 3 3 [(4352, 4447); (19968, 40959)]).
  - easy.
  - unfold len, INT_MAX. simpl. lia.
  - easy.
Defined.

(** X7: truncation is idempotent: truncating the returned prefix again to
    the same width returns that prefix and its width unchanged. *)
Theorem limit_width_wch_idempotent (text prefix : str) (max_width width : Z)
    (ranges : list (Z * Z)) :
  ranges <> [] -> 2 * len text <= INT_MAX ->
  limit_width_wch text max_width ranges = Some (prefix, width) ->
  limit_width_wch prefix max_width ranges = Some (prefix, width).
Proof.
  intros Hne Hmax Hrun.
  destruct (limit_width_wch_loop_spec text max_width ranges Hne Hmax text [] 0)
    as (p & w & Hrun' & Hpre & Hw & Hfit & _); [done | done | done |].
  change (length (@nil Z)) with 0%nat in Hrun'.
  unfold limit_width_wch in Hrun. rewrite Hrun in Hrun'. injection Hrun' as <- <-.
  destruct prefix as [| c prefix].
  - unfold len_wch in Hw. simpl in Hw. injection Hw as <-. done.
  - apply limit_width_wch_fits; [done | | done | by apply Hfit].
    apply prefix_length in Hpre. unfold len in *. lia.
Qed.

Lemma limit_width_wch_idempotent_witness :
  limit_width_wch [97] 2 [(4352, 4447); (19968, 40959)] = Some ([97], 1).
Proof.
  apply (limit_width_wch_idempotent [97; 20013; 98] [97] 2 1
           [(4352, 4447); (19968, 40959)]).
  - easy.
  - unfold len, INT_MAX. simpl. lia.
  - reflexivity.
Defined.

(** X8: the display width is additive over concatenation and lies between
    the number of characters and twice that number. *)
Theorem len_wch_app (a b : str) (ranges : list (Z * Z)) :
  ranges <> [] -> 2 * (len a + len b) <= INT_MAX ->
  exists wa wb,
    len_wch a ranges = Some wa /\ len_wch b ranges = Some wb /\
    len_wch (a ++ b) ranges = Some (wa + wb) /\
    len a <= wa <= 2 * len a /\ len b <= wb <= 2 * len b.
Proof.
  intros Hne Hmax.
  assert (Hla : 0 <= len a) by (unfold len; lia).
  assert (Hlb : 0 <= len b) by (unfold len; lia).
  destruct (len_wch_loop_bounds ranges a Hne 0) as (wa & Hwa & Hwar); [lia | lia |].
  destruct (len_wch_loop_bounds ranges b Hne 0) as (wb & Hwb & Hwbr); [lia | lia |].
  exists wa, wb. unfold len_wch. split; [done |]. split; [done |].
  split; [| lia].
  rewrite len_wch_loop_app, Hwa. cbn [mbind option_bind].
  rewrite <- (Z.add_0_l wa), (Z.add_comm (0 + wa) wb).
  apply len_wch_loop_shift; [done | lia | lia | lia | done].
Qed.

Lemma len_wch_app_witness :
  exists wa wb,
    len_wch [97; 20013] [(4352, 4447); (19968, 40959)] = Some wa /\
    len_wch [98] [(4352, 4447); (19968, 40959)] = Some wb /\
    len_wch ([97; 20013] ++ [98]) [(4352, 4447); (19968, 40959)] = Some (wa + wb) /\
    len [97; 20013] <= wa <= 2 * len [97; 20013] /\ len [98] <= wb <= 2 * len [98].
Proof.
  apply (len_wch_app [97; 20013] [98] [(4352, 4447); (19968, 40959)]).
  - easy.
  - unfold len, INT_MAX. simpl. lia.
Defined.

(** *** Role colours *)

Lemma convert_role_defined colors default r :
  colors <> [] ->
  exists r', convert_role colors default r = Some r' /\
    r_id r' = r_id r /\ 0 <= r_color r' < len colors /\
    exists c, closest_color colors
                (int_to_rgb (if r_color r =? 0 then default else r_color r))
              = Some (r_color r', c).
Proof.
  intros Hne. unfold convert_role.
  destruct (closest_color_in_bounds colors
              (int_to_rgb (if r_color r =? 0 then default else r_color r)) Hne)
    as (i & c & Hcc & Hi & _).
  rewrite Hcc. cbn [mbind option_bind].
  exists (Role (r_id r) i). split; [done |]. split; [done |]. split; [done |].
  by exists c.
Qed.

(** X9: with no guild and no role filter and a non-empty palette,
    [convert_role_colors] converts every role of every guild: the guilds,
    the roles and their ids stay as they are and in order, and each
    role's colour becomes an index of the palette, the one [closest_color]
    gives for the unpacked colour, where a colour of 0 is first replaced
    by [default]. *)
Theorem convert_role_colors_all (all_roles : list guild) (colors : list rgb)
    (default : Z) :
  colors <> [] ->
  exists out,
    convert_role_colors all_roles colors None None default = Some out /\
    Forall2
      (fun g g' =>
         g_guild_id g' = g_guild_id g /\
         Forall2
           (fun r r' =>
              r_id r' = r_id r /\ 0 <= r_color r' < len colors /\
              exists c, closest_color colors
                          (int_to_rgb (if r_color r =? 0 then default else r_color r))
                        = Some (r_color r', c))
           (g_roles g) (g_roles g'))
      all_roles out.
Proof.
  intros Hne. unfold convert_role_colors.
  assert (Hroles : forall roles, exists roles',
            convert_roles colors None default roles = Some roles' /\
            Forall2
              (fun r r' =>
                 r_id r' = r_id r /\ 0 <= r_color r' < len colors /\
                 exists c, closest_color colors
                             (int_to_rgb (if r_color r =? 0 then default else r_color r))
                           = Some (r_color r', c))
              roles roles').
  { induction roles as [| r roles (roles' & IH & Hall)]; [by exists [] |].
    cbn [convert_roles truthy andb].
    destruct (convert_role_defined colors default r Hne) as (r' & -> & Hr').
    cbn [mbind option_bind]. rewrite IH. cbn [mbind option_bind].
    exists (r' :: roles'). split; [done |]. by constructor. }
  induction all_roles as [| g guilds (out & IH & Hall)]; [by exists [] |].
  cbn [convert_guilds truthy andb].
  destruct (Hroles (g_roles g)) as (roles' & -> & Hr').
  cbn [mbind option_bind]. rewrite IH. cbn [mbind option_bind].
  eexists. split; [done |]. by constructor.
Qed.

Lemma convert_role_colors_all_witness :
  exists out,
    convert_role_colors [Guild [49] [Role [55] 0; Role [56] 16711680]]
      [(0, 0, 0); (255, 0, 0); (255, 255, 255)] None None 16777215 = Some out /\
    Forall2
      (fun g g' =>
         g_guild_id g' = g_guild_id g /\
         Forall2
           (fun r r' =>
              r_id r' = r_id r /\
              0 <= r_color r' < len [(0, 0, 0); (255, 0, 0); (255, 255, 255)] /\
              exists c, closest_color [(0, 0, 0); (255, 0, 0); (255, 255, 255)]
                          (int_to_rgb (if r_color r =? 0 then 16777215 else r_color r))
                        = Some (r_color r', c))
           (g_roles g) (g_roles g'))
      [Guild [49] [Role [55] 0; Role [56] 16711680]] out.
Proof.
  apply (convert_role_colors_all [Guild [49] [Role [55] 0; Role [56] 16711680]]
           [(0, 0, 0); (255, 0, 0); (255, 255, 255)] 16777215).
  easy.
Defined.

Example convert_role_colors_small :
  convert_role_colors [Guild [49] [Role [55] 0; Role [56] 16711680]]
    [(0, 0, 0); (255, 0, 0); (255, 255, 255)] None None 16777215
  = Some [Guild [49] [Role [55] 2; Role [56] 1]].
Proof. reflexivity. Qed.

Lemma differs_false v o : differs v o = false <-> o = Some v.
Proof.
  unfold differs. rewrite negb_false_iff, bool_decide_eq_true. split; congruence.
Qed.

Lemma differs_true v w : v <> w -> differs v (Some w) = true.
Proof.
  intros Hne. unfold differs. rewrite negb_true_iff, bool_decide_eq_false. congruence.
Qed.

(** X10: with a role filter (a non-empty [role_id]) the role loop converts
    only the first role with that id and stops: the roles before it and
    after it are left as they are, later roles of the same id included.
    When no role has the id, nothing is changed, and the palette is not
    read (the result is defined even for an empty palette). *)
Theorem convert_roles_filter (colors : list rgb) (rid : list Z) (default : Z)
    (before : list role) :
  rid <> [] ->
  Forall (fun r => r_id r <> rid) before ->
  convert_roles colors (Some rid) default before = Some before /\
  (forall r after, r_id r = rid ->
     convert_roles colors (Some rid) default (before ++ r :: after)
     = r' ← convert_role colors default r; Some (before ++ r' :: after)).
Proof.
  intros Hrid.
  assert (Ht : truthy (Some rid) = true) by (by destruct rid).
  induction 1 as [| r0 before Hr0 _ [IH1 IH2]].
  - split; [done |]. intros r after Hr. cbn [app convert_roles]. rewrite Ht.
    assert (differs (r_id r) (Some rid) = false) as -> by (apply differs_false; congruence).
    cbn [andb]. by destruct (convert_role colors default r).
  - split.
    + cbn [convert_roles]. rewrite Ht, (differs_true _ _ Hr0). cbn [andb].
      by rewrite IH1.
    + intros r after Hr. cbn [app convert_roles].
      rewrite Ht, (differs_true _ _ Hr0). cbn [andb].
      rewrite (IH2 r after Hr).
      by destruct (convert_role colors default r).
Qed.

Lemma convert_roles_filter_witness :
  convert_roles [(0, 0, 0); (255, 255, 255)] (Some [56]) 0 [Role [55] 7]
    = Some [Role [55] 7] /\
  (forall r after, r_id r = [56] ->
     convert_roles [(0, 0, 0); (255, 255, 255)] (Some [56]) 0 ([Role [55] 7] ++ r :: after)
     = r' ← convert_role [(0, 0, 0); (255, 255, 255)] 0 r;
       Some ([Role [55] 7] ++ r' :: after)).
Proof.
  apply (convert_roles_filter [(0, 0, 0); (255, 255, 255)] [56] 0 [Role [55] 7]).
  - easy.
  - by repeat constructor.
Defined.

(** X11: with a guild filter (a non-empty [guild_id])
    [convert_role_colors] processes only the first guild with that id and
    stops: the guilds before it and after it are returned as they are.
    When no guild has the id, [all_roles] is returned unchanged. *)
Theorem convert_role_colors_guild_filter (colors : list rgb) (gid : list Z)
    (role_id : option (list Z)) (default : Z) (before : list guild) :
  gid <> [] ->
  Forall (fun g => g_guild_id g <> gid) before ->
  convert_role_colors before colors (Some gid) role_id default = Some before /\
  (forall g after, g_guild_id g = gid ->
     convert_role_colors (before ++ g :: after) colors (Some gid) role_id default
     = roles ← convert_roles colors role_id default (g_roles g);
       Some (before ++ Guild gid roles :: after)).
Proof.
  intros Hgid. unfold convert_role_colors.
  assert (Ht : truthy (Some gid) = true) by (by destruct gid).
  induction 1 as [| g0 before Hg0 _ [IH1 IH2]].
  - split; [done |]. intros g after Hg. cbn [app convert_guilds]. rewrite Ht.
    assert (differs (g_guild_id g) (Some gid) = false) as ->
      by (apply differs_false; congruence).
    cbn [andb]. rewrite Hg.
    by destruct (convert_roles colors role_id default (g_roles g)).
  - split.
    + cbn [convert_guilds]. rewrite Ht, (differs_true _ _ Hg0). cbn [andb].
      by rewrite IH1.
    + intros g after Hg. cbn [app convert_guilds].
      rewrite Ht, (differs_true _ _ Hg0). cbn [andb].
      rewrite (IH2 g after Hg).
      by destruct (convert_roles colors role_id default (g_roles g)).
Qed.

Lemma convert_role_colors_guild_filter_witness :
  convert_role_colors [Guild [49] [Role [55] 7]] [(0, 0, 0)] (Some [50]) None 0
    = Some [Guild [49] [Role [55] 7]] /\
  (forall g after, g_guild_id g = [50] ->
     convert_role_colors ([Guild [49] [Role [55] 7]] ++ g :: after) [(0, 0, 0)]
       (Some [50]) None 0
     = roles ← convert_roles [(0, 0, 0)] None 0 (g_roles g);
       Some ([Guild [49] [Role [55] 7]] ++ Guild [50] roles :: after)).
Proof.
  apply (convert_role_colors_guild_filter [(0, 0, 0)] [50] None 0
           [Guild [49] [Role [55] 7]]).
  - easy.
  - by repeat constructor.
Defined.

End ColorMore.

(** ** search.pyx *)

Module SearchMore.
Import Search SearchFacts.

(** The scan from any state it can be in: it ends with the whole word
    matched exactly when the rest of the word is a subsequence of the
    rest of the candidate; every matched character has then added between
    1 and 10 points, and the last match is not before the end of the
    word. *)
Lemma scan_loop_spec ql cl :
  10 * len ql + 11 <= INT_MAX ->
  forall fuel st,
    0 <= qpos st <= len ql -> 0 <= cpos st <= len cl ->
    (Z.to_nat (len cl - cpos st) <= fuel)%nat ->
    qpos st <= score st <= 10 * qpos st ->
    qpos st - 1 <= last_match_pos st < cpos st ->
    exists st',
      scan_loop fuel ql cl (len ql) (len cl) st = Some st' /\
      (qpos st' = len ql <->
       drop (Z.to_nat (qpos st)) ql `sublist_of` drop (Z.to_nat (cpos st)) cl) /\
      0 <= qpos st' <= len ql /\
      qpos st' <= score st' <= 10 * qpos st' /\
      qpos st' - 1 <= last_match_pos st'.
Proof.
  unfold INT_MAX. intros Hmax.
  induction fuel as [| fuel IH]; intros [qp cp sc lm]; cbn [qpos cpos score last_match_pos];
    intros Hq Hc Hfuel Hsc Hlm.
  all: cbn [scan_loop qpos cpos].
  all: destruct (Z.ltb_spec qp (len ql)) as [Hqlt | Hqge];
       destruct (Z.ltb_spec cp (len cl)) as [Hclt | Hcge]; cbn [andb]; try lia.
  all: try (exists (Scan qp cp sc lm); cbn [qpos cpos score last_match_pos];
            split; [done |]; split; [| lia]).
  (* fuel = 0 *)
  - split; [lia |]. intros Hsub. exfalso.
    rewrite (drop_ge cl) in Hsub by (unfold len in *; lia).
    apply sublist_nil_r in Hsub. apply (f_equal length) in Hsub.
    rewrite length_drop in Hsub. unfold len in *. simpl in Hsub. lia.
  - split; [| lia]. intros _.
    rewrite (drop_ge ql) by (unfold len in *; lia). apply sublist_nil_l.
  (* fuel = S _ *)
  - unfold scan_step. cbn [qpos cpos score last_match_pos].
    destruct (idx_is_Some ql qp) as [q Hqc]; [lia |].
    destruct (idx_is_Some cl cp) as [c Hcc]; [lia |].
    rewrite Hqc, Hcc. cbn [mbind option_bind].
    assert (Hqn : ql !! Z.to_nat qp = Some q).
    { unfold idx in Hqc. by destruct (Z.ltb_spec qp 0); [lia |]. }
    assert (Hcn : cl !! Z.to_nat cp = Some c).
    { unfold idx in Hcc. by destruct (Z.ltb_spec cp 0); [lia |]. }
    rewrite (drop_S _ _ _ Hqn), (drop_S _ _ _ Hcn).
    destruct (Z.eqb_spec q c) as [<- | Hne].
    + set (sc' := if cp =? lm + 1 then wrap32 (sc + 10) else wrap32 (sc + 1)).
      assert (Hsc' : qp + 1 <= sc' <= 10 * (qp + 1)).
      { unfold sc'. destruct (cp =? lm + 1); rewrite wrap32_small by lia; lia. }
      cbn [mbind option_bind].
      destruct (IH (Scan (qp + 1) (cp + 1) sc' cp)) as (st' & Hrun & Hiff & Hrest);
        cbn [qpos cpos score last_match_pos]; try lia.
      cbn [qpos cpos] in Hiff.
      exists st'. split; [done |]. split; [| done].
      rewrite Hiff. replace (Z.to_nat (qp + 1)) with (S (Z.to_nat qp)) by lia.
      replace (Z.to_nat (cp + 1)) with (S (Z.to_nat cp)) by lia.
      split; [by constructor |].
      intros [Hsub | (l' & [= <-] & Hsub)]%sublist_cons_r; [| done].
      etrans; [| exact Hsub]. by constructor.
    + cbn [mbind option_bind].
      destruct (IH (Scan qp (cp + 1) sc lm)) as (st' & Hrun & Hiff & Hrest);
        cbn [qpos cpos score last_match_pos]; try lia.
      cbn [qpos cpos] in Hiff.
      exists st'. split; [done |]. split; [| done].
      rewrite Hiff. rewrite (drop_S _ _ _ Hqn).
      replace (Z.to_nat (cp + 1)) with (S (Z.to_nat cp)) by lia.
      split; [by constructor |].
      intros [Hsub | (l' & [= Heq] & Hsub)]%sublist_cons_r; [done | congruence].
  - split; [lia |]. intros Hsub. exfalso.
    rewrite (drop_ge cl) in Hsub by (unfold len in *; lia).
    apply sublist_nil_r in Hsub. apply (f_equal length) in Hsub.
    rewrite length_drop in Hsub. unfold len in *. simpl in Hsub. lia.
  - split; [| lia]. intros _.
    rewrite (drop_ge ql) by (unfold len in *; lia). apply sublist_nil_l.
  - split; [| lia]. intros _.
    rewrite (drop_ge ql) by (unfold len in *; lia). apply sublist_nil_l.
Qed.

(** The score of one non-empty word. *)
Lemma fuzzy_match_score_single_spec (lower : str -> str) query candidate :
  query <> [] ->
  length (lower query) = length query ->
  length (lower candidate) = length candidate ->
  10 * len query + 11 <= INT_MAX ->
  exists sc,
    fuzzy_match_score_single lower query candidate = Some sc /\
    ((lower query `sublist_of` lower candidate
      /\ len query <= sc <= 10 * len query + Z.max 0 (11 - len query))
     \/ (~ lower query `sublist_of` lower candidate /\ sc = 0)).
Proof.
  intros Hne Hlq Hlc Hmax. unfold fuzzy_match_score_single.
  assert (Hq : len (lower query) = len query) by (unfold len; lia).
  assert (Hc : len (lower candidate) = len candidate) by (unfold len; lia).
  assert (Hqpos : 1 <= len query) by (unfold len; destruct query; [done | simpl; lia]).
  destruct (scan_loop_spec (lower query) (lower candidate) ltac:(lia)
              (length candidate) scan_init)
    as (st & Hrun & Hiff & Hqr & Hsc & Hlm); cbn [scan_init qpos cpos score last_match_pos];
    try (unfold len in *; lia).
  rewrite Hq, Hc in Hrun. rewrite Hrun. cbn [mbind option_bind].
  cbn [scan_init qpos cpos] in Hiff. change (Z.to_nat 0) with 0%nat in Hiff.
  rewrite !drop_0, Hq in Hiff. rewrite Hq in Hqr.
  unfold INT_MAX in *.
  destruct (Z.eqb_spec (qpos st) (len query)) as [Hall | Hnot].
  - eexists. split; [done |]. left. split; [by apply Hiff |].
    rewrite wrap32_small by lia. lia.
  - exists 0. split; [done |]. right. split; [| done]. by rewrite <- Hiff.
Qed.

Lemma scan_loop_compared ql cl qlen clen :
  forall fuel st,
    scan_loop fuel (take (Z.to_nat qlen) ql) (take (Z.to_nat clen) cl) qlen clen st
    = scan_loop fuel ql cl qlen clen st.
Proof.
  induction fuel as [| fuel IH]; intros st; cbn [scan_loop]; [done |].
  destruct (Z.ltb_spec (qpos st) qlen); destruct (Z.ltb_spec (cpos st) clen);
    cbn [andb]; try done.
  assert (scan_step (take (Z.to_nat qlen) ql) (take (Z.to_nat clen) cl) st
          = scan_step ql cl st) as ->.
  { unfold scan_step. by rewrite !idx_take by lia. }
  destruct (scan_step ql cl st); cbn [mbind option_bind]; [apply IH | done].
Qed.

(** The scorer reads of the lower-cased strings only what [compared]
    keeps. *)
Lemma fuzzy_match_score_single_compared (lower : str -> str) query candidate :
  fuzzy_match_score_single (compared lower) query candidate
  = fuzzy_match_score_single lower query candidate.
Proof.
  unfold fuzzy_match_score_single, compared.
  rewrite <- (scan_loop_compared (lower query) (lower candidate)
                (len query) (len candidate)).
  unfold len. by rewrite !Nat2Z.id.
Qed.

Lemma length_compared (lower : str -> str) s :
  (length s <= length (lower s))%nat -> length (compared lower s) = length s.
Proof. intros Hle. unfold compared. rewrite length_take. lia. Qed.

Lemma fuzzy_match_score_single_compared_spec (lower : str -> str) query candidate :
  query <> [] ->
  (length query <= length (lower query))%nat ->
  (length candidate <= length (lower candidate))%nat ->
  10 * len query + 11 <= INT_MAX ->
  exists sc,
    fuzzy_match_score_single lower query candidate = Some sc /\
    ((compared lower query `sublist_of` compared lower candidate
      /\ len query <= sc <= 10 * len query + Z.max 0 (11 - len query))
     \/ (~ compared lower query `sublist_of` compared lower candidate /\ sc = 0)).
Proof.
  intros Hne Hlq Hlc Hmax. rewrite <- fuzzy_match_score_single_compared.
  apply fuzzy_match_score_single_spec; [done | | | done]; by apply length_compared.
Qed.

(** X12: for a non-empty word, and when lower-casing shortens neither
    string, [fuzzy_match_score_single] is 0 exactly when the compared part
    of the lower-cased word is not a subsequence of the compared part of
    the lower-cased candidate, where the compared part of a string [s] is
    the first [len(s)] characters of [s.lower()] (the loop bounds are the
    lengths before lower-casing; for a string whose lower case has the
    same length it is all of [s.lower()]).  When it is a subsequence, the
    score is at least the length of the word and at most ten times that
    length plus the early-position bonus [max(0, 11 - len)]. *)
Theorem fuzzy_match_score_single_subsequence (lower : str -> str)
    (query candidate : str) :
  query <> [] ->
  (length query <= length (lower query))%nat ->
  (length candidate <= length (lower candidate))%nat ->
  10 * len query + 11 <= INT_MAX ->
  exists sc,
    fuzzy_match_score_single lower query candidate = Some sc /\
    (sc = 0 <-> ~ compared lower query `sublist_of` compared lower candidate) /\
    (compared lower query `sublist_of` compared lower candidate ->
     len query <= sc <= 10 * len query + Z.max 0 (11 - len query)).
Proof.
  intros Hne Hlq Hlc Hmax.
  destruct (fuzzy_match_score_single_compared_spec lower query candidate Hne Hlq Hlc Hmax)
    as (sc & Hrun & Hcases).
  assert (Hqpos : 1 <= len query) by (unfold len; destruct query; [done | simpl; lia]).
  exists sc. split; [done |].
  destruct Hcases as [[Hsub Hsc] | [Hnsub ->]].
  - split; [| done]. split; [lia | done].
  - split; [done | done].
Qed.

Lemma fuzzy_match_score_single_subsequence_witness :
  exists sc,
    fuzzy_match_score_single dotted_lower [304] [120; 105] = Some sc /\
    (sc = 0 <-> ~ compared dotted_lower [304] `sublist_of` compared dotted_lower [120; 105]) /\
    (compared dotted_lower [304] `sublist_of` compared dotted_lower [120; 105] ->
     len [304] <= sc <= 10 * len [304] + Z.max 0 (11 - len [304])).
Proof.
  apply (fuzzy_match_score_single_subsequence dotted_lower [304] [120; 105]).
  - easy.
  - simpl. lia.
  - simpl. lia.
  - unfold len, INT_MAX. simpl. lia.
Defined.

Lemma scan_loop_prefix ql cl rest qlen clen :
  cl = ql ++ rest -> qlen = len ql -> clen = len cl ->
  10 * len ql <= INT_MAX ->
  forall todo done fuel,
    ql = done ++ todo ->
    scan_loop (length todo + fuel) ql cl qlen clen
      (Scan (len done) (len done) (10 * len done) (len done - 1))
    = scan_loop fuel ql cl qlen clen
        (Scan (len ql) (len ql) (10 * len ql) (len ql - 1)).
Proof.
  intros -> -> -> Hmax. unfold INT_MAX in Hmax.
  induction todo as [| c todo IH]; intros done fuel Hql.
  - rewrite app_nil_r in Hql. by subst done.
  - cbn [length Nat.add scan_loop qpos cpos].
    assert (Hlen : len ql = len done + 1 + len todo).
    { rewrite Hql, len_app, len_cons. lia. }
    pose proof (len_nonneg done). pose proof (len_nonneg todo).
    pose proof (len_nonneg rest).
    rewrite (len_app ql rest).
    destruct (Z.ltb_spec (len done) (len ql)); [| lia].
    destruct (Z.ltb_spec (len done) (len ql + len rest)); [| lia].
    cbn [andb]. unfold scan_step. cbn [qpos cpos score last_match_pos].
    assert (Hq : idx ql (len done) = Some c) by (rewrite Hql; apply idx_app_middle).
    assert (Hc : idx (ql ++ rest) (len done) = Some c).
    { rewrite Hql, <- app_assoc. apply idx_app_middle. }
    rewrite Hq, Hc. cbn [mbind option_bind]. rewrite Z.eqb_refl.
    destruct (Z.eqb_spec (len done) (len done - 1 + 1)); [| lia].
    rewrite wrap32_small by lia.
    specialize (IH (done ++ [c]) fuel).
    rewrite (len_app done [c]) in IH. change (len [c]) with 1 in IH.
    rewrite (len_app ql rest) in IH.
    replace (10 * (len done + 1)) with (10 * len done + 10) in IH by lia.
    replace (len done + 1 - 1) with (len done) in IH by lia.
    apply IH. by rewrite <- app_assoc.
Qed.

(** The score of a candidate whose lower case starts with the lower case
    of the word, both of unchanged length. *)
Lemma fuzzy_match_score_single_prefix_same_length (lower : str -> str)
    (query candidate rest : str) :
  query <> [] ->
  length (lower query) = length query ->
  length (lower candidate) = length candidate ->
  10 * len query + 11 <= INT_MAX ->
  lower candidate = lower query ++ rest ->
  fuzzy_match_score_single lower query candidate
  = Some (10 * len query + Z.max 0 (11 - len query)).
Proof.
  intros Hne Hlq Hlc Hmax Hpre.
  unfold fuzzy_match_score_single.
  assert (Hq : len (lower query) = len query) by (unfold len; lia).
  assert (Hc : len (lower candidate) = len candidate) by (unfold len; lia).
  assert (Hqpos : 1 <= len query) by (unfold len; destruct query; [done | simpl; lia]).
  replace (length candidate) with (length (lower query) + length rest)%nat
    by (rewrite <- Hlc, Hpre, length_app; lia).
  pose proof (scan_loop_prefix (lower query) (lower candidate) rest (len query)
                (len candidate) Hpre (eq_sym Hq) (eq_sym Hc)
                ltac:(unfold INT_MAX in *; lia) (lower query) [] (length rest) eq_refl)
    as Hrun.
  change (len (@nil Z)) with 0 in Hrun. change (Scan 0 0 (10 * 0) (0 - 1)) with scan_init in Hrun.
  rewrite Hrun, Hq.
  assert (Hstop : forall fuel,
            scan_loop fuel (lower query) (lower candidate) (len query) (len candidate)
              (Scan (len query) (len query) (10 * len query) (len query - 1))
            = Some (Scan (len query) (len query) (10 * len query) (len query - 1))).
  { intros fuel. destruct fuel; cbn [scan_loop qpos cpos];
      by destruct (Z.ltb_spec (len query) (len query)); [lia |]. }
  rewrite Hstop. cbn [mbind option_bind qpos score last_match_pos].
  rewrite Z.eqb_refl. unfold INT_MAX in *. rewrite wrap32_small by lia.
  f_equal. lia.
Qed.

(** X13: when lower-casing shortens neither string, a candidate whose
    compared part starts with the compared part of the word (the compared
    part of a string [s] being the first [len(s)] characters of
    [s.lower()], all of it when lower-casing keeps the length) gets the
    highest score the word can reach: every character scores the
    consecutive bonus, 10 points, and the early-position bonus is
    [max(0, 11 - len)]; no candidate that lower-casing does not shorten
    scores more for that word. *)
Theorem fuzzy_match_score_single_prefix (lower : str -> str)
    (query candidate rest : str) :
  query <> [] ->
  (length query <= length (lower query))%nat ->
  (length candidate <= length (lower candidate))%nat ->
  10 * len query + 11 <= INT_MAX ->
  compared lower candidate = compared lower query ++ rest ->
  fuzzy_match_score_single lower query candidate
  = Some (10 * len query + Z.max 0 (11 - len query))
  /\ (forall other,
        (length other <= length (lower other))%nat ->
        exists sc, fuzzy_match_score_single lower query other = Some sc
                   /\ sc <= 10 * len query + Z.max 0 (11 - len query)).
Proof.
  intros Hne Hlq Hlc Hmax Hpre. split.
  - rewrite <- fuzzy_match_score_single_compared.
    apply (fuzzy_match_score_single_prefix_same_length (compared lower) query candidate
             rest); [done | | | done | done]; by apply length_compared.
  - intros other Hlo.
    destruct (fuzzy_match_score_single_compared_spec lower query other Hne Hlq Hlo Hmax)
      as (sc & Hrun & [[_ Hsc] | [_ ->]]); exists sc || exists 0;
      (split; [done |]); [lia |].
    pose proof (len_nonneg query). lia.
Qed.

Lemma fuzzy_match_score_single_prefix_witness :
  fuzzy_match_score_single dotted_lower [304; 98] [304; 120; 121]
  = Some (10 * len [304; 98] + Z.max 0 (11 - len [304; 98]))
  /\ (forall other,
        (length other <= length (dotted_lower other))%nat ->
        exists sc, fuzzy_match_score_single dotted_lower [304; 98] other = Some sc
                   /\ sc <= 10 * len [304; 98] + Z.max 0 (11 - len [304; 98])).
Proof.
  apply (fuzzy_match_score_single_prefix dotted_lower [304; 98] [304; 120; 121] [120]).
  - easy.
  - simpl. lia.
  - simpl. lia.
  - unfold len, INT_MAX. simpl. lia.
  - reflexivity.
Defined.

(** The words [split] returns are not empty, and together with one
    separator each they are no longer than the string. *)
Lemma split_from_words s :
  forall cur,
    Forall (fun w : list Z => w <> []) (split_from cur s) /\
    (sum_list_with (fun w : list Z => S (length w)) (split_from cur s)
     <= length cur + length s + 1)%nat.
Proof.
  induction s as [| c s IH]; intros cur.
  - cbn [split_from]. destruct cur as [| x cur]; [split; [done | simpl; lia] |].
    split.
    + constructor; [| done]. intros Hrev. apply (f_equal length) in Hrev.
      rewrite length_rev in Hrev. done.
    + cbn [sum_list_with]. rewrite length_rev. simpl. lia.
  - cbn [split_from]. destruct (isspace c).
    + destruct cur as [| x cur].
      * destruct (IH []) as [Hne Hsum]. split; [done | simpl in *; lia].
      * destruct (IH []) as [Hne Hsum]. split.
        -- constructor; [| done]. intros Hrev. apply (f_equal length) in Hrev.
           rewrite length_rev in Hrev. done.
        -- cbn [sum_list_with]. rewrite length_rev. simpl in *. lia.
    + destruct (IH (c :: cur)) as [Hne Hsum]. split; [done | simpl in *; lia].
Qed.

Lemma fuzzy_match_score_words_spec (lower : str -> str) candidate :
  length (lower candidate) = length candidate ->
  forall words total_score,
    Forall (fun w : list Z => w <> []) words ->
    Forall (fun w : list Z => length (lower w) = length w) words ->
    0 <= total_score ->
    total_score
    + 10 * Z.of_nat (sum_list_with (fun w : list Z => S (length w)) words) + 1
      <= INT_MAX ->
    exists total,
      fuzzy_match_score_words lower words candidate total_score = Some total /\
      ((Forall (fun w => lower w `sublist_of` lower candidate) words
        /\ total_score + len words <= total
        /\ (words = [] -> total = total_score))
       \/ (~ Forall (fun w => lower w `sublist_of` lower candidate) words
           /\ total = 0)).
Proof.
  intros Hlc. unfold INT_MAX.
  induction words as [| w words IH]; intros acc Hne Hlw Hacc Hmax.
  - exists acc. split; [done |]. left. split; [done |].
    split; [unfold len; simpl; lia | done].
  - apply Forall_cons in Hne as [Hw Hne]. apply Forall_cons in Hlw as [Hlw1 Hlw].
    cbn [sum_list_with] in Hmax.
    cbn [fuzzy_match_score_words].
    assert (Hwpos : 1 <= len w) by (unfold len; destruct w; [done | simpl; lia]).
    destruct (fuzzy_match_score_single_spec lower w candidate Hw Hlw1 Hlc)
      as (sc & -> & Hsc).
    { unfold len, INT_MAX. lia. }
    cbn [mbind option_bind].
    destruct Hsc as [[Hsub Hsc] | [Hnsub ->]].
    + destruct (Z.eqb_spec sc 0); [lia |].
      unfold len in Hsc, Hwpos.
      rewrite wrap32_small by lia.
      destruct (IH (acc + sc) Hne Hlw) as (total & -> & Hcases); [lia | lia |].
      exists total. split; [done |].
      destruct Hcases as [(Hall & Htotal & _) | [Hnall ->]].
      * left. split; [by constructor |]. rewrite len_cons. split; [lia | done].
      * right. split; [| done]. by intros [_ Hall]%Forall_cons.
    + cbn [Z.eqb]. exists 0. split; [done |]. right. split; [| done].
      by intros [Hsub _]%Forall_cons.
Qed.

Lemma fuzzy_match_score_words_compared (lower : str -> str) candidate words :
  forall total_score,
    fuzzy_match_score_words (compared lower) words candidate total_score
    = fuzzy_match_score_words lower words candidate total_score.
Proof.
  induction words as [| w words IH]; intros total_score; [done |].
  cbn [fuzzy_match_score_words]. rewrite fuzzy_match_score_single_compared.
  destruct (fuzzy_match_score_single lower w candidate) as [sc |];
    cbn [mbind option_bind]; [| done].
  destruct (sc =? 0); [done | apply IH].
Qed.

(** X14: a query of several words is an AND over its words: when
    lower-casing shortens neither a word nor the candidate, the score of
    [fuzzy_match_score] is positive exactly when the query has at least
    one word and the compared part of every lower-cased word is a
    subsequence of the compared part of the lower-cased candidate;
    otherwise it is 0.  The compared part of a string [s] is the first
    [len(s)] characters of [s.lower()], all of it when lower-casing keeps
    the length. *)
Theorem fuzzy_match_score_all_words (lower : str -> str) (query candidate : str) :
  Forall (fun w => (length w <= length (lower w))%nat) (split query) ->
  (length candidate <= length (lower candidate))%nat ->
  10 * (len query + 1) + 1 <= INT_MAX ->
  exists total,
    fuzzy_match_score lower query candidate = Some total /\
    0 <= total /\
    (0 < total <->
     split query <> [] /\
     Forall (fun w => compared lower w `sublist_of` compared lower candidate)
       (split query)).
Proof.
  intros Hlw Hlc Hmax. unfold fuzzy_match_score, split in *.
  destruct (split_from_words query []) as [Hne Hsum].
  rewrite <- fuzzy_match_score_words_compared.
  destruct (fuzzy_match_score_words_spec (compared lower) candidate
              (length_compared lower candidate Hlc) (split_from [] query) 0 Hne)
    as (total & -> & Hcases).
  { eapply Forall_impl; [exact Hlw |]. intros w Hw. by apply length_compared. }
  { lia. }
  { unfold len, INT_MAX in *. simpl in Hsum. lia. }
  exists total. split; [done |].
  destruct Hcases as [(Hall & Htotal & Hnil) | [Hnall ->]].
  - pose proof (len_nonneg (split_from [] query)). split; [lia |]. split.
    + intros Hpos. split; [| done]. intros Hwords. specialize (Hnil Hwords). lia.
    + intros [Hwords _]. destruct (split_from [] query) as [| w words]; [done |].
      rewrite len_cons in Htotal. pose proof (len_nonneg words). lia.
  - split; [done |]. split; [lia |]. by intros [_ Hall].
Qed.

Lemma fuzzy_match_score_all_words_witness :
  exists total,
    fuzzy_match_score dotted_lower [304; 32; 67] [105; 120; 99] = Some total /\
    0 <= total /\
    (0 < total <->
     split [304; 32; 67] <> [] /\
     Forall (fun w => compared dotted_lower w `sublist_of` compared dotted_lower [105; 120; 99])
       (split [304; 32; 67])).
Proof.
  apply (fuzzy_match_score_all_words dotted_lower [304; 32; 67] [105; 120; 99]).
  - repeat constructor.
  - simpl. lia.
  - unfold len, INT_MAX. simpl. lia.
Defined.

End SearchMore.

(** ** pgcurses.pyx *)

Module PgcursesMore.
Import Pgcurses PgcursesFacts.

Lemma well_formed_row nlines ncols (buf : list (list cell)) k r :
  well_formed nlines ncols buf -> idx buf k = Some r -> len r = ncols.
Proof.
  intros [_ Hrows] Hk. unfold idx in Hk. destruct (k <? 0); [done |].
  by apply (Forall_lookup_1 _ _ _ _ Hrows Hk).
Qed.

(** The line loop completes on a buffer of the given shape when the write
    starts at a non-negative row and column. *)
Lemma insstr_lines_total nlines ncols y x attr len_lines lines :
  0 <= x ->
  forall (buf : list (list cell)) dirty_lines i,
    well_formed nlines ncols buf -> 0 <= y + i ->
    is_Some (insstr_lines buf nlines ncols dirty_lines y x attr len_lines i lines).
Proof.
  intros Hx. induction lines as [| line lines IH]; intros buf dirty_lines i Hwf Hrow; [done |].
  cbn [insstr_lines].
  destruct (Z.geb_spec (y + i) nlines) as [Hout | Hin]; [done |].
  pose proof Hwf as [Hlen Hrows].
  destruct (idx_is_Some buf (y + i)) as [r Hr]; [lia |].
  rewrite Hr. cbn [mbind option_bind].
  pose proof (well_formed_row _ _ _ _ _ Hwf Hr) as Hrlen.
  destruct (Z.leb_spec (ncols - x) 0) as [Hnarrow | Hwide]; [apply IH; [done | lia] |].
  set (min_len := if ncols - x <? len line then ncols - x else len line).
  pose proof (len_nonneg line) as Hline.
  assert (Hmin : 0 <= min_len <= ncols - x /\ min_len <= len line).
  { unfold min_len. destruct (Z.ltb_spec (ncols - x) (len line)); lia. }
  assert (Htake : len (take (Z.to_nat min_len) line) = min_len).
  { unfold len in *. rewrite length_take. lia. }
  destruct (write_cells_spec attr (take (Z.to_nat min_len) line) r x 0)
    as (r1 & Hw1 & Hlen1 & _); [lia | lia |].
  rewrite Hw1. cbn [mbind option_bind].
  assert (Hpad : exists r2,
            (if (i <? len_lines - 1) && (min_len <? ncols - x)
             then write_cells r1 x min_len
                    (replicate (Z.to_nat (ncols - x - min_len)) 32) attr
             else Some r1) = Some r2 /\ len r2 = ncols).
  { destruct ((i <? len_lines - 1) && (min_len <? ncols - x)).
    - destruct (write_cells_spec attr (replicate (Z.to_nat (ncols - x - min_len)) 32)
                  r1 x min_len) as (r2 & Hw2 & Hlen2 & _).
      + lia.
      + unfold len at 1. rewrite length_replicate. lia.
      + exists r2. split; [done | lia].
    - exists r1. split; [done | lia]. }
  destruct Hpad as (r2 & -> & Hlen2). cbn [mbind option_bind].
  rewrite (set_idx_is_Some buf (y + i) r2) by lia. cbn [mbind option_bind].
  apply IH; [| lia]. split.
  - unfold len in *. by rewrite length_insert.
  - by apply Forall_insert.
Qed.

(** X15: on a buffer of [nlines] rows of [ncols] cells, a write that
    starts at a non-negative row and column never leaves the buffer: it
    completes, whatever the text is, keeps the shape of the buffer and
    only adds rows to the dirty set. *)
Theorem insstr_stays_in_buffer (buf : list (list cell)) (nlines ncols : Z)
    (dirty_lines : gset Z) (y x : Z) (text : str) (attr : Z) :
  well_formed nlines ncols buf -> 0 <= y -> 0 <= x ->
  exists buf' dirty',
    insstr buf nlines ncols dirty_lines y x text attr = Some (buf', dirty') /\
    well_formed nlines ncols buf' /\ dirty_lines ⊆ dirty'.
Proof.
  intros Hwf Hy Hx. unfold insstr.
  destruct (insstr_lines_total nlines ncols y x attr (len (split_lines text))
              (split_lines text) Hx buf dirty_lines 0 Hwf ltac:(lia))
    as [[buf' dirty'] Hrun].
  exists buf', dirty'. split; [done |].
  destruct (insstr_lines_frame _ _ _ _ _ _ _ _ _ _ _ _ Hrun) as (Hsub & Hlen & Hshape & _).
  destruct Hwf as [Hl Hrows]. split; [split; [lia | by apply Hshape] | done].
Qed.

Lemma insstr_stays_in_buffer_witness :
  exists buf' dirty',
    insstr [[(120, 0); (120, 0)]; [(120, 0); (120, 0)]] 2 2 ∅ 1 1
      [97; 98; 99; 10; 100; 10; 101] 5 = Some (buf', dirty') /\
    well_formed 2 2 buf' /\ (∅ : gset Z) ⊆ dirty'.
Proof.
  apply (insstr_stays_in_buffer [[(120, 0); (120, 0)]; [(120, 0); (120, 0)]] 2 2 ∅ 1 1
           [97; 98; 99; 10; 100; 10; 101] 5).
  - split; [reflexivity | by repeat constructor].
  - lia.
  - lia.
Defined.

Lemma write_cells_frame attr glyphs :
  forall (r r' : list cell) x j,
    0 <= j ->
    write_cells r x j glyphs attr = Some r' ->
    forall k, k < x + j \/ x + j + len glyphs <= k -> idx r' k = idx r k.
Proof.
  induction glyphs as [| ch glyphs IH]; intros r r' x j Hj Hw k Hk.
  - by injection Hw as <-.
  - cbn [write_cells] in Hw.
    destruct (set_idx r (x + j) (ch, attr)) as [r1 |] eqn:Hset; [| done].
    cbn [mbind option_bind] in Hw. rewrite len_cons in Hk.
    pose proof (len_nonneg glyphs).
    rewrite (IH r1 r' x (j + 1) ltac:(lia) Hw k) by lia.
    rewrite (idx_set_idx _ _ _ _ k Hset).
    destruct (Z.eqb_spec k (x + j)); [lia | done].
Qed.

Lemma insstr_lines_cells nlines ncols y x attr len_lines lines :
  forall (buf : list (list cell)) dirty_lines i buf' dirty',
    insstr_lines buf nlines ncols dirty_lines y x attr len_lines i lines
      = Some (buf', dirty') ->
    forall k j, k < y + i \/ y + i + len lines <= k \/ j < x ->
                cell_at buf' k j = cell_at buf k j.
Proof.
  induction lines as [| line lines IH]; intros buf dirty_lines i buf' dirty' Hrun k j Hkj.
  - by injection Hrun as <- <-.
  - cbn [insstr_lines] in Hrun. rewrite len_cons in Hkj.
    pose proof (len_nonneg lines) as Hll.
    destruct (Z.geb_spec (y + i) nlines) as [Hout | Hin]; [by injection Hrun as <- <- |].
    destruct (idx buf (y + i)) as [row_buffer |] eqn:Hrow; [| done].
    cbn [mbind option_bind] in Hrun.
    destruct (Z.leb_spec (ncols - x) 0) as [Hnarrow | Hwide].
    { (* nothing is written on this row *)
      destruct (Z.eq_dec k (y + i)) as [-> | Hne].
      - assert (Hsame : forall b d b' d' n,
                  insstr_lines b nlines ncols d y x attr len_lines n lines = Some (b', d') ->
                  y + i < y + n -> cell_at b' (y + i) j = cell_at b (y + i) j).
        { intros b d b' d' n Hn Hlt. apply (IH _ _ _ _ _ Hn). lia. }
        apply (Hsame _ _ _ _ _ Hrun). lia.
      - apply (IH _ _ _ _ _ Hrun). lia. }
    set (min_len := if ncols - x <? len line then ncols - x else len line) in *.
    assert (Hmin : 0 <= min_len).
    { unfold min_len. pose proof (len_nonneg line).
      destruct (Z.ltb_spec (ncols - x) (len line)); lia. }
    destruct (write_cells row_buffer x 0 (take (Z.to_nat min_len) line) attr)
      as [r1 |] eqn:Hw1; [| done].
    cbn [mbind option_bind] in Hrun.
    destruct (if (i <? len_lines - 1) && (min_len <? ncols - x)
              then write_cells r1 x min_len
                     (replicate (Z.to_nat (ncols - x - min_len)) 32) attr
              else Some r1) as [r2 |] eqn:Hw2; [| done].
    cbn [mbind option_bind] in Hrun.
    destruct (set_idx buf (y + i) r2) as [buf1 |] eqn:Hset; [| done].
    cbn [mbind option_bind] in Hrun.
    rewrite (IH _ _ _ _ _ Hrun k j) by lia.
    unfold cell_at. rewrite (idx_set_idx _ _ _ _ k Hset).
    destruct (Z.eqb_spec k (y + i)) as [-> | Hne]; [| done].
    rewrite Hrow. cbn [mbind option_bind].
    assert (Hj : j < x) by lia.
    assert (H2 : idx r2 j = idx r1 j).
    { destruct ((i <? len_lines - 1) && (min_len <? ncols - x)).
      - apply (write_cells_frame _ _ _ _ _ _ Hmin Hw2). lia.
      - by injection Hw2 as <-. }
    rewrite H2. apply (write_cells_frame _ _ _ _ _ 0 ltac:(lia) Hw1). lia.
Qed.

(** X16: a write only touches the rows of its own lines and the columns
    from [x] on: every cell above row [y], below the last line of the
    text, or left of column [x] is left as it is. *)
Theorem insstr_frame (buf buf' : list (list cell)) (nlines ncols : Z)
    (dirty_lines dirty' : gset Z) (y x : Z) (text : str) (attr : Z) :
  insstr buf nlines ncols dirty_lines y x text attr = Some (buf', dirty') ->
  forall k j, k < y \/ y + len (split_lines text) <= k \/ j < x ->
              cell_at buf' k j = cell_at buf k j.
Proof.
  unfold insstr. intros Hrun k j Hkj.
  apply (insstr_lines_cells _ _ _ _ _ _ _ _ _ _ _ _ Hrun). lia.
Qed.

Lemma insstr_frame_witness :
  cell_at [[(120, 0); (120, 0)]; [(120, 0); (97, 5)]] 1 0
  = cell_at [[(120, 0); (120, 0)]; [(120, 0); (120, 0)]] 1 0.
Proof.
  apply (insstr_frame [[(120, 0); (120, 0)]; [(120, 0); (120, 0)]]
           [[(120, 0); (120, 0)]; [(120, 0); (97, 5)]] 2 2 ∅ ({[1]} ∪ ∅) 1 1
           [97; 98; 99; 10; 100; 10; 101] 5).
  - reflexivity.
  - right. right. lia.
Defined.

(** X17: a text without row separator written at [(y, x)] inside the
    buffer replaces the cells of row [y] from column [x] on by its
    characters with the given attribute, clipped at the last column; no
    other cell changes (the rest of the row is not padded), and row [y]
    is the only row added to the dirty set. *)
Theorem insstr_single_line (buf : list (list cell)) (nlines ncols : Z)
    (dirty_lines : gset Z) (y x : Z) (text : str) (attr : Z) :
  well_formed nlines ncols buf ->
  0 <= y < nlines -> 0 <= x < ncols -> 10 ∉ text ->
  exists buf',
    insstr buf nlines ncols dirty_lines y x text attr
      = Some (buf', {[y]} ∪ dirty_lines) /\
    forall k j,
      cell_at buf' k j =
      if (k =? y) && (x <=? j) && (j <? x + Z.min (len text) (ncols - x))
      then ch ← idx text (j - x); Some (ch, attr)
      else cell_at buf k j.
Proof.
  intros Hwf Hy Hx Hnl. pose proof Hwf as [Hlen Hrows].
  unfold insstr. rewrite (split_lines_no_newline text Hnl).
  change (len [text]) with 1. cbn [insstr_lines]. rewrite Z.add_0_r.
  destruct (Z.geb_spec y nlines); [lia |].
  destruct (idx_is_Some buf y) as [r Hr]; [lia |].
  rewrite Hr. cbn [mbind option_bind].
  pose proof (well_formed_row _ _ _ _ _ Hwf Hr) as Hrlen.
  destruct (Z.leb_spec (ncols - x) 0); [lia |].
  pose proof (len_nonneg text) as Htl.
  set (min_len := if ncols - x <? len text then ncols - x else len text).
  assert (Hmin : min_len = Z.min (len text) (ncols - x)).
  { unfold min_len. destruct (Z.ltb_spec (ncols - x) (len text)); lia. }
  assert (Htake : len (take (Z.to_nat min_len) text) = min_len).
  { unfold len in *. rewrite length_take. lia. }
  destruct (write_cells_spec attr (take (Z.to_nat min_len) text) r x 0)
    as (r1 & Hw1 & Hlen1 & Hcells); [lia | lia |].
  rewrite Hw1. cbn [mbind option_bind].
  change (0 <? 1 - 1) with false. cbn [andb mbind option_bind].
  pose proof (set_idx_is_Some buf y r1 ltac:(lia)) as Hset.
  rewrite Hset. cbn [mbind option_bind].
  eexists. split; [done |]. intros k j.
  unfold cell_at. rewrite (idx_set_idx _ _ _ _ k Hset).
  destruct (Z.eqb_spec k y) as [-> | Hne]; [| done].
  rewrite Hr. cbn [mbind option_bind andb].
  rewrite Hcells, Htake, Z.add_0_r, <- Hmin.
  destruct (Z.leb_spec x j), (Z.ltb_spec j (x + min_len)); cbn [andb]; try done.
  rewrite idx_take by lia. done.
Qed.

Lemma insstr_single_line_witness :
  exists buf',
    insstr [[(120, 0); (120, 0); (120, 0)]] 1 3 ∅ 0 1 [97; 98; 99] 5
      = Some (buf', {[0]} ∪ ∅) /\
    forall k j,
      cell_at buf' k j =
      if (k =? 0) && (1 <=? j) && (j <? 1 + Z.min (len [97; 98; 99]) (3 - 1))
      then ch ← idx [97; 98; 99] (j - 1); Some (ch, 5)
      else cell_at [[(120, 0); (120, 0); (120, 0)]] k j.
Proof.
  apply (insstr_single_line [[(120, 0); (120, 0); (120, 0)]] 1 3 ∅ 0 1 [97; 98; 99] 5).
  - split; [reflexivity | by repeat constructor].
  - lia.
  - lia.
  - rewrite list_elem_of_In. simpl. lia.
Defined.

Lemma split_lines_cons text : exists line lines, split_lines text = line :: lines.
Proof.
  destruct text as [| c text]; [by exists [], [] |].
  cbn [split_lines]. destruct (c =? 10); [by eexists _, _ |].
  destruct (split_lines text); by eexists _, _.
Qed.

Lemma insstr_lines_right_of_buffer nlines ncols y x attr len_lines lines :
  ncols <= x ->
  forall (buf : list (list cell)) dirty_lines i,
    len buf = nlines -> 0 <= y + i ->
    insstr_lines buf nlines ncols dirty_lines y x attr len_lines i lines
    = Some (buf, dirty_lines).
Proof.
  intros Hx. induction lines as [| line lines IH]; intros buf dirty_lines i Hlen Hrow; [done |].
  cbn [insstr_lines].
  destruct (Z.geb_spec (y + i) nlines) as [Hout | Hin]; [done |].
  destruct (idx_is_Some buf (y + i)) as [r ->]; [lia |].
  cbn [mbind option_bind].
  destruct (Z.leb_spec (ncols - x) 0); [| lia].
  apply IH; [done | lia].
Qed.

(** X18: writes outside the buffer are dropped without a trace: a write
    that starts on or below row [nlines], and a write at a non-negative
    row that starts on or right of column [ncols], change no cell and
    mark no row dirty. *)
Theorem insstr_outside_dropped (buf : list (list cell)) (nlines ncols : Z)
    (dirty_lines : gset Z) (y x : Z) (text : str) (attr : Z) :
  (nlines <= y ->
   insstr buf nlines ncols dirty_lines y x text attr = Some (buf, dirty_lines)) /\
  (len buf = nlines -> 0 <= y -> ncols <= x ->
   insstr buf nlines ncols dirty_lines y x text attr = Some (buf, dirty_lines)).
Proof.
  split.
  - intros Hy. unfold insstr.
    destruct (split_lines_cons text) as (line & lines & ->).
    cbn [insstr_lines]. by destruct (Z.geb_spec (y + 0) nlines); [| lia].
  - intros Hlen Hy Hx. unfold insstr.
    apply insstr_lines_right_of_buffer; [done | done | lia].
Qed.

Lemma insstr_outside_dropped_witness :
  insstr [[(32, 0); (32, 0)]; [(32, 0); (32, 0)]] 2 2 {[1]} 0 2 [97; 10; 98] 5
  = Some ([[(32, 0); (32, 0)]; [(32, 0); (32, 0)]], {[1]}).
Proof.
  apply (proj2 (insstr_outside_dropped [[(32, 0); (32, 0)]; [(32, 0); (32, 0)]] 2 2
                  {[1]} 0 2 [97; 10; 98] 5)).
  - reflexivity.
  - lia.
  - lia.
Defined.

(** *** The painter *)

Lemma mapM_pointwise_in {A B : Type} (f g : A -> option B) (l : list A) :
  (forall x, x ∈ l -> f x = g x) -> mapM f l = mapM g l.
Proof.
  induction l as [| x l IH]; intros Hfg; [done |].
  cbn [mapM]. rewrite (Hfg x) by by left.
  rewrite IH; [done |]. intros z Hz. apply Hfg. by right.
Qed.

(** X19: a paint pass reads the dirty rows only: two buffers that agree
    on the rows of the dirty set give the same draw operations, whatever
    their other rows hold.  With an empty dirty set the pass issues no
    operation at all, and every pass that completes leaves the dirty set
    empty. *)
Theorem render_reads_dirty_rows_only (ncols char_width char_height pxx pxy : Z)
    (color_map : list (color * color)) (buf1 buf2 : list (list cell))
    (dirty_lines : gset Z) :
  (forall y, y ∈ dirty_lines -> idx buf1 y = idx buf2 y) ->
  render ncols char_width char_height pxx pxy color_map buf1 dirty_lines
  = render ncols char_width char_height pxx pxy color_map buf2 dirty_lines
  /\ render ncols char_width char_height pxx pxy color_map buf1 ∅ = Some ([], ∅)
  /\ (forall ops dirty',
        render ncols char_width char_height pxx pxy color_map buf1 dirty_lines
          = Some (ops, dirty') -> dirty' = ∅).
Proof.
  intros Hrows. split; [| split].
  - unfold render. f_equal. apply mapM_pointwise_in.
    intros y Hy%elem_of_elements. unfold render_line. by rewrite Hrows.
  - unfold render. by rewrite elements_empty.
  - unfold render. intros ops dirty' Hrun.
    destruct (mapM _ _); [| done]. by injection Hrun as _ <-.
Qed.

Lemma render_reads_dirty_rows_only_witness :
  render 1 8 16 0 0 [((255, 255, 255), (0, 0, 0))] [[(97, 0)]; [(98, 0)]] {[0]}
  = render 1 8 16 0 0 [((255, 255, 255), (0, 0, 0))] [[(97, 0)]; [(99, 1)]] {[0]}
  /\ render 1 8 16 0 0 [((255, 255, 255), (0, 0, 0))] [[(97, 0)]; [(98, 0)]] ∅
     = Some ([], ∅)
  /\ (forall ops dirty',
        render 1 8 16 0 0 [((255, 255, 255), (0, 0, 0))] [[(97, 0)]; [(98, 0)]] {[0]}
          = Some (ops, dirty') -> dirty' = ∅).
Proof.
  apply (render_reads_dirty_rows_only 1 8 16 0 0 [((255, 255, 255), (0, 0, 0))]
           [[(97, 0)]; [(98, 0)]] [[(97, 0)]; [(99, 1)]] {[0]}).
  intros y Hy%elem_of_singleton. by subst y.
Defined.

Lemma collect_uniform ncols (r : list cell) attr :
  len r = ncols ->
  forall fuel i draw_x text_buffer,
    0 <= i <= ncols -> (Z.to_nat (ncols - i) < fuel)%nat ->
    (forall j, i <= j < ncols ->
       exists ch, idx r j = Some (ch, attr) /\ is_emoji ch = false) ->
    exists draw_x',
      collect ncols fuel r attr i draw_x text_buffer
      = Some (ncols, draw_x', text_buffer ++ (fst <$> drop (Z.to_nat i) r)).
Proof.
  intros Hlen. induction fuel as [| fuel IH]; intros i dx tb Hi Hfuel Hcells; [lia |].
  cbn [collect]. destruct (Z.ltb_spec i ncols) as [Hin | Hout].
  - destruct (Hcells i ltac:(lia)) as (ch & Hch & Hem).
    rewrite Hch. cbn [mbind option_bind]. rewrite Z.eqb_refl, Hem. cbn [negb orb].
    destruct (IH (i + 1) (wrap32 (dx + 1)) (tb ++ [ch])) as [dx' ->]; [lia | lia | |].
    { intros j Hj. apply Hcells. lia. }
    exists dx'. do 2 f_equal.
    assert (Hn : r !! Z.to_nat i = Some (ch, attr)).
    { unfold idx in Hch. by destruct (Z.ltb_spec i 0); [lia |]. }
    rewrite (drop_S _ _ _ Hn). replace (Z.to_nat (i + 1)) with (S (Z.to_nat i)) by lia.
    by rewrite <- app_assoc.
  - assert (i = ncols) as -> by lia. exists dx.
    rewrite drop_ge by (unfold len in *; lia). by rewrite app_nil_r.
Qed.

(** X20: a row whose cells all carry the same attribute and hold no emoji
    is painted as one run: one [fill] of the whole row width with the
    background of the attribute's colour pair and one [render_to] of the
    whole row text with its foreground (the two swapped under
    [A_STANDOUT]). *)
Theorem render_line_one_run (ncols char_width char_height pxx pxy : Z)
    (color_map : list (color * color)) (buf : list (list cell)) (y attr : Z)
    (r : list cell) (fg bg : color) :
  0 < ncols ->
  idx buf y = Some r -> len r = ncols ->
  (forall j, 0 <= j < ncols ->
     exists ch, idx r j = Some (ch, attr) /\ is_emoji ch = false) ->
  idx color_map (Z.land attr 0xFFFF) = Some (fg, bg) ->
  render_line ncols char_width char_height pxx pxy color_map buf y
  = Some [fill (if flag_set (Z.land attr 0xFFFF0000) A_STANDOUT then fg else bg)
            (wrap32 pxx, wrap32 (wrap32 (y * char_height) + pxy),
             ncols * char_width, char_height);
          render_to (select_font (Z.land attr 0xFFFF0000))
            (flag_set (Z.land attr 0xFFFF0000) A_UNDERLINE)
            (wrap32 pxx, wrap32 (wrap32 (y * char_height) + pxy))
            (fst <$> r)
            (if flag_set (Z.land attr 0xFFFF0000) A_STANDOUT then bg else fg)].
Proof.
  intros Hncols Hrow Hlen Hcells Hpair.
  unfold render_line. rewrite Hrow. cbn [mbind option_bind render_row].
  destruct (Z.ltb_spec 0 ncols); [| lia].
  destruct (Hcells 0 ltac:(lia)) as (ch0 & Hch0 & Hem0).
  rewrite Hch0. cbn [mbind option_bind]. rewrite Hem0.
  destruct (collect_uniform ncols r attr Hlen (S (Z.to_nat ncols)) 0 0 [])
    as [dx' ->]; [lia | lia | done |].
  cbn [mbind option_bind app]. change (Z.to_nat 0) with 0%nat. rewrite drop_0.
  destruct r as [| [c0 a0] r0]; [unfold len in Hlen; simpl in Hlen; lia |].
  cbn [fmap list_fmap fst]. rewrite Hpair. cbn [mbind option_bind].
  destruct (Z.to_nat ncols) as [| fuel] eqn:Hfuel; [lia |].
  cbn [render_row]. destruct (Z.ltb_spec ncols ncols); [lia |].
  cbn [mbind option_bind].
  assert (Htl : len (c0 :: r0.*1) = ncols).
  { rewrite <- Hlen. unfold len. cbn [length]. by rewrite length_fmap. }
  rewrite Htl. change (wrap32 (0 * char_width)) with 0. rewrite Z.add_0_l.
  by destruct (flag_set (Z.land attr 4294901760) A_STANDOUT).
Qed.

Lemma render_line_one_run_witness :
  render_line 3 8 16 0 0 [((255, 255, 255), (0, 0, 0))]
    [[(104, 131072); (105, 131072); (33, 131072)]] 0
  = Some [fill (if flag_set (Z.land 131072 0xFFFF0000) A_STANDOUT
                then (255, 255, 255) else (0, 0, 0))
            (wrap32 0, wrap32 (wrap32 (0 * 16) + 0), 3 * 8, 16);
          render_to (select_font (Z.land 131072 0xFFFF0000))
            (flag_set (Z.land 131072 0xFFFF0000) A_UNDERLINE)
            (wrap32 0, wrap32 (wrap32 (0 * 16) + 0))
            (fst <$> [(104, 131072); (105, 131072); (33, 131072)])
            (if flag_set (Z.land 131072 0xFFFF0000) A_STANDOUT
             then (0, 0, 0) else (255, 255, 255))].
Proof.
  apply (render_line_one_run 3 8 16 0 0 [((255, 255, 255), (0, 0, 0))]
           [[(104, 131072); (105, 131072); (33, 131072)]] 0 131072
           [(104, 131072); (105, 131072); (33, 131072)] (255, 255, 255) (0, 0, 0)).
  - lia.
  - reflexivity.
  - reflexivity.
  - intros j Hj.
    assert (j = 0 \/ j = 1 \/ j = 2) as [-> | [-> | ->]] by lia; by eexists.
  - reflexivity.
Defined.

End PgcursesMore.

(** ** tui.pyx *)

Module TuiMore.
Import Curses Tui TuiFacts.

Lemma range_elem_of n x : x ∈ range n <-> 0 <= x < n.
Proof.
  split; [apply range_elem |]. intros Hx. unfold range.
  apply list_elem_of_fmap. exists (Z.to_nat x). split; [lia |].
  apply elem_of_seq. lia.
Qed.

Lemma elem_of_rev {A : Type} (l : list A) x : x ∈ rev l <-> x ∈ l.
Proof. rewrite !list_elem_of_In. symmetry. apply in_rev. Qed.

Lemma safe_insch_at y x ch attr : call_at (safe_insch y x ch attr) = Some (y, x).
Proof. unfold safe_insch. by destruct (ch >? 127). Qed.

(** The calls of one formatted line stay on its row, inside the width of
    the window, and start with a write of the whole row. *)
Lemma draw_line_on_row color_pair attrib_map color_default y w line line_format ops :
  draw_line color_pair attrib_map color_default y w line line_format = Some ops ->
  (forall c, c ∈ ops ->
     exists x, call_at c = Some (y, x) /\ 0 <= x /\ (x = 0 \/ x < w)) /\
  (exists c, c ∈ ops /\ rewrites_row y c).
Proof.
  unfold draw_line. intros Hrun.
  destruct (idx line_format 0) as [first |]; [| done].
  cbn [mbind option_bind] in Hrun.
  destruct (idx first 0) as [default_color_id |]; [| done].
  cbn [mbind option_bind] in Hrun.
  destruct (idx attrib_map default_color_id) as [a |]; [| done].
  cbn [mbind option_bind] in Hrun.
  destruct (mapM _ _) as [chars |] eqn:Hchars; [| done].
  injection Hrun as <-. split.
  - intros c [-> | Hc]%elem_of_cons.
    + exists 0. split; [done |]. split; [lia | by left].
    + apply mapM_Some in Hchars.
      apply list_elem_of_lookup in Hc as [i Hi].
      destruct (Forall2_lookup_r _ _ _ _ _ Hchars Hi) as (pos & Hpos & Hdraw).
      apply list_elem_of_lookup_2, range_elem in Hpos.
      unfold draw_char in Hdraw.
      destruct (idx line pos) as [character |]; [| done].
      cbn [mbind option_bind] in Hdraw.
      destruct (char_attr _ _ _ _ _ _ _) as [attr |]; [| done].
      injection Hdraw as <-. exists pos. rewrite safe_insch_at.
      split; [done |]. split; [lia |]. right. lia.
  - eexists. split; [by left |]. by eexists _, _.
Qed.

(** The line loop started at line number [k] with [y = h - k]: it draws
    the rows from [y - 1] downwards, one per line, and ends with [y] on
    the last row it has drawn, or on -1 when it has run past the top. *)
Lemma draw_lines_rows color_pair attrib_map color_default h w chat_buffer chat_format
    chat_index chat_selected :
  forall n (k : nat) ops yf,
    draw_lines color_pair attrib_map color_default h w chat_buffer chat_format
      chat_index chat_selected (Z.of_nat <$> seq k n) (h - Z.of_nat k) = Some (ops, yf) ->
    yf <= h - Z.of_nat k /\
    (forall c, c ∈ ops ->
       exists y x, call_at c = Some (y, x) /\ Z.max yf 0 <= y < h - Z.of_nat k
                   /\ 0 <= x /\ (x = 0 \/ x < w)) /\
    (forall y, Z.max yf 0 <= y < h - Z.of_nat k -> exists c, c ∈ ops /\ rewrites_row y c).
Proof.
  induction n as [| n IH]; intros k ops yf Hrun.
  - injection Hrun as <- <-. split; [lia |]. split; [by intros c Hc%elem_of_nil | lia].
  - cbn [seq fmap list_fmap draw_lines] in Hrun.
    destruct (Z.geb_spec (chat_index + Z.of_nat k) (len chat_buffer)).
    { injection Hrun as <- <-. split; [lia |].
      split; [by intros c Hc%elem_of_nil | lia]. }
    destruct (Z.ltb_spec (h - (Z.of_nat k + 1)) 0) as [Htop | Hin].
    { cbn [orb] in Hrun. injection Hrun as <- <-. split; [lia |].
      split; [by intros c Hc%elem_of_nil | lia]. }
    destruct (Z.geb_spec (h - (Z.of_nat k + 1)) h); [lia |].
    cbn [orb] in Hrun.
    destruct (idx chat_buffer (chat_index + Z.of_nat k)) as [line |]; [| done].
    cbn [mbind option_bind] in Hrun.
    set (y := h - (Z.of_nat k + 1)) in *.
    destruct (if Z.of_nat k =? chat_selected - chat_index
              then Some [insstr y 0 (line ++ spaces (w - len line) ++ [10])
                           (color_pair 16)]
              else idx (slice_from chat_format chat_index) (Z.of_nat k)
                   ≫= draw_line color_pair attrib_map color_default y w line)
      as [row_ops |] eqn:Hrow; [| done].
    cbn [mbind option_bind] in Hrun.
    replace y with (h - Z.of_nat (S k)) in Hrun by lia.
    destruct (draw_lines _ _ _ _ _ _ _ _ _ _ _) as [[rest y'] |] eqn:Hrest; [| done].
    cbn [mbind option_bind] in Hrun. injection Hrun as <- <-.
    destruct (IH (S k) rest y' Hrest) as (Hle & Hin_rest & Hcover).
    assert (Hrow_ops :
      (forall c, c ∈ row_ops ->
         exists x, call_at c = Some (y, x) /\ 0 <= x /\ (x = 0 \/ x < w)) /\
      (exists c, c ∈ row_ops /\ rewrites_row y c)).
    { destruct (Z.of_nat k =? chat_selected - chat_index).
      - injection Hrow as <-. split.
        + intros c ->%list_elem_of_singleton. exists 0.
          split; [done |]. split; [lia | by left].
        + eexists. split; [by left |]. exists (line ++ spaces (w - len line)), (color_pair 16).
          by rewrite <- app_assoc.
      - destruct (idx (slice_from chat_format chat_index) (Z.of_nat k))
          as [line_format |]; [| done].
        by apply (draw_line_on_row _ _ _ _ _ _ _ _ Hrow). }
    destruct Hrow_ops as [Hon Hwhole].
    split; [lia |]. split.
    + intros c [Hc | Hc]%elem_of_app.
      * destruct (Hon c Hc) as (x & Hat & Hx). exists y, x. split; [done |].
        split; [lia | done].
      * destruct (Hin_rest c Hc) as (y1 & x & Hat & Hy1 & Hx). exists y1, x.
        split; [done |]. split; [lia | done].
    + intros y1 Hy1. destruct (Z.eq_dec y1 y) as [-> | Hne].
      * destruct Hwhole as (c & Hc & Hw). exists c. split; [| done].
        apply elem_of_app. by left.
      * destruct (Hcover y1 ltac:(lia)) as (c & Hc & Hw). exists c. split; [| done].
        apply elem_of_app. by right.
Qed.

(** X21: one call of [draw_chat] rewrites every row of the window and
    nothing else: each of its calls addresses a row in [0, h) and a
    column that is 0 or below [w], and for every row of the window there
    is an [insstr] at column 0 whose text ends with the row separator (a
    chat line, or the blank fill above the topmost line), so that no row
    keeps content of an earlier frame. *)
Theorem draw_chat_rewrites_window (color_pair : Z -> Z) (attrib_map : list Z)
    (color_default h w : Z) (chat_buffer : list str)
    (chat_format : list (list (list Z))) (chat_index chat_selected : Z)
    (ops : list call) :
  draw_chat color_pair attrib_map color_default h w chat_buffer chat_format
    chat_index chat_selected = Some ops ->
  (forall c, c ∈ ops ->
     exists y x, call_at c = Some (y, x) /\ 0 <= y < h /\ 0 <= x /\ (x = 0 \/ x < w)) /\
  (forall y, 0 <= y < h -> exists c, c ∈ ops /\ rewrites_row y c).
Proof.
  unfold draw_chat. intros Hrun.
  destruct (draw_lines _ _ _ _ _ _ _ _ _ _ _) as [[line_ops yf] |] eqn:Hlines; [| done].
  cbn [mbind option_bind] in Hrun. injection Hrun as <-.
  unfold range in Hlines at 1.
  replace h with (h - Z.of_nat 0) in Hlines at 2 by lia.
  destruct (draw_lines_rows _ _ _ _ _ _ _ _ _ _ _ _ _ Hlines) as (Hle & Hin & Hcover).
  rewrite Z.sub_0_r in *.
  split.
  - intros c [Hc | Hc]%elem_of_app.
    + destruct (Hin c Hc) as (y & x & Hat & Hy & Hx). exists y, x.
      split; [done |]. split; [lia | done].
    + apply list_elem_of_fmap in Hc as (y & -> & Hy%elem_of_rev%range_elem).
      exists y, 0. split; [done |]. split; [lia |]. split; [lia | by left].
  - intros y Hy. destruct (Z.lt_ge_cases y yf) as [Hfill | Hline].
    + exists (insstr y 0 [10] (color_pair 0)). split.
      * apply elem_of_app. right. apply list_elem_of_fmap. exists y.
        split; [done |]. apply elem_of_rev, range_elem_of. lia.
      * by exists [], (color_pair 0).
    + destruct (Hcover y ltac:(lia)) as (c & Hc & Hw). exists c. split; [| done].
      apply elem_of_app. by left.
Qed.

Lemma draw_chat_rewrites_window_witness :
  (forall c,
     c ∈ [insstr 2 0 [32; 32; 32; 32; 10] 256; insch 2 0 104 512;
          insch 2 1 105 65792; insstr 1 0 [111; 107; 33; 32; 10] 4096;
          insstr 0 0 [10] 0] ->
     exists y x, call_at c = Some (y, x) /\ 0 <= y < 3 /\ 0 <= x /\ (x = 0 \/ x < 4)) /\
  (forall y, 0 <= y < 3 ->
     exists c,
       c ∈ [insstr 2 0 [32; 32; 32; 32; 10] 256; insch 2 0 104 512;
            insch 2 1 105 65792; insstr 1 0 [111; 107; 33; 32; 10] 4096;
            insstr 0 0 [10] 0] /\ rewrites_row y c).
Proof.
  apply (draw_chat_rewrites_window ncurses_color_pair [0; 0; 0; 0] 0 3 4
           [[104; 105]; [111; 107; 33]] [[[1]; [2; 0; 1]; [65536; 0; 2]]; [[0]]] 0 1).
  reflexivity.
Defined.

Lemma filter_all {A : Type} (f : A -> bool) (l : list A) :
  (forall x, x ∈ l -> f x = true) -> List.filter f l = l.
Proof.
  induction l as [| x l IH]; intros Hall; [done |].
  cbn [List.filter]. rewrite (Hall x) by by left.
  rewrite IH; [done |]. intros z Hz. apply Hall. by right.
Qed.

Lemma filter_none {A : Type} (f : A -> bool) (l : list A) :
  (forall x, x ∈ l -> f x = false) -> List.filter f l = [].
Proof.
  induction l as [| x l IH]; intros Hnone; [done |].
  cbn [List.filter]. rewrite (Hnone x) by by left.
  apply IH. intros z Hz. apply Hnone. by right.
Qed.

Lemma draw_lines_layout color_pair attrib_map color_default h w chat_buffer chat_format
    chat_index chat_selected :
  forall n (k : nat) ops yf,
    draw_lines color_pair attrib_map color_default h w chat_buffer chat_format
      chat_index chat_selected (Z.of_nat <$> seq k n) (h - Z.of_nat k) = Some (ops, yf) ->
    chat_index + Z.of_nat k + Z.of_nat n <= len chat_buffer ->
    (yf = h - Z.of_nat (k + n) \/ yf < 0) /\
    (forall num, Z.of_nat k <= num < Z.of_nat (k + n) -> 0 <= h - (num + 1) ->
       exists calls,
         line_calls color_pair attrib_map color_default h w chat_buffer chat_format
           chat_index chat_selected num = Some calls /\
         List.filter (on_row (h - (num + 1))) ops = calls).
Proof.
  induction n as [| n IH]; intros k ops yf Hrun Hlen.
  - injection Hrun as <- <-. split; [left; lia | lia].
  - pose proof (draw_lines_rows _ _ _ _ _ _ _ _ _ (S n) k ops yf Hrun) as Hrows.
    cbn [seq fmap list_fmap draw_lines] in Hrun.
    destruct (Z.geb_spec (chat_index + Z.of_nat k) (len chat_buffer)); [lia |].
    destruct (Z.ltb_spec (h - (Z.of_nat k + 1)) 0) as [Htop | Hin].
    { cbn [orb] in Hrun. injection Hrun as <- <-. split; [right; lia | lia]. }
    destruct (Z.geb_spec (h - (Z.of_nat k + 1)) h); [lia |].
    cbn [orb] in Hrun.
    destruct (idx chat_buffer (chat_index + Z.of_nat k)) as [line |] eqn:Hline; [| done].
    cbn [mbind option_bind] in Hrun.
    set (y := h - (Z.of_nat k + 1)) in *.
    destruct (if Z.of_nat k =? chat_selected - chat_index
              then Some [insstr y 0 (line ++ spaces (w - len line) ++ [10])
                           (color_pair 16)]
              else idx (slice_from chat_format chat_index) (Z.of_nat k)
                   ≫= draw_line color_pair attrib_map color_default y w line)
      as [row_ops |] eqn:Hrow; [| done].
    cbn [mbind option_bind] in Hrun.
    replace y with (h - Z.of_nat (S k)) in Hrun by lia.
    destruct (draw_lines _ _ _ _ _ _ _ _ _ _ _) as [[rest y'] |] eqn:Hrest; [| done].
    cbn [mbind option_bind] in Hrun. injection Hrun as <- <-.
    destruct (IH (S k) rest y' Hrest ltac:(lia)) as (Hend & Hlayout).
    destruct (draw_lines_rows _ _ _ _ _ _ _ _ _ n (S k) rest y' Hrest)
      as (_ & Hin_rest & _).
    assert (Hon : forall c, c ∈ row_ops -> exists x, call_at c = Some (y, x)).
    { destruct (Z.of_nat k =? chat_selected - chat_index).
      - injection Hrow as <-. intros c ->%list_elem_of_singleton. by exists 0.
      - destruct (idx (slice_from chat_format chat_index) (Z.of_nat k))
          as [line_format |]; [| done].
        destruct (draw_line_on_row _ _ _ _ _ _ _ _ Hrow) as [Hall _].
        intros c Hc. destruct (Hall c Hc) as (x & Hat & _). by exists x. }
    split.
    { destruct Hend as [-> | Hneg]; [left; lia | by right]. }
    intros num Hnum Hvis. rewrite List.filter_app.
    destruct (Z.eq_dec num (Z.of_nat k)) as [-> | Hne].
    + exists row_ops. split.
      * unfold line_calls. rewrite Hline. cbn [mbind option_bind]. exact Hrow.
      * rewrite filter_all, filter_none, app_nil_r; [done | |].
        -- intros c Hc. destruct (Hin_rest c Hc) as (y1 & x & Hat & Hy1 & _).
           unfold on_row. rewrite Hat. apply Z.eqb_neq. lia.
        -- intros c Hc. destruct (Hon c Hc) as (x & Hat).
           unfold on_row. rewrite Hat. apply Z.eqb_eq. done.
    + destruct (Hlayout num ltac:(lia) Hvis) as (calls & Hcalls & Hfilter).
      exists calls. split; [done |].
      rewrite filter_none; [done |].
      intros c Hc. destruct (Hon c Hc) as (x & Hat).
      unfold on_row. rewrite Hat. apply Z.eqb_neq. lia.
Qed.

(** X22: [draw_chat] lays the lines out bottom-up: for a non-negative
    [chat_index], the line [chat_index + num] is drawn on row
    [h - 1 - num], for every [num] below [h] that has a line.  The calls
    addressing that row are exactly the calls of that line: one [insstr]
    of the line padded to the width with pair 16 when the line is the
    selected one (its spans are ignored), the output of [draw_line]
    otherwise. *)
Theorem draw_chat_bottom_up (color_pair : Z -> Z) (attrib_map : list Z)
    (color_default h w : Z) (chat_buffer : list str)
    (chat_format : list (list (list Z))) (chat_index chat_selected : Z)
    (ops : list call) (num : Z) :
  draw_chat color_pair attrib_map color_default h w chat_buffer chat_format
    chat_index chat_selected = Some ops ->
  0 <= chat_index -> 0 <= num < h -> chat_index + num < len chat_buffer ->
  exists calls,
    line_calls color_pair attrib_map color_default h w chat_buffer chat_format
      chat_index chat_selected num = Some calls /\
    List.filter (on_row (h - (num + 1))) ops = calls.
Proof.
  unfold draw_chat. intros Hrun Hidx Hnum Hline.
  destruct (draw_lines _ _ _ _ _ _ _ _ _ _ _) as [[line_ops yf] |] eqn:Hlines; [| done].
  cbn [mbind option_bind] in Hrun. injection Hrun as <-.
  unfold range in Hlines at 1.
  replace h with (h - Z.of_nat 0) in Hlines at 2 by lia.
  destruct (draw_lines_layout _ _ _ _ _ _ _ _ _ _ _ _ _ Hlines) as (Hend & Hlayout).
  { pose proof (len_nonneg chat_buffer). lia. }
  destruct (Hlayout num ltac:(lia) ltac:(lia)) as (calls & Hcalls & Hfilter).
  exists calls. split; [done |].
  rewrite List.filter_app, Hfilter, filter_none; [by rewrite app_nil_r |].
  intros c (y & -> & Hy%elem_of_rev%range_elem)%list_elem_of_fmap.
  unfold on_row. cbn [call_at]. apply Z.eqb_neq.
  destruct Hend as [-> | Hneg]; lia.
Qed.

Lemma draw_chat_bottom_up_witness :
  exists calls,
    line_calls ncurses_color_pair [0; 0; 0; 0] 0 3 4
      [[104; 105]; [111; 107; 33]] [[[1]; [2; 0; 1]; [65536; 0; 2]]; [[0]]] 0 1 1
      = Some calls /\
    List.filter (on_row (3 - (1 + 1)))
      [insstr 2 0 [32; 32; 32; 32; 10] 256; insch 2 0 104 512;
       insch 2 1 105 65792; insstr 1 0 [111; 107; 33; 32; 10] 4096;
       insstr 0 0 [10] 0] = calls.
Proof.
  apply (draw_chat_bottom_up ncurses_color_pair [0; 0; 0; 0] 0 3 4
           [[104; 105]; [111; 107; 33]] [[[1]; [2; 0; 1]; [65536; 0; 2]]; [[0]]] 0 1
           [insstr 2 0 [32; 32; 32; 32; 10] 256; insch 2 0 104 512;
            insch 2 1 105 65792; insstr 1 0 [111; 107; 33; 32; 10] 4096;
            insstr 0 0 [10] 0] 1).
  - reflexivity.
  - lia.
  - lia.
  - unfold len. simpl. lia.
Defined.

End TuiMore.

(** ** media.pyx *)

Module MediaMore.
Import Curses Media.

Lemma range_succ n : 0 <= n -> range (n + 1) = range n ++ [n].
Proof.
  intros Hn. unfold range.
  replace (Z.to_nat (n + 1)) with (S (Z.to_nat n)) by lia.
  rewrite seq_S, map_app. cbn [map Nat.add]. by rewrite Z2Nat.id.
Qed.

Section Calls.

Variable color_pair : Z -> Z.
Variables (pixels pixels_gray : list (list Z)).
Variables (start_color_id : Z) (ascii_palette : list Z) (ascii_palette_len : Z).
Variables (screen_width screen_height width height : Z).

(** The call of one pixel: the glyph the luminance selects in the ramp,
    in the colour pair of the pixel, 16 pairs above [start_color_id]. *)
Lemma img_cell_exact row_y padding_w y x c :
  img_cell color_pair pixels pixels_gray start_color_id ascii_palette
    ascii_palette_len row_y padding_w y x = Some c ->
  exists g ch p,
    pixel pixels_gray x y = Some g /\
    idx ascii_palette (glyph_index g ascii_palette_len) = Some ch /\
    pixel pixels x y = Some p /\
    c = insch row_y (x + padding_w) ch (color_pair (start_color_id + p + 16)).
Proof.
  unfold img_cell. intros Hc.
  destruct (pixel pixels_gray x y) as [g |]; [| done].
  cbn [mbind option_bind] in Hc.
  destruct (idx ascii_palette (glyph_index g ascii_palette_len)) as [ch |] eqn:Hch;
    [| done].
  cbn [mbind option_bind] in Hc.
  destruct (pixel pixels x y) as [p |]; [| done].
  injection Hc as <-. by exists g, ch, p.
Qed.

(** The [insch] calls of one image row are its pixels from left to right;
    the paddings on both sides are [insstr] calls. *)
Lemma img_row_cells padding_h padding_w bg_color y row_ops :
  img_row color_pair pixels pixels_gray start_color_id ascii_palette ascii_palette_len
    screen_width width padding_h padding_w bg_color y = Some row_ops ->
  Forall2
    (fun x c =>
       exists g ch p,
         pixel pixels_gray x y = Some g /\
         idx ascii_palette (glyph_index g ascii_palette_len) = Some ch /\
         pixel pixels x y = Some p /\
         c = insch (y + padding_h) (x + padding_w) ch
               (color_pair (start_color_id + p + 16)))
    (range width) (List.filter is_insch row_ops).
Proof.
  unfold img_row. intros Hrow.
  destruct (mapM _ _) as [cells |] eqn:Hcells; [| done].
  cbn [mbind option_bind] in Hrow.
  destruct (0 <? width); [| done]. cbn [mbind option_bind] in Hrow.
  injection Hrow as <-.
  apply mapM_Some in Hcells.
  assert (Hexact : Forall2
            (fun x c =>
               exists g ch p,
                 pixel pixels_gray x y = Some g /\
                 idx ascii_palette (glyph_index g ascii_palette_len) = Some ch /\
                 pixel pixels x y = Some p /\
                 c = insch (y + padding_h) (x + padding_w) ch
                       (color_pair (start_color_id + p + 16)))
            (range width) cells).
  { eapply Forall2_impl; [exact Hcells |]. intros x c Hc. by apply img_cell_exact. }
  assert (Hall : List.filter is_insch cells = cells).
  { apply TuiMore.filter_all. intros c [i Hi]%list_elem_of_lookup.
    destruct (Forall2_lookup_r _ _ _ _ _ Hexact Hi) as (x & _ & g & ch & p & _ & _ & _ & ->).
    done. }
  assert (Hpad : forall l : list call,
            l = [] \/ (exists a b t, l = [insstr a b t bg_color]) ->
            List.filter is_insch l = []).
  { by intros l [-> | (a & b & t & ->)]. }
  set (left := if padding_w >? 0 then _ else _).
  set (right := if _ <? screen_width then _ else _).
  assert (Hfl : List.filter is_insch left = []).
  { apply Hpad. unfold left.
    destruct (padding_w >? 0); [right; by eexists _, _, _ | by left]. }
  assert (Hfr : List.filter is_insch right = []).
  { apply Hpad. unfold right.
    destruct (_ <? screen_width); [right; by eexists _, _, _ | by left]. }
  rewrite !List.filter_app, Hfl, Hfr, Hall, app_nil_r. done.
Qed.

Lemma pixel_coords_elem w h x y :
  (x, y) ∈ pixel_coords w h <-> 0 <= x < w /\ 0 <= y < h.
Proof.
  unfold pixel_coords, range.
  rewrite list_elem_of_In, in_concat. split.
  - intros (l & Hl & Hin). apply in_map_iff in Hl as (y' & <- & Hy).
    apply in_map_iff in Hy as (j & <- & Hj%in_seq).
    apply in_map_iff in Hin as (x' & [= <- <-] & Hx).
    apply in_map_iff in Hx as (i & <- & Hi%in_seq). lia.
  - intros [Hx Hy]. exists (map (fun x => (x, y)) (map Z.of_nat (seq 0 (Z.to_nat w)))).
    split.
    + apply in_map_iff. exists y. split; [done |].
      apply in_map_iff. exists (Z.to_nat y). split; [lia |]. apply in_seq. lia.
    + apply in_map_iff. exists x. split; [done |].
      apply in_map_iff. exists (Z.to_nat x). split; [lia |]. apply in_seq. lia.
Qed.

Lemma range_NoDup n : NoDup (range n).
Proof.
  unfold range. apply NoDup_fmap_2; [apply Nat2Z.inj' | apply NoDup_seq].
Qed.

Lemma pixel_coords_NoDup w h : NoDup (pixel_coords w h).
Proof.
  unfold pixel_coords. pose proof (range_NoDup h) as Hys.
  induction Hys as [| y ys Hy _ IH]; [constructor |].
  cbn [map concat]. apply NoDup_app. split; [| split; [| done]].
  - apply NoDup_fmap_2; [| apply range_NoDup]. by intros x1 x2 [= ->].
  - intros [x y'] (x' & [= -> ->] & _)%list_elem_of_fmap Hin.
    apply list_elem_of_In, in_concat in Hin as (l & Hl & Hin).
    apply in_map_iff in Hl as (y'' & <- & Hy''%list_elem_of_In).
    apply in_map_iff in Hin as (x'' & [= _ <-] & _). done.
Qed.

(** X23: [img_to_curses] draws exactly one character per pixel.  Its
    [insch] calls, in the order they are issued, stand one for one for
    the pixels of the image taken row by row and left to right
    ([pixel_coords], which lists every pixel [(x, y)] with
    [0 <= x < width] and [0 <= y < height] once): the call for pixel
    [(x, y)] is at row [y + padding_h] and column [x + padding_w], with
    the glyph at index [gray * ascii_palette_len // 255] of the ramp and
    the colour pair [start_color_id + pixel + 16]. *)
Theorem img_to_curses_pixels (ops : list call) :
  img_to_curses color_pair pixels pixels_gray start_color_id ascii_palette
    ascii_palette_len screen_width screen_height width height = Some ops ->
  Forall2
    (fun xy c =>
       exists g ch p,
         pixel pixels_gray xy.1 xy.2 = Some g /\
         idx ascii_palette (glyph_index g ascii_palette_len) = Some ch /\
         pixel pixels xy.1 xy.2 = Some p /\
         c = insch (xy.2 + (screen_height - height) / 2)
               (xy.1 + (screen_width - width) / 2) ch
               (color_pair (start_color_id + p + 16)))
    (pixel_coords width height) (List.filter is_insch ops) /\
  NoDup (pixel_coords width height) /\
  (forall x y, (x, y) ∈ pixel_coords width height <-> 0 <= x < width /\ 0 <= y < height).
Proof.
  intros Hrun. split; [| split; [apply pixel_coords_NoDup | apply pixel_coords_elem]].
  unfold img_to_curses in Hrun.
  destruct (mapM _ _) as [rows |] eqn:Hrows; [| done].
  cbn [mbind option_bind] in Hrun. injection Hrun as <-.
  apply mapM_Some in Hrows.
  set (padding_h := (screen_height - height) / 2) in *.
  set (padding_w := (screen_width - width) / 2) in *.
  set (bg_color := color_pair (start_color_id + 1)) in *.
  assert (Hblank : forall (f : Z -> call) (l : list Z),
            (forall v, is_insch (f v) = false) ->
            List.filter is_insch (map f l) = []).
  { intros f l Hf. apply TuiMore.filter_none.
    intros c (v & -> & _)%list_elem_of_fmap. apply Hf. }
  assert (Hft : List.filter is_insch
                  (map (fun y_fill => insstr y_fill 0 (spaces screen_width) bg_color)
                     (range padding_h)) = []) by by apply Hblank.
  set (bottom := if screen_height =? height then [] else _).
  assert (Hfb : List.filter is_insch bottom = []).
  { unfold bottom. destruct (screen_height =? height); [done | by apply Hblank]. }
  rewrite !List.filter_app, Hft, Hfb. cbn [app List.filter is_insch].
  rewrite app_nil_r. unfold pixel_coords.
  induction Hrows as [| y r ys rs Hr _ IH]; [constructor |].
  cbn [map concat]. rewrite List.filter_app. apply Forall2_app; [| exact IH].
  apply Forall2_fmap_l. apply img_row_cells in Hr.
  eapply Forall2_impl; [exact Hr |]. intros x c Hc. exact Hc.
Qed.

(** X24: when the screen is taller than the image by an even number of
    rows, the bottom padding reaches one row too high: its last call is
    a full-width blank [insstr] on row [padding_h + height - 1], the last
    row of the image, issued after all the pixel calls and followed only
    by [noutrefresh]. *)
Theorem img_to_curses_bottom_padding_overlaps (ops : list call) :
  img_to_curses color_pair pixels pixels_gray start_color_id ascii_palette
    ascii_palette_len screen_width screen_height width height = Some ops ->
  height < screen_height ->
  (screen_height - height) mod 2 = 0 ->
  exists before,
    ops = before
          ++ [insstr ((screen_height - height) / 2 + height - 1) 0
                (spaces screen_width) (color_pair (start_color_id + 1));
              noutrefresh].
Proof.
  unfold img_to_curses. intros Hrun Hlt Heven.
  destruct (mapM _ _) as [rows |]; [| done].
  cbn [mbind option_bind] in Hrun. injection Hrun as <-.
  destruct (Z.eqb_spec screen_height height); [lia |].
  set (padding_h := (screen_height - height) / 2) in *.
  assert (Hph : 0 <= padding_h /\ screen_height - height = 2 * padding_h).
  { unfold padding_h. Z.div_mod_to_equations. lia. }
  rewrite (range_succ padding_h) by lia. rewrite map_app. cbn [map].
  replace (screen_height - 1 - padding_h) with (padding_h + height - 1) by lia.
  eexists. rewrite !app_assoc. rewrite <- app_assoc. cbn [app]. reflexivity.
Qed.

End Calls.

Lemma img_to_curses_pixels_witness :
  Forall2
    (fun xy c =>
       exists g ch p,
         pixel [[0; 255]] xy.1 xy.2 = Some g /\
         idx [32; 46; 35] (glyph_index g 2) = Some ch /\
         pixel [[3; 4]] xy.1 xy.2 = Some p /\
         c = insch (xy.2 + (3 - 1) / 2) (xy.1 + (4 - 2) / 2) ch
               (ncurses_color_pair (100 + p + 16)))
    (pixel_coords 2 1)
    (List.filter is_insch
       [insstr 0 0 [32; 32; 32; 32] 25856; insstr 1 0 [32] 25856;
        insch 1 1 32 30464; insch 1 2 35 30720;
        insstr 1 3 [32] 25856; insstr 2 0 [32; 32; 32; 32] 25856;
        insstr 1 0 [32; 32; 32; 32] 25856; noutrefresh]) /\
  NoDup (pixel_coords 2 1) /\
  (forall x y, (x, y) ∈ pixel_coords 2 1 <-> 0 <= x < 2 /\ 0 <= y < 1).
Proof.
  apply (img_to_curses_pixels ncurses_color_pair [[3; 4]] [[0; 255]] 100 [32; 46; 35]
           2 4 3 2 1).
  reflexivity.
Defined.

Lemma img_to_curses_bottom_padding_overlaps_witness :
  exists before,
    [insstr 0 0 [32; 32; 32; 32] 25856; insstr 1 0 [32] 25856;
     insch 1 1 32 30464; insch 1 2 35 30720;
     insstr 1 3 [32] 25856; insstr 2 0 [32; 32; 32; 32] 25856;
     insstr 1 0 [32; 32; 32; 32] 25856; noutrefresh]
    = before
      ++ [insstr ((3 - 1) / 2 + 1 - 1) 0 (spaces 4) (ncurses_color_pair (100 + 1));
          noutrefresh].
Proof.
  apply (img_to_curses_bottom_padding_overlaps ncurses_color_pair [[3; 4]] [[0; 255]]
           100 [32; 46; 35] 2 4 3 2 1).
  - reflexivity.
  - lia.
  - reflexivity.
Defined.

End MediaMore.
